(** * Weak-Bot opening-book builder: shallow embedding and verification

    The repository holds two scripts, [filter_and_build.py] (balanced
    scoring) and [weakest-book.py] (win-only scoring).  Both share the
    classes [BookMove], [BookPosition] and [Book], the normalisation pass,
    the jitter pass and the Polyglot encoder; they differ in the
    increment a ply adds to a move's weight and, when they fetch the
    games, in the rating test and in the ids they remember.

    Modelling choices.
    - Python [int] is [Z].  Python [float] (IEEE-754 binary64) is modelled
      by the rational it denotes, with round-to-nearest-even written out
      in [round64].
    - A Python [dict] keeps insertion order and the encoder iterates over
      it before a stable sort, so dictionaries are association lists in
      insertion order.
    - [random.randint] is an oracle: a raw stream [rng : nat -> Z] read
      through a counter that is threaded through the code.
    - [python-chess] is an external library.  A game is the stream it
      yields while the board is replayed: for every ply the Zobrist key
      of the board before the move, the side to move, and the move.
    - A raised Python exception is [None].  The [try] block of the ply
      loop ends a game at the first exception of python-chess; a game's
      list of plies is the list of the iterations that update the book,
      the last of which may be the one whose [board.push] raises, since
      the weight is added before the move is pushed.
    - The game server is an oracle: [server i until_ts] is the response
      to the [i]-th request.  A JSON line is the record of what the loop
      body reads from it, and the loop over the requests, which need not
      end, runs on fuel. *)

From Stdlib Require Import ZArith QArith Qround Qabs Qpower List Bool Lia Lqa.
From Stdlib Require Import String Ascii SpecFloat.
From Stdlib Require Import Sorting.Sorted Sorting.Permutation.
Import ListNotations.

Local Open Scope Z_scope.

(** ** Configuration constants *)

Definition VARIANT : string := "standard".
Definition MAX_PLY : Z := 60.
Definition MAX_BOOK_WEIGHT : Z := 2520.

(** ** The option monad for code that may raise *)

Definition bind {A B : Type} (x : option A) (f : A -> option B) : option B :=
  match x with
  | Some a => f a
  | None => None
  end.

Notation "x <- c1 ;; c2" := (bind c1 (fun x => c2))
  (at level 61, c1 at next level, right associativity).

(** [for x in l: ys += f x], aborting at the first exception. *)
Fixpoint concat_mapM {A B : Type} (f : A -> option (list B)) (l : list A)
  : option (list B) :=
  match l with
  | [] => Some []
  | x :: l' => ys <- f x ;; zs <- concat_mapM f l' ;; Some (ys ++ zs)
  end.

Fixpoint mapM {A B : Type} (f : A -> option B) (l : list A) : option (list B) :=
  match l with
  | [] => Some []
  | x :: l' => y <- f x ;; ys <- mapM f l' ;; Some (y :: ys)
  end.

(** ** The part of python-chess the scripts touch *)

(** [chess.PieceType]: PAWN = 1 ... KING = 6. *)
Inductive PieceType := PAWN | KNIGHT | BISHOP | ROOK | QUEEN | KING.

Definition piece_type_value (p : PieceType) : Z :=
  match p with
  | PAWN => 1 | KNIGHT => 2 | BISHOP => 3 | ROOK => 4 | QUEEN => 5 | KING => 6
  end.

Definition piece_symbol (p : PieceType) : string :=
  match p with
  | PAWN => "p" | KNIGHT => "n" | BISHOP => "b"
  | ROOK => "r" | QUEEN => "q" | KING => "k"
  end.

(** [chess.WHITE] and [chess.BLACK]. *)
Inductive Color := WHITE | BLACK.

Definition color_eqb (a b : Color) : bool :=
  match a, b with
  | WHITE, WHITE | BLACK, BLACK => true
  | _, _ => false
  end.

(** [chess.Move]: squares are 0..63 (a1 = 0, h8 = 63). *)
Record Move := mkMove {
  from_square : Z;
  to_square : Z;
  promotion : option PieceType
}.

Definition valid_square (sq : Z) : Prop := 0 <= sq < 64.

Definition valid_move (m : Move) : Prop :=
  valid_square (from_square m) /\ valid_square (to_square m).

Definition file_names : list ascii :=
  ["a"; "b"; "c"; "d"; "e"; "f"; "g"; "h"]%char.
Definition rank_names : list ascii :=
  ["1"; "2"; "3"; "4"; "5"; "6"; "7"; "8"]%char.

Definition square_name (sq : Z) : string :=
  String (nth (Z.to_nat (sq mod 8)) file_names "a"%char)
    (String (nth (Z.to_nat (sq / 8)) rank_names "1"%char) EmptyString).

(** [Move.uci()]: the null move prints as 0000. *)
Definition uci (m : Move) : string :=
  let squares :=
    (square_name (from_square m) ++ square_name (to_square m))%string in
  match promotion m with
  | Some p => (squares ++ piece_symbol p)%string
  | None =>
      if (from_square m =? 0) && (to_square m =? 0) then "0000"%string
      else squares
  end.

(** ** Book data model *)

(** [class BookMove]: [weight] starts at 0 and [move] at [None]. *)
Record BookMove := mkBookMove {
  weight : Z;
  move : option Move
}.

Definition new_BookMove : BookMove := mkBookMove 0 None.

(** [class BookPosition]: its only field is the dict [moves], from the
    UCI string of a move to its [BookMove]. *)
Definition BookPosition := list (string * BookMove).

Definition new_BookPosition : BookPosition := [].

(** [class Book]: its only field is the dict [positions].  The script
    keys it by [key_hex board], the 16 hex digits of the 64-bit Zobrist
    hash; the model keeps the hash itself, of which the hex string is an
    injective image. *)
Definition Book := list (Z * BookPosition).

Definition new_Book : Book := [].

(** ** Dictionaries in insertion order *)

Section Dict.
Context {K V : Type}.
Variable eqb : K -> K -> bool.

(** [d.get(k)] *)
Fixpoint dict_get (k : K) (d : list (K * V)) : option V :=
  match d with
  | [] => None
  | (k', v) :: d' => if eqb k k' then Some v else dict_get k d'
  end.

(** [v = d.setdefault(k, dflt)] followed by an in-place update [f] of
    the object [v]: an absent key is appended at the end. *)
Fixpoint dict_setdefault_update (k : K) (dflt : V) (f : V -> V)
    (d : list (K * V)) : list (K * V) :=
  match d with
  | [] => [(k, f dflt)]
  | (k', v) :: d' =>
      if eqb k k' then (k', f v) :: d'
      else (k', v) :: dict_setdefault_update k dflt f d'
  end.
End Dict.

(** [BookPosition.get_move(uci)], followed by the update [f] the caller
    makes to the [BookMove] it returns. *)
Definition get_move (u : string) (f : BookMove -> BookMove)
    (pos : BookPosition) : BookPosition :=
  dict_setdefault_update String.eqb u new_BookMove f pos.

(** [Book.get_position(key_hex)], followed by the update [f] the caller
    makes to the [BookPosition] it returns. *)
Definition get_position (key : Z) (f : BookPosition -> BookPosition)
    (b : Book) : Book :=
  dict_setdefault_update Z.eqb key new_BookPosition f b.

Definition lookup_position (key : Z) (b : Book) : option BookPosition :=
  dict_get Z.eqb key b.

Definition lookup_move (u : string) (pos : BookPosition) : option BookMove :=
  dict_get String.eqb u pos.

(** The [BookMove] stored for a position key and a UCI string. *)
Definition book_lookup (key : Z) (u : string) (b : Book) : option BookMove :=
  pos <- lookup_position key b ;; lookup_move u pos.

(** The weight a move has accumulated; 0 when it was never recorded, as a
    fresh [BookMove] would have. *)
Definition book_weight (key : Z) (u : string) (b : Book) : Z :=
  match book_lookup key u b with
  | Some bm => weight bm
  | None => 0
  end.

(** ** Bytes *)

(** The [n] big-endian base-256 digits of [v]. *)
Fixpoint be_bytes (n : nat) (v : Z) : list Z :=
  match n with
  | O => []
  | S n' => (v / 256 ^ Z.of_nat n') mod 256 :: be_bytes n' v
  end.

(** [v.to_bytes(n, "big")]: OverflowError when [v] is negative or does not
    fit. *)
Definition to_bytes (n : nat) (v : Z) : option (list Z) :=
  if (0 <=? v) && (v <? 256 ^ Z.of_nat n) then Some (be_bytes n v) else None.

(** [int.from_bytes(bs, "big")] *)
Definition from_bytes (bs : list Z) : Z :=
  fold_left (fun acc b => acc * 256 + b) bs 0.

(** [bs[i:j]] *)
Definition slice {A : Type} (i j : nat) (bs : list A) : list A :=
  firstn (j - i) (skipn i bs).

(** Comparison of two [bytes] objects: lexicographic, a proper prefix is
    smaller. *)
Fixpoint bytes_compare (a b : list Z) : comparison :=
  match a, b with
  | [], [] => Eq
  | [], _ :: _ => Lt
  | _ :: _, [] => Gt
  | x :: a', y :: b' =>
      match x ?= y with
      | Eq => bytes_compare a' b'
      | c => c
      end
  end.

(** ** Polyglot entries *)

Definition Entry := list Z.

Definition entry_hash (e : Entry) : Z := from_bytes (slice 0 8 e).
Definition entry_move (e : Entry) : Z := from_bytes (slice 8 10 e).
Definition entry_weight (e : Entry) : Z := from_bytes (slice 10 12 e).
Definition entry_learn (e : Entry) : list Z := slice 12 16 e.

(** The sort key of [save_polyglot]: [(e[:8], e[10:12])], compared as a
    Python tuple. *)
Definition sort_key (e : Entry) : list Z * list Z :=
  (slice 0 8 e, slice 10 12 e).

Definition key_compare (k1 k2 : list Z * list Z) : comparison :=
  match bytes_compare (fst k1) (fst k2) with
  | Eq => bytes_compare (snd k1) (snd k2)
  | c => c
  end.

Definition entry_le (e1 e2 : Entry) : bool :=
  match key_compare (sort_key e1) (sort_key e2) with
  | Gt => false
  | _ => true
  end.

(** [list.sort] is stable; a stable sort has one possible result, which
    insertion from the right computes. *)
Fixpoint insert_entry (e : Entry) (l : list Entry) : list Entry :=
  match l with
  | [] => [e]
  | e' :: l' => if entry_le e e' then e :: l else e' :: insert_entry e l'
  end.

Definition sort_entries (l : list Entry) : list Entry :=
  fold_right insert_entry [] l.

(** ** [Book.save_polyglot] *)

(** [mi = m.to_square + (m.from_square << 6)], plus
    [(m.promotion - 1) << 12] for a promotion. *)
Definition move_int (m : Move) : Z :=
  let mi := to_square m + Z.shiftl (from_square m) 6 in
  match promotion m with
  | Some p => mi + Z.shiftl (piece_type_value p - 1) 12
  | None => mi
  end.

(** [bytes.fromhex(key_hex)]: for a 64-bit key the 16 hex digits decode to
    its 8 big-endian bytes.  [zobrist_hash] only returns 64-bit values; a
    key outside that range is treated as an error here. *)
Definition key_bytes (key : Z) : option (list Z) := to_bytes 8 key.

(** The body of the inner loop: nothing for a move that is skipped, one
    16-byte entry otherwise. *)
Definition move_entries (zbytes : list Z) (ubm : string * BookMove)
  : option (list Entry) :=
  let bm := snd ubm in
  match move bm with
  | None => Some []
  | Some m =>
      if weight bm <=? 0 then Some []
      else
        mbytes <- to_bytes 2 (move_int m) ;;
        wbytes <- to_bytes 2 (Z.min MAX_BOOK_WEIGHT (weight bm)) ;;
        lbytes <- to_bytes 4 0 ;;
        Some [zbytes ++ mbytes ++ wbytes ++ lbytes]
  end.

Definition position_entries (kp : Z * BookPosition) : option (list Entry) :=
  zbytes <- key_bytes (fst kp) ;;
  concat_mapM (move_entries zbytes) (snd kp).

(** The entries in the order the nested loops append them. *)
Definition collect_entries (b : Book) : option (list Entry) :=
  concat_mapM position_entries b.

(** The file written is the concatenation of the returned entries. *)
Definition save_polyglot (b : Book) : option (list Entry) :=
  entries <- collect_entries b ;;
  Some (sort_entries entries).

(** ** Python floats

    A finite binary64 value is the rational it denotes.  [round64 r] is
    the binary64 value nearest to [r] (ties to the even significand),
    with gradual underflow at exponent -1074 and no largest value; the
    operations below check the result against [2 ^ 1024] themselves. *)

(** Round to the nearest integer, ties to even. *)
Definition round_half_even (t : Q) : Z :=
  let f := Qfloor t in
  match Qcompare (t - inject_Z f) (1 # 2) with
  | Lt => f
  | Gt => f + 1
  | Eq => if Z.even f then f else f + 1
  end.

(** The exponent [e] of the last place of a positive [r]: the significand
    [r / 2 ^ e] lies in [[2 ^ 52, 2 ^ 53)], unless [r] is subnormal. *)
Definition ulp_exponent (r : Q) : Z :=
  let e0 := Z.log2 (Qnum r) - Z.log2 (Zpos (Qden r)) - 52 in
  let e := if Qle_bool (2 ^ 52) (r / 2 ^ e0) then e0 else e0 - 1 in
  Z.max e (-1074).

Definition round64_pos (r : Q) : Q :=
  let e := ulp_exponent r in
  (inject_Z (round_half_even (r / 2 ^ e)) * 2 ^ e)%Q.

Definition round64 (r : Q) : Q :=
  match Qcompare r 0 with
  | Eq => 0%Q
  | Gt => round64_pos r
  | Lt => (- round64_pos (- r))%Q
  end.

Definition float_finite (x : Q) : bool :=
  negb (Qle_bool (2 ^ 1024) (Qabs x)).

(** [a / b] on two [int]s: the correctly rounded quotient;
    ZeroDivisionError for [b = 0], OverflowError when the result does not
    fit a float. *)
Definition int_true_div (a b : Z) : option Q :=
  if b =? 0 then None
  else
    let x := round64 (inject_Z a / inject_Z b) in
    if float_finite x then Some x else None.

(** [x * n] for a float [x] and an [int] [n] followed by [int(...)]: the
    product overflows to an infinity, on which [int] raises
    OverflowError; [int] truncates towards zero.  Converting [n] to a
    float is exact below [2 ^ 53]. *)
Definition float_mul_int (x : Q) (n : Z) : option Q :=
  let y := round64 (x * inject_Z n) in
  if float_finite y then Some y else None.

Definition py_int (y : Q) : Z :=
  if Qle_bool 0 y then Qfloor y else Qceiling y.

(** The same two operations in the Standard Library's reference model of
    binary64 arithmetic, to compare [round64] with. *)
Definition binary64_of_Z (z : Z) : spec_float :=
  binary_normalize 53 1024 z 0 false.

Definition binary64_value (x : spec_float) : Q :=
  match x with
  | S754_finite s m e => (inject_Z (if s then Zneg m else Zpos m) * 2 ^ e)%Q
  | _ => 0%Q
  end.

Definition binary64_scaled_share (s w : Z) : spec_float :=
  SFmul 53 1024 (SFdiv 53 1024 (binary64_of_Z w) (binary64_of_Z s))
    (binary64_of_Z MAX_BOOK_WEIGHT).

Definition round64_scaled_share (s w : Z) : Q :=
  round64 (round64 (inject_Z w / inject_Z s) * inject_Z MAX_BOOK_WEIGHT).

(** ** [Book.normalize] *)

(** [max(1, int(w / s * MAX_BOOK_WEIGHT))] *)
Definition rescale (s w : Z) : option Z :=
  x <- int_true_div w s ;;
  y <- float_mul_int x MAX_BOOK_WEIGHT ;;
  Some (Z.max 1 (py_int y)).

(** [sum(bm.weight for bm in pos.moves.values())] *)
Definition position_sum (pos : BookPosition) : Z :=
  fold_right (fun ubm acc => weight (snd ubm) + acc) 0 pos.

Definition rescale_move (s : Z) (ubm : string * BookMove)
  : option (string * BookMove) :=
  w <- rescale s (weight (snd ubm)) ;;
  Some (fst ubm, mkBookMove w (move (snd ubm))).

(** One iteration of the outer loop: [s] is computed once, before any
    weight of the position is rewritten. *)
Definition normalize_position (pos : BookPosition) : option BookPosition :=
  let s := position_sum pos in
  if s <=? 0 then Some pos else mapM (rescale_move s) pos.

Definition normalize (b : Book) : option Book :=
  mapM (fun kp => pos <- normalize_position (snd kp) ;; Some (fst kp, pos)) b.

(** ** Games as the scripts read them *)

(** One iteration of the ply loop sees the key of the board before the
    move ([key_hex board]), the side to move ([board.turn]) and the move
    that [game.mainline_moves()] yields. *)
Record Ply := mkPly {
  ply_key : Z;
  ply_turn : Color;
  ply_move : Move
}.

(** A parsed PGN game.  [variant_header] is
    [game.headers.get("Variant", "") or ""] and [result_header] is
    [game.headers.get("Result", "*")].  [white_header] and [black_header]
    are the player tags every PGN game carries; neither script reads
    them. *)
Record Game := mkGame {
  white_header : string;
  black_header : string;
  variant_header : string;
  result_header : string;
  mainline_moves : list Ply
}.

(** [str.lower] on ASCII letters. *)
Definition lower_ascii (c : ascii) : ascii :=
  let n := nat_of_ascii c in
  if (65 <=? n)%nat && (n <=? 90)%nat then ascii_of_nat (n + 32) else c.

Fixpoint lower (s : string) : string :=
  match s with
  | EmptyString => EmptyString
  | String c s' => String (lower_ascii c) (lower s')
  end.

(** [s.replace(" ", "")] *)
Fixpoint remove_spaces (s : string) : string :=
  match s with
  | EmptyString => EmptyString
  | String c s' =>
      if Ascii.eqb c " "%char then remove_spaces s'
      else String c (remove_spaces s')
  end.

(** [needle in hay] *)
Fixpoint contains (needle hay : string) : bool :=
  prefix needle hay ||
  match hay with
  | EmptyString => false
  | String _ hay' => contains needle hay'
  end.

(** The negation of the test that skips a game. *)
Definition variant_matches (g : Game) : bool :=
  contains VARIANT (remove_spaces (lower (variant_header g))).

(** ** Ingestion, jitter and the whole run *)

(** [decay = max(1, (MAX_PLY - ply) // 5)] *)
Definition decay (ply : Z) : Z := Z.max 1 ((MAX_PLY - ply) / 5).

Section Build.
(** The raw outputs of the random source, in the order they are drawn. *)
Variable rng : nat -> Z.

(** [random.randint(a, b)] with the counter of draws made so far. *)
Definition randint (a b : Z) (n : nat) : Z * nat :=
  (a + rng n mod (b - a + 1), S n).

(** What a scoring policy adds to [bm.weight] for one ply, given the
    result header, the side to move and the decay. *)
Definition Scoring := string -> Color -> Z -> nat -> Z * nat.

(** [filter_and_build.py]: 6 for the winner's moves and 1 for the
    loser's, 2 for a draw, nothing for any other result. *)
Definition balanced_increment : Scoring := fun result turn d n =>
  if String.eqb result "1-0" then
    ((if color_eqb turn WHITE then 6 else 1) * d, n)
  else if String.eqb result "0-1" then
    ((if color_eqb turn BLACK then 6 else 1) * d, n)
  else if String.eqb result "1/2-1/2" then (2 * d, n)
  else (0, n).

(** [weakest-book.py]: a draw from 4..6 for the winner's moves, nothing
    otherwise (and then no draw is made). *)
Definition win_only_increment : Scoring := fun result turn d n =>
  if (String.eqb result "1-0" && color_eqb turn WHITE)
     || (String.eqb result "0-1" && color_eqb turn BLACK)
  then let '(r, n') := randint 4 6 n in (r * d, n')
  else (0, n).

Section Ingest.
Variable increment : Scoring.

(** The body of the ply loop: [bm = book.get_position(k).get_move(uci)],
    [bm.move = move], [bm.weight += ...]. *)
Definition record_ply (result : string) (ply : Z) (p : Ply)
    (st : Book * nat) : Book * nat :=
  let '(book, n) := st in
  let '(inc, n') := increment result (ply_turn p) (decay ply) n in
  (get_position (ply_key p)
     (get_move (uci (ply_move p))
        (fun bm => mkBookMove (weight bm + inc) (Some (ply_move p))))
     book,
   n').

(** [for ply, move in enumerate(...)] with [if ply >= MAX_PLY: break],
    from index [ply] on. *)
Fixpoint play_from (result : string) (ply : Z) (moves : list Ply)
    (st : Book * nat) : Book * nat :=
  match moves with
  | [] => st
  | p :: rest =>
      if ply >=? MAX_PLY then st
      else play_from result (ply + 1) rest (record_ply result ply p st)
  end.

(** One iteration of the game loop. *)
Definition ingest_game (g : Game) (st : Book * nat) : Book * nat :=
  if variant_matches g
  then play_from (result_header g) 0 (mainline_moves g) st
  else st.

Definition ingest (games : list Game) (st : Book * nat) : Book * nat :=
  fold_left (fun st g => ingest_game g st) games st.
End Ingest.

Section Finish.
(** [bm.weight = min(MAX_BOOK_WEIGHT, bm.weight + random.randint(0, 3))] *)
Definition jitter_move (ubm : string * BookMove) (n : nat)
  : (string * BookMove) * nat :=
  let '(d, n') := randint 0 3 n in
  ((fst ubm,
    mkBookMove (Z.min MAX_BOOK_WEIGHT (weight (snd ubm) + d))
      (move (snd ubm))),
   n').

Fixpoint jitter_position (pos : BookPosition) (n : nat)
  : BookPosition * nat :=
  match pos with
  | [] => ([], n)
  | ubm :: pos' =>
      let '(ubm', n1) := jitter_move ubm n in
      let '(pos'', n2) := jitter_position pos' n1 in
      (ubm' :: pos'', n2)
  end.

Fixpoint jitter (b : Book) (n : nat) : Book * nat :=
  match b with
  | [] => ([], n)
  | (k, pos) :: b' =>
      let '(pos', n1) := jitter_position pos n in
      let '(b'', n2) := jitter b' n1 in
      ((k, pos') :: b'', n2)
  end.

(** [build_book_from_pgn] after the PGN file is parsed into [games]:
    the entries written to the book file. *)
Definition build_book (increment : Scoring) (games : list Game)
  : option (list Entry) :=
  let '(book, n) := ingest increment games (new_Book, O) in
  normalized <- normalize book ;;
  save_polyglot (fst (jitter normalized n)).
End Finish.
End Build.

(** ** Fetching the games *)

(** The rating bound of [filter_and_build.py] and the cap on the games
    kept for one bot. *)
Definition MAX_ELO : Z := 1600.
Definition MAX_GAMES : Z := 10000.

(** What the loop body reads from one decoded JSON object:
    [str(game.get("id") or "")]; [game.get("createdAt")] when it is an
    [int]; the two ratings, or [None] when reading them raises;
    [game.get("variant") or ""], or [None] when that is not a string, so
    that [.lower()] raises; [game.get("pgn")], empty when it is falsy. *)
Record GameJson := mkGameJson {
  json_id : string;
  json_created_at : option Z;
  json_ratings : option (Z * Z);
  json_variant : option string;
  json_pgn : string
}.

(** One line of a response: empty; text that is not JSON; bytes on which
    the body raises an exception it does not catch (not UTF-8, or JSON
    that is not an object); a JSON object. *)
Inductive Line :=
| BlankLine
| BadJson
| Uncaught
| JsonLine (game : GameJson).

(** The local variables of [fetch_all_games_for_bot]. *)
Record Fetch := mkFetch {
  all_pgns : list string;
  seen_ids : list string;
  total_lines : Z;
  kept : Z;
  batch_count : Z;
  earliest_ts : option Z
}.

Definition new_Fetch : Fetch := mkFetch [] [] 0 0 0 None.

(** [batch_count = 0] and [earliest_ts = None] before a response is read. *)
Definition new_chunk (st : Fetch) : Fetch :=
  mkFetch (all_pgns st) (seen_ids st) (total_lines st) (kept st) 0 None.

(** [batch_count += 1; total_lines += 1] *)
Definition count_line (st : Fetch) : Fetch :=
  mkFetch (all_pgns st) (seen_ids st) (total_lines st + 1) (kept st)
    (batch_count st + 1) (earliest_ts st).

(** [seen_ids.add(gid)] *)
Definition add_seen (gid : string) (st : Fetch) : Fetch :=
  mkFetch (all_pgns st) (gid :: seen_ids st) (total_lines st) (kept st)
    (batch_count st) (earliest_ts st).

(** [if earliest_ts is None or created_at < earliest_ts] *)
Definition note_created_at (created_at : option Z) (st : Fetch) : Fetch :=
  match created_at with
  | None => st
  | Some c =>
      match earliest_ts st with
      | Some e =>
          if c <? e
          then mkFetch (all_pgns st) (seen_ids st) (total_lines st) (kept st)
                 (batch_count st) (Some c)
          else st
      | None =>
          mkFetch (all_pgns st) (seen_ids st) (total_lines st) (kept st)
            (batch_count st) (Some c)
      end
  end.

(** [if pgn: all_pgns.append(pgn); kept += 1] *)
Definition keep_pgn (pgn : string) (st : Fetch) : Fetch :=
  if String.eqb pgn "" then st
  else mkFetch (all_pgns st ++ [pgn]) (seen_ids st) (total_lines st)
         (kept st + 1) (batch_count st) (earliest_ts st).

(** [len(all_pgns) >= MAX_GAMES] *)
Definition cap_reached (st : Fetch) : bool :=
  MAX_GAMES <=? Z.of_nat (List.length (all_pgns st)).

(** [VARIANT not in variant] is false. *)
Definition variant_tag_matches (v : string) : bool :=
  contains VARIANT (remove_spaces (lower v)).

(** How a call ends: it returns the list, an exception leaves it, or the
    requests counted by the fuel did not suffice. *)
Inductive Fetched :=
| Returned (pgns : list string)
| Raised
| Unfinished.

Section Fetch.
(** The two places where the scripts differ: whether an id is added to
    [seen_ids], and the rating test. *)
Variable remembers : string -> bool.
Variable rating_passes : GameJson -> bool.

(** [for raw in resp.iter_lines()], with its [continue]s and its
    [break]; [None] when an exception leaves the loop. *)
Fixpoint iter_lines (lines : list Line) (st : Fetch) : option Fetch :=
  match lines with
  | [] => Some st
  | BlankLine :: rest => iter_lines rest st
  | BadJson :: rest => iter_lines rest (count_line st)
  | Uncaught :: _ => None
  | JsonLine game :: rest =>
      let st1 := count_line st in
      if existsb (String.eqb (json_id game)) (seen_ids st1)
      then iter_lines rest st1
      else
        let st2 :=
          note_created_at (json_created_at game)
            (if remembers (json_id game) then add_seen (json_id game) st1
             else st1) in
        if negb (rating_passes game) then iter_lines rest st2
        else
          match json_variant game with
          | None => None
          | Some v =>
              if negb (variant_tag_matches v) then iter_lines rest st2
              else
                let st3 := keep_pgn (json_pgn game) st2 in
                if cap_reached st3 then Some st3 else iter_lines rest st3
          end
  end.

(** The [while True] loop.  [server i until_ts] is the response to the
    [i]-th request, sent with [until_ts] as its [until] parameter: the
    lines of the body, or [None] when [requests.get] or
    [raise_for_status] raises. *)
Fixpoint request_loop (fuel : nat)
    (server : nat -> option Z -> option (list Line)) (i : nat)
    (until_ts : option Z) (st : Fetch) : Fetched :=
  match fuel with
  | O => Unfinished
  | S fuel' =>
      match server i until_ts with
      | None => Raised
      | Some lines =>
          match iter_lines lines (new_chunk st) with
          | None => Raised
          | Some st' =>
              match earliest_ts st' with
              | None => Returned (all_pgns st')
              | Some e =>
                  if (batch_count st' =? 0) || cap_reached st'
                  then Returned (all_pgns st')
                  else request_loop fuel' server (S i) (Some (e - 1)) st'
              end
          end
      end
  end.

Definition fetch_all_games (fuel : nat)
    (server : nat -> option Z -> option (list Line)) : Fetched :=
  request_loop fuel server O None new_Fetch.
End Fetch.

Module FilterAndBuild.
Definition BOTS : list string :=
  ["MinOpponentMoves"%string; "NewChessEngine-ai"%string].

Definition build_book_from_pgn (rng : nat -> Z) (games : list Game)
  : option (list Entry) :=
  build_book rng balanced_increment games.

(** Only a non-empty id is added to [seen_ids]. *)
Definition remembers (gid : string) : bool := negb (String.eqb gid "").

(** [max(white_rating, black_rating) > MAX_ELO] is false, and reading the
    ratings did not raise. *)
Definition rating_passes (game : GameJson) : bool :=
  match json_ratings game with
  | Some (white_rating, black_rating) =>
      negb (MAX_ELO <? Z.max white_rating black_rating)
  | None => false
  end.

Definition fetch_all_games_for_bot (fuel : nat)
    (server : nat -> option Z -> option (list Line)) : Fetched :=
  fetch_all_games remembers rating_passes fuel server.
End FilterAndBuild.

Module WeakestBook.
Definition BOTS : list string := ["MinOpponentMoves"%string].

Definition build_book_from_pgn (rng : nat -> Z) (games : list Game)
  : option (list Entry) :=
  build_book rng (win_only_increment rng) games.

(** Every id is added to [seen_ids], the empty one too. *)
Definition remembers (gid : string) : bool := true.

(** There is no rating test. *)
Definition rating_passes (game : GameJson) : bool := true.

Definition fetch_all_games_for_bot (fuel : nat)
    (server : nat -> option Z -> option (list Line)) : Fetched :=
  fetch_all_games remembers rating_passes fuel server.
End WeakestBook.

(** ** Vocabulary of the properties *)

Definition is_byte (b : Z) : Prop := 0 <= b < 256.

(** The big-endian value of a byte string, from its head. *)
Fixpoint be_value (bs : list Z) : Z :=
  match bs with
  | [] => 0
  | b :: bs' => b * 256 ^ Z.of_nat (List.length bs') + be_value bs'
  end.

(** [e1] may stand before [e2] in the sorted output. *)
Definition entry_ordered (e1 e2 : Entry) : Prop := entry_le e1 e2 = true.

(** Keys are the 64-bit values [zobrist_hash] returns. *)
Definition valid_key (key : Z) : Prop := 0 <= key < 2 ^ 64.

Definition valid_ply (p : Ply) : Prop :=
  valid_key (ply_key p) /\ valid_move (ply_move p).

Definition valid_game (g : Game) : Prop := Forall valid_ply (mainline_moves g).

(** What ingestion establishes for every stored move: a non-negative
    weight, and a stored move whose UCI string is its dictionary key. *)
Definition move_ok (ubm : string * BookMove) : Prop :=
  0 <= weight (snd ubm)
  /\ exists m, move (snd ubm) = Some m /\ uci m = fst ubm /\ valid_move m.

Definition position_ok (kp : Z * BookPosition) : Prop :=
  valid_key (fst kp) /\ Forall move_ok (snd kp).

Definition book_ok (b : Book) : Prop :=
  NoDup (map fst b) /\ Forall position_ok b.

(** A scoring policy never subtracts. *)
Definition nonneg_scoring (increment : Scoring) : Prop :=
  forall result turn d n, 0 <= d -> 0 <= fst (increment result turn d n).

(** The side to move is the side that won the game. *)
Definition mover_wins (result : string) (turn : Color) : bool :=
  (String.eqb result "1-0" && color_eqb turn WHITE)
  || (String.eqb result "0-1" && color_eqb turn BLACK).

(** The side played by one of the bots whose games are collected. *)
Definition side_of_interest (bots : list string) (g : Game) : option Color :=
  if existsb (String.eqb (white_header g)) bots then Some WHITE
  else if existsb (String.eqb (black_header g)) bots then Some BLACK
  else None.

(** The 16 bytes of an entry with the given field values. *)
Definition make_entry (key mi w : Z) : Entry :=
  be_bytes 8 key ++ be_bytes 2 mi ++ be_bytes 2 w ++ be_bytes 4 0.

(** The test of [save_polyglot] that lets a move through. *)
Definition emitted (ubm : string * BookMove) : bool :=
  (0 <? weight (snd ubm))
  && match move (snd ubm) with Some _ => true | None => false end.

(** The entry of a move that is let through. *)
Definition entry_of (key : Z) (ubm : string * BookMove) : Entry :=
  make_entry key
    (match move (snd ubm) with Some m => move_int m | None => 0 end)
    (Z.min MAX_BOOK_WEIGHT (weight (snd ubm))).

Definition expected_entries (b : Book) : list Entry :=
  flat_map (fun kp => map (entry_of (fst kp)) (filter emitted (snd kp))) b.

(** Every value the encoder hands to [to_bytes] fits its field. *)
Definition encodable (b : Book) : Prop :=
  Forall (fun kp =>
    valid_key (fst kp)
    /\ Forall (fun ubm => emitted ubm = true ->
                forall m, move (snd ubm) = Some m -> 0 <= move_int m < 2 ^ 16)
         (snd kp)) b.

(** Adjacent entries ascend by hash and, for equal hashes, by [field]. *)
Definition sorted_by_hash_then (field : Entry -> Z) (es : list Entry) : Prop :=
  forall i e1 e2,
    nth_error es i = Some e1 -> nth_error es (S i) = Some e2 ->
    entry_hash e1 < entry_hash e2
    \/ (entry_hash e1 = entry_hash e2 /\ field e1 <= field e2).

(** The promotion codes of the Polyglot format. *)
Definition polyglot_promotion_code (p : option PieceType) : option Z :=
  match p with
  | None => Some 0
  | Some KNIGHT => Some 1
  | Some BISHOP => Some 2
  | Some ROOK => Some 3
  | Some QUEEN => Some 4
  | Some PAWN | Some KING => None
  end.

(** [enumerate(moves)] counted from [i]. *)
Fixpoint enumerate_from (i : Z) (moves : list Ply) : list (Z * Ply) :=
  match moves with
  | [] => []
  | p :: rest => (i, p) :: enumerate_from (i + 1) rest
  end.

(** Scoring exactly the first [bound] plies of a game, each with its own
    index. *)
Definition score_plies (increment : Scoring) (bound : nat) (result : string)
    (moves : list Ply) (st : Book * nat) : Book * nat :=
  fold_left (fun st ip => record_ply increment result (fst ip) (snd ip) st)
    (firstn bound (enumerate_from 0 moves)) st.

(** How normalisation relates a stored move to the rewritten one, for a
    position of sum [s]. *)
Definition move_normalized (s : Z) (ubm ubm1 : string * BookMove) : Prop :=
  fst ubm1 = fst ubm
  /\ move (snd ubm1) = move (snd ubm)
  /\ if s <=? 0 then weight (snd ubm1) = weight (snd ubm)
     else rescale s (weight (snd ubm)) = Some (weight (snd ubm1)).

Definition position_normalized (kp kp1 : Z * BookPosition) : Prop :=
  fst kp1 = fst kp
  /\ Forall2 (move_normalized (position_sum (snd kp))) (snd kp) (snd kp1).

(** How normalisation and jitter together relate a stored move to the
    move the encoder sees, for a position of sum [s]. *)
Definition move_finished (s : Z) (ubm ubm' : string * BookMove) : Prop :=
  fst ubm' = fst ubm
  /\ move (snd ubm') = move (snd ubm)
  /\ exists w d,
       (if s <=? 0 then w = weight (snd ubm)
        else rescale s (weight (snd ubm)) = Some w)
       /\ 0 <= d <= 3
       /\ weight (snd ubm') = Z.min MAX_BOOK_WEIGHT (w + d).

Definition position_finished (kp kp' : Z * BookPosition) : Prop :=
  fst kp' = fst kp
  /\ Forall2 (move_finished (position_sum (snd kp))) (snd kp) (snd kp').

(** [pos2] is what the jitter pass makes of a position [pos] whose weights
    are all zero: every move keeps its key and stored move, has its draw
    from 0..3 as weight, and has its entry among [es] exactly when that
    weight is positive. *)
Definition jittered_from_zero (key : Z) (es : list Entry)
    (pos pos2 : BookPosition) : Prop :=
  Forall2
    (fun ubm ubm2 =>
       fst ubm2 = fst ubm
       /\ move (snd ubm2) = move (snd ubm)
       /\ 0 <= weight (snd ubm2) <= 3
       /\ (In (entry_of key ubm2) es <-> 0 < weight (snd ubm2)))
    pos pos2.

(** ** Concrete games and books *)

(** The Zobrist key of the initial position. *)
Definition start_key : Z := 0x463b96181691fc9c.

Definition e2e4 : Move := mkMove 12 28 None.
Definition d2d4 : Move := mkMove 11 27 None.
Definition g1f3 : Move := mkMove 6 21 None.
Definition g8f6 : Move := mkMove 62 45 None.
Definition f3g1 : Move := mkMove 21 6 None.
Definition f6g8 : Move := mkMove 45 62 None.

(** A single-move game won by White. *)
Definition game_e4_white_wins : Game :=
  mkGame "MinOpponentMoves" "Opponent" "Standard" "1-0"
    [mkPly start_key WHITE e2e4].

Definition game_d4_white_wins : Game :=
  mkGame "MinOpponentMoves" "Opponent" "Standard" "1-0"
    [mkPly start_key WHITE d2d4].

(** A single-move game won by Black: its only move is the loser's. *)
Definition game_e4_black_wins : Game :=
  mkGame "MinOpponentMoves" "Opponent" "Standard" "0-1"
    [mkPly start_key WHITE e2e4].

(** A game the bot lost with Black: the only move is its opponent's. *)
Definition game_bot_loses : Game :=
  mkGame "Opponent" "MinOpponentMoves" "Standard" "1-0"
    [mkPly start_key WHITE e2e4].

(** Three games from the initial position: 1.e4 once, 1.d4 twice. *)
Definition three_games : list Game :=
  [game_e4_white_wins; game_d4_white_wins; game_d4_white_wins].

(** A random source that always returns [v]. *)
Definition constant_rng (v : Z) : nat -> Z := fun _ => v.

(** The two knights shuffle out and back: the position recurs every four
    plies.  [start_key] is the real key of the initial position; the other
    three stand for the keys of the three other positions, whose values
    play no role. *)
Definition shuffle_ply (i : nat) : Ply :=
  match (i mod 4)%nat with
  | 0%nat => mkPly start_key WHITE g1f3
  | 1%nat => mkPly 0x1111111111111111 BLACK g8f6
  | 2%nat => mkPly 0x2222222222222222 WHITE f3g1
  | _ => mkPly 0x3333333333333333 BLACK f6g8
  end.

(** A game of 61 plies (indices 0..60) won by White. *)
Definition long_game : Game :=
  mkGame "MinOpponentMoves" "Opponent" "Standard" "1-0"
    (map shuffle_ply (seq 0 61)).

(** A position in which 1.e4 has accumulated 132 (eleven games lost by
    White, 12 each) and 1.d4 has accumulated 48 (four such games). *)
Definition uneven_position : BookPosition :=
  [("e2e4"%string, mkBookMove 132 (Some e2e4));
   ("d2d4"%string, mkBookMove 48 (Some d2d4))].

Definition promotion_move : Move := mkMove 52 60 (Some QUEEN).

Definition sample_book : Book :=
  [(start_key,
    [("e2e4"%string, mkBookMove 840 (Some e2e4));
     ("d2d4"%string, mkBookMove 1680 (Some d2d4));
     ("g1f3"%string, mkBookMove 0 (Some g1f3))]);
   (0x1111111111111111,
    [("e7e8q"%string, mkBookMove 3000 (Some promotion_move))])].

(** In win-only mode: 1.e4 in a game White lost, then 1.d4 in a game
    White won. *)
Definition mixed_games : list Game :=
  [game_e4_black_wins; game_d4_white_wins].

(** The initial position after [mixed_games] with a first draw of 4:
    1.e4 unscored, 1.d4 scored 4 * 12. *)
Definition mixed_position : BookPosition :=
  [("e2e4"%string, mkBookMove 0 (Some e2e4));
   ("d2d4"%string, mkBookMove 48 (Some d2d4))].

(** ** [key_hex] and [bytes.fromhex] on strings *)

Definition hex_alphabet : list ascii :=
  ["0"; "1"; "2"; "3"; "4"; "5"; "6"; "7";
   "8"; "9"; "a"; "b"; "c"; "d"; "e"; "f"]%char.

(** The lower-case hexadecimal digit of [d]. *)
Definition hex_digit (d : Z) : ascii := nth (Z.to_nat d) hex_alphabet "0"%char.

(** The [n] hexadecimal digits of [v], most significant first. *)
Fixpoint hex_digits (n : nat) (v : Z) : string :=
  match n with
  | O => EmptyString
  | S n' => String (hex_digit ((v / 16 ^ Z.of_nat n') mod 16)) (hex_digits n' v)
  end.

(** The number of hexadecimal digits of a non-negative [v]. *)
Definition hex_length (v : Z) : nat :=
  if v =? 0 then 1%nat else Z.to_nat (Z.log2 v / 4 + 1).

(** [f"{v:016x}"]: at least 16 characters, zero-padded after the sign. *)
Definition format_016x (v : Z) : string :=
  if v <? 0 then String "-"%char (hex_digits (Nat.max 15 (hex_length (- v))) (- v))
  else hex_digits (Nat.max 16 (hex_length v)) v.

(** [key_hex(board)], given [chess.polyglot.zobrist_hash(board)]. *)
Definition key_hex (zobrist_hash : Z) : string := format_016x zobrist_hash.

(** The value of a hexadecimal digit of either case. *)
Definition hex_value (c : ascii) : option Z :=
  let n := Z.of_nat (nat_of_ascii c) in
  if (48 <=? n) && (n <=? 57) then Some (n - 48)
  else if (97 <=? n) && (n <=? 102) then Some (n - 87)
  else if (65 <=? n) && (n <=? 70) then Some (n - 55)
  else None.

(** ASCII whitespace: space, tab, newline, vertical tab, form feed,
    carriage return. *)
Definition is_ascii_space (c : ascii) : bool :=
  let n := nat_of_ascii c in
  (n =? 32)%nat || ((9 <=? n)%nat && (n <=? 13)%nat).

(** [bytes.fromhex(s)]: two digits per byte, whitespace allowed between
    bytes; ValueError otherwise. *)
Fixpoint fromhex (s : string) : option (list Z) :=
  match s with
  | EmptyString => Some []
  | String c s' =>
      if is_ascii_space c then fromhex s'
      else
        match hex_value c, s' with
        | Some hi, String c2 s'' =>
            match hex_value c2 with
            | Some lo => bytes <- fromhex s'' ;; Some (16 * hi + lo :: bytes)
            | None => None
            end
        | _, _ => None
        end
  end.

(** ** [save_merged_pgn] *)

Definition newline : ascii := "010"%char.

(** [p.endswith("\n")] *)
Fixpoint ends_with_newline (p : string) : bool :=
  match p with
  | EmptyString => false
  | String c EmptyString => Ascii.eqb c newline
  | String _ p' => ends_with_newline p'
  end.

(** The three writes of one loop iteration, appended to the file. *)
Definition write_pgn (file p : string) : string :=
  let file1 := (file ++ p)%string in
  let file2 := if ends_with_newline p then file1
               else (file1 ++ String newline EmptyString)%string in
  (file2 ++ String newline EmptyString)%string.

(** The text [save_merged_pgn] writes to [out_path]. *)
Definition save_merged_pgn (pgn_list : list string) : string :=
  fold_left write_pgn pgn_list EmptyString.

(** ** Vocabulary of the further properties *)

(** The sum of all weights a book holds. *)
Definition book_total (b : Book) : Z :=
  fold_right (fun kp acc => position_sum (snd kp) + acc) 0 b.

(** The moves of a book in the order the loops visit them. *)
Definition book_moves (b : Book) : list (string * BookMove) :=
  List.concat (map snd b).

(** The decays of the last [k] scored plies, added up. *)
Fixpoint decay_sum (k : nat) : Z :=
  match k with
  | O => 0
  | S k' => decay (MAX_PLY - Z.of_nat k) + decay_sum k'
  end.

(** A scoring policy adds between 0 and 6 times the decay. *)
Definition bounded_scoring (increment : Scoring) : Prop :=
  forall result turn d n, 0 <= d -> 0 <= fst (increment result turn d n) <= 6 * d.

(** The plies of a game the ply loop reaches. *)
Definition scored_plies (g : Game) : list Ply :=
  if variant_matches g then firstn (Z.to_nat MAX_PLY) (mainline_moves g)
  else [].

(** Some game of the list reaches a ply that plays [m] from the position
    of key [key]. *)
Definition observed (games : list Game) (key : Z) (m : Move) : Prop :=
  exists g p,
    In g games /\ In p (scored_plies g) /\ ply_key p = key /\ ply_move p = m.

(** What one ply adds, in balanced mode, to the move [u] of position
    [key]. *)
Definition balanced_ply_score (result : string) (key : Z) (u : string)
    (ip : Z * Ply) : Z :=
  if (ply_key (snd ip) =? key) && String.eqb (uci (ply_move (snd ip))) u
  then fst (balanced_increment result (ply_turn (snd ip)) (decay (fst ip)) O)
  else 0.

(** What one game adds, in balanced mode, to the move [u] of position
    [key]. *)
Definition balanced_game_score (key : Z) (u : string) (g : Game) : Z :=
  if variant_matches g then
    fold_right
      (fun ip acc => balanced_ply_score (result_header g) key u ip + acc) 0
      (firstn (Z.to_nat MAX_PLY) (enumerate_from 0 (mainline_moves g)))
  else 0.

(** [e] has the sort key of [e0]: the same 8 hash bytes and the same 2
    weight bytes. *)
Definition same_sort_key (e0 e : Entry) : bool :=
  match key_compare (sort_key e) (sort_key e0) with
  | Eq => true
  | _ => false
  end.

(** The hash and the move value of an entry: what a reader of the book
    looks an entry up by. *)
Definition hash_and_move (e : Entry) : Z * Z := (entry_hash e, entry_move e).

(** No move of the game promotes to a pawn (no legal move does). *)
Definition no_pawn_promotion (g : Game) : Prop :=
  Forall (fun p => promotion (ply_move p) <> Some PAWN) (mainline_moves g).

(** The stored move is a move on the board that does not promote to a
    pawn and is filed under its own UCI string. *)
Definition filed_move (ubm : string * BookMove) : Prop :=
  exists m,
    move (snd ubm) = Some m /\ uci m = fst ubm /\ valid_move m
    /\ promotion m <> Some PAWN.

(** A position with a 64-bit key whose moves are filed under pairwise
    different UCI strings. *)
Definition position_distinct (kp : Z * BookPosition) : Prop :=
  valid_key (fst kp) /\ NoDup (map fst (snd kp)) /\ Forall filed_move (snd kp).

(** The response to some request holds the game. *)
Definition served (server : nat -> option Z -> option (list Line))
    (game : GameJson) : Prop :=
  exists i until_ts lines,
    server i until_ts = Some lines /\ In (JsonLine game) lines.

(** The tests a game passes before its PGN is appended. *)
Definition passes_filters (rating_passes : GameJson -> bool)
    (game : GameJson) : Prop :=
  json_pgn game <> EmptyString
  /\ rating_passes game = true
  /\ exists v, json_variant game = Some v /\ variant_tag_matches v = true.

(** [gs] are the games whose PGNs [st] holds, in order. *)
Definition kept_games (remembers : string -> bool)
    (rating_passes : GameJson -> bool) (source : GameJson -> Prop)
    (st : Fetch) (gs : list GameJson) : Prop :=
  all_pgns st = map json_pgn gs
  /\ kept st = Z.of_nat (List.length gs)
  /\ Forall (fun g => source g /\ passes_filters rating_passes g) gs
  /\ Forall (fun g => remembers (json_id g) = true ->
                      In (json_id g) (seen_ids st)) gs
  /\ NoDup (filter remembers (map json_id gs)).

(** The loop body raises nothing on the line. *)
Definition line_readable (l : Line) : Prop :=
  match l with
  | Uncaught => False
  | JsonLine game => json_variant game <> None
  | _ => True
  end.

(** A server that answers every request with readable lines, dates no
    game before the epoch and, asked for the games until [t], sends none
    that was created after [t]. *)
Definition well_behaved (server : nat -> option Z -> option (list Line))
  : Prop :=
  forall i until_ts,
    exists lines,
      server i until_ts = Some lines
      /\ Forall line_readable lines
      /\ forall game c,
           In (JsonLine game) lines -> json_created_at game = Some c ->
           0 <= c /\ forall t, until_ts = Some t -> c <= t.

(** A server with two games, the second sent twice, that honours
    [until]. *)
Definition sample_game_json (gid : string) (created_at rating : Z)
  : GameJson :=
  mkGameJson gid (Some created_at) (Some (rating, 1500)) (Some "Standard"%string)
    "1. e4 e5"%string.

Definition sample_server (i : nat) (until_ts : option Z)
  : option (list Line) :=
  Some
    (filter
       (fun l =>
          match l, until_ts with
          | JsonLine g, Some t =>
              match json_created_at g with
              | Some c => c <=? t
              | None => true
              end
          | _, _ => true
          end)
       [JsonLine (sample_game_json "b"%string 2 1400); BlankLine; BadJson;
        JsonLine (sample_game_json "b"%string 2 1400);
        JsonLine (sample_game_json "c"%string 1 1700);
        JsonLine (sample_game_json "a"%string 1 1600)]).

(** * Proofs *)

(** ** Rounding to binary64 *)

Section FloatFacts.
Local Open Scope Q_scope.

Lemma round_half_even_bounds (t : Q) :
  t - (1 # 2) <= inject_Z (round_half_even t) <= t + (1 # 2).
Proof.
  unfold round_half_even.
  pose proof (Qfloor_le t) as Hlo.
  pose proof (Qlt_floor t) as Hhi.
  rewrite inject_Z_plus in Hhi. change (inject_Z 1) with 1 in Hhi.
  destruct (Qcompare (t - inject_Z (Qfloor t)) (1 # 2)) eqn:Hc;
    [ apply Qeq_alt in Hc; destruct (Z.even (Qfloor t))
    | apply Qlt_alt in Hc | apply Qgt_alt in Hc ];
    rewrite ?inject_Z_plus; change (inject_Z 1) with 1; lra.
Qed.

Lemma round_half_even_nonneg (t : Q) : 0 <= t -> (0 <= round_half_even t)%Z.
Proof.
  intros Ht. unfold round_half_even.
  assert (0 <= Qfloor t)%Z as Hf.
  { change 0%Z with (Qfloor 0). apply Qfloor_resp_le. exact Ht. }
  destruct (Qcompare _ _); [destruct (Z.even _) | | ]; lia.
Qed.

Lemma pow2_pos (e : Z) : 0 < 2 ^ e.
Proof. apply Qpower_0_lt. reflexivity. Qed.

Lemma pow2_inject (n : Z) : (0 <= n)%Z -> inject_Z (2 ^ n) == 2 ^ n.
Proof. intros Hn. rewrite Zpower_Qpower by exact Hn. reflexivity. Qed.

(** A positive rational against the powers of two around its numerator
    and denominator. *)
Lemma log2_lower (r : Q) :
  0 < r -> 2 ^ (Z.log2 (Qnum r) - Z.log2 (Zpos (Qden r)) - 1) <= r.
Proof.
  intros Hr. destruct r as [n d]. cbn [Qnum Qden].
  assert (0 < n)%Z as Hn by (unfold Qlt in Hr; simpl in Hr; lia).
  pose proof (Z.log2_spec n Hn) as [Ha _].
  pose proof (Z.log2_spec (Zpos d) (Pos2Z.is_pos d)) as [_ Hb].
  pose proof (Z.log2_nonneg n) as Han.
  pose proof (Z.log2_nonneg (Zpos d)) as Hbn.
  set (a := Z.log2 n) in *. set (b := Z.log2 (Zpos d)) in *.
  replace (a - b - 1)%Z with (a - (b + 1))%Z by lia.
  rewrite Qpower_minus by discriminate.
  rewrite <- (pow2_inject a) by lia.
  rewrite <- (pow2_inject (b + 1)) by lia.
  rewrite Qmake_Qdiv.
  assert (0 < inject_Z (2 ^ (b + 1))) as Hpb.
  { rewrite pow2_inject by lia. apply pow2_pos. }
  assert (0 < inject_Z (Zpos d)) as Hpd by reflexivity.
  apply Qle_shift_div_l; [exact Hpd |].
  unfold Qdiv. rewrite <- Qmult_assoc, (Qmult_comm (/ _)), Qmult_assoc.
  apply Qle_shift_div_r; [exact Hpb |].
  rewrite <- !inject_Z_mult. rewrite <- Zle_Qle.
  replace (Z.succ b) with (b + 1)%Z in Hb by lia. nia.
Qed.

Lemma ulp_exponent_spec (r : Q) :
  0 < r ->
  2 ^ ulp_exponent r * 2 ^ 52 <= r \/ ulp_exponent r = (-1074)%Z.
Proof.
  intros Hr. unfold ulp_exponent.
  set (e0 := (Z.log2 (Qnum r) - Z.log2 (Zpos (Qden r)) - 52)%Z).
  set (e := if Qle_bool (2 ^ 52) (r / 2 ^ e0) then e0 else (e0 - 1)%Z).
  destruct (Z.max_spec e (-1074)) as [[_ ->] | [_ ->]]; [right; reflexivity |].
  left. subst e.
  destruct (Qle_bool (2 ^ 52) (r / 2 ^ e0)) eqn:Ht.
  - apply Qle_bool_iff in Ht.
    apply (Qmult_le_compat_r _ _ (2 ^ e0)) in Ht;
      [| apply Qlt_le_weak, pow2_pos].
    assert (r / 2 ^ e0 * 2 ^ e0 == r) as Hd.
    { field. intros H0. pose proof (pow2_pos e0) as Hp. rewrite H0 in Hp.
      discriminate Hp. }
    rewrite Hd in Ht. rewrite Qmult_comm. exact Ht.
  - pose proof (log2_lower r Hr) as Hl.
    replace (Z.log2 (Qnum r) - Z.log2 (Zpos (Qden r)) - 1)%Z
      with ((e0 - 1) + 52)%Z in Hl by (subst e0; lia).
    rewrite Qpower_plus in Hl by discriminate. exact Hl.
Qed.

Lemma round64_pos_nonneg (r : Q) : 0 < r -> 0 <= round64_pos r.
Proof.
  intros Hr. unfold round64_pos.
  apply Qmult_le_0_compat; [| apply Qlt_le_weak, pow2_pos].
  change 0 with (inject_Z 0). rewrite <- Zle_Qle.
  apply round_half_even_nonneg.
  apply Qle_shift_div_l; [apply pow2_pos |].
  rewrite Qmult_0_l. apply Qlt_le_weak, Hr.
Qed.

(** The rounding error is at most half a unit in the last place. *)
Lemma round64_pos_half_ulp (r : Q) :
  0 < r ->
  r - 2 ^ ulp_exponent r * (1 # 2) <= round64_pos r
  /\ round64_pos r <= r + 2 ^ ulp_exponent r * (1 # 2).
Proof.
  intros Hr. unfold round64_pos.
  set (e := ulp_exponent r).
  pose proof (pow2_pos e) as Hp.
  pose proof (round_half_even_bounds (r / 2 ^ e)) as [Hlo Hhi].
  assert (r / 2 ^ e * 2 ^ e == r) as Hd.
  { field. intros H0. rewrite H0 in Hp. discriminate Hp. }
  apply (Qmult_le_compat_r _ _ (2 ^ e)) in Hlo; [| apply Qlt_le_weak, Hp].
  apply (Qmult_le_compat_r _ _ (2 ^ e)) in Hhi; [| apply Qlt_le_weak, Hp].
  rewrite <- Hd at 1 4.
  split; [ eapply Qle_trans; [| exact Hlo] | eapply Qle_trans; [exact Hhi |] ];
    ring_simplify; apply Qle_refl.
Qed.

Lemma round64_positive (r : Q) : 0 < r -> round64 r = round64_pos r.
Proof.
  intros Hr. unfold round64.
  assert (Qcompare r 0 = Gt) as -> by (apply Qgt_alt; exact Hr).
  reflexivity.
Qed.

Lemma round64_zero (r : Q) : r == 0 -> round64 r = 0.
Proof.
  intros Hr. unfold round64.
  assert (Qcompare r 0 = Eq) as -> by (apply Qeq_alt; exact Hr).
  reflexivity.
Qed.

(** Upper bound valid for every positive argument, subnormal or not. *)
Lemma round64_upper (r : Q) :
  0 < r -> round64 r <= r + r * 2 ^ (-53) + 2 ^ (-1075).
Proof.
  intros Hr. rewrite (round64_positive r Hr).
  pose proof (round64_pos_half_ulp r Hr) as [_ Hhi].
  pose proof (pow2_pos (ulp_exponent r)) as Hp.
  assert (2 ^ (-53) == 1 # 9007199254740992) as E53 by reflexivity.
  assert (0 < 2 ^ (-1075)) as Htiny by apply pow2_pos.
  destruct (ulp_exponent_spec r Hr) as [He | He].
  - assert (2 ^ 52 == 4503599627370496) as E52 by reflexivity.
    rewrite E52 in He. rewrite E53. lra.
  - rewrite He in Hhi.
    assert (2 ^ (-1074) * (1 # 2) == 2 ^ (-1075)) as E by reflexivity.
    rewrite E in Hhi. rewrite E53. lra.
Qed.

(** Relative error of a normal result. *)
Lemma round64_relative (r : Q) :
  2 ^ (-1022) <= r ->
  r - r * 2 ^ (-53) <= round64 r /\ round64 r <= r + r * 2 ^ (-53).
Proof.
  intros Hn.
  assert (0 < r) as Hr.
  { eapply Qlt_le_trans; [apply (pow2_pos (-1022)) | exact Hn]. }
  rewrite (round64_positive r Hr).
  pose proof (round64_pos_half_ulp r Hr) as [Hlo Hhi].
  assert (2 ^ (-53) == 1 # 9007199254740992) as E53 by reflexivity.
  assert (2 ^ ulp_exponent r * (1 # 2) <= r * 2 ^ (-53)) as Herr.
  { destruct (ulp_exponent_spec r Hr) as [He | He].
    - assert (2 ^ 52 == 4503599627370496) as E52 by reflexivity.
      rewrite E52 in He. rewrite E53. lra.
    - rewrite He.
      assert (2 ^ (-1074) * (1 # 2) == 2 ^ (-1022) * 2 ^ (-53)) as E
        by reflexivity.
      rewrite E. apply Qmult_le_compat_r; [exact Hn |].
      apply Qlt_le_weak, pow2_pos. }
  split; lra.
Qed.

Lemma round64_range (r B : Q) :
  0 <= r -> r <= B ->
  0 <= round64 r /\ round64 r <= B + B * 2 ^ (-53) + 2 ^ (-1075).
Proof.
  intros H0 HB.
  assert (2 ^ (-53) == 1 # 9007199254740992) as E53 by reflexivity.
  pose proof (pow2_pos (-1075)) as Htiny.
  destruct (Qlt_le_dec 0 r) as [Hr | Hr].
  - split.
    + rewrite (round64_positive r Hr). apply round64_pos_nonneg, Hr.
    + pose proof (round64_upper r Hr) as Hu. rewrite E53 in *. lra.
  - rewrite round64_zero by lra. rewrite E53. split; lra.
Qed.

Lemma float_finite_small (x : Q) :
  0 <= x -> x <= 6000 -> float_finite x = true.
Proof.
  intros H0 Hx. unfold float_finite.
  destruct (Qle_bool (2 ^ 1024) (Qabs x)) eqn:Hb; [| reflexivity].
  apply Qle_bool_iff in Hb. rewrite Qabs_pos in Hb by exact H0.
  assert (6000 < 2 ^ 1024) as Hbig by reflexivity.
  lra.
Qed.

Lemma py_int_nonneg (y : Q) : 0 <= y -> py_int y = Qfloor y.
Proof.
  intros Hy. unfold py_int.
  assert (Qle_bool 0 y = true) as -> by (apply Qle_bool_iff; exact Hy).
  reflexivity.
Qed.

Lemma quotient_range (w s : Z) :
  (0 <= w <= s)%Z -> (0 < s)%Z ->
  0 <= inject_Z w / inject_Z s /\ inject_Z w / inject_Z s <= 1.
Proof.
  intros Hw Hs.
  assert (0 < inject_Z s) as Hq.
  { change 0 with (inject_Z 0). rewrite <- Zlt_Qlt. exact Hs. }
  split.
  - apply Qle_shift_div_l; [exact Hq |]. rewrite Qmult_0_l.
    change 0 with (inject_Z 0). rewrite <- Zle_Qle. lia.
  - apply Qle_shift_div_r; [exact Hq |]. rewrite Qmult_1_l.
    rewrite <- Zle_Qle. lia.
Qed.

(** On a weight between 0 and the position sum neither float operation
    can raise, and both intermediate floats are small and non-negative. *)
Lemma rescale_defined (s w : Z) :
  (0 <= w <= s)%Z -> (0 < s)%Z ->
  let x := round64 (inject_Z w / inject_Z s) in
  let y := round64 (x * inject_Z MAX_BOOK_WEIGHT) in
  0 <= y /\ rescale s w = Some (Z.max 1 (Qfloor y)).
Proof.
  intros Hw Hs x y.
  assert (2 ^ (-53) == 1 # 9007199254740992) as E53 by reflexivity.
  assert (2 ^ (-1075) <= 1) as Htiny by (unfold Qle; vm_compute; discriminate).
  destruct (quotient_range w s Hw Hs) as [Hr0 Hr1].
  destruct (round64_range _ 1 Hr0 Hr1) as [Hx0 Hx1].
  fold x in Hx0, Hx1. rewrite E53 in Hx1.
  assert (0 <= x * inject_Z MAX_BOOK_WEIGHT) as Hz0.
  { apply Qmult_le_0_compat; [exact Hx0 | discriminate]. }
  assert (x * inject_Z MAX_BOOK_WEIGHT <= 5600) as Hz1.
  { change (inject_Z MAX_BOOK_WEIGHT) with 2520. lra. }
  destruct (round64_range _ 5600 Hz0 Hz1) as [Hy0 Hy1].
  fold y in Hy0, Hy1. rewrite E53 in Hy1.
  split; [exact Hy0 |].
  unfold rescale, int_true_div.
  assert ((s =? 0)%Z = false) as -> by (apply Z.eqb_neq; lia).
  fold x. rewrite (float_finite_small x) by lra.
  cbn [bind]. unfold float_mul_int. fold y.
  rewrite (float_finite_small y) by lra.
  cbn [bind]. rewrite (py_int_nonneg y Hy0). reflexivity.
Qed.

Lemma rescale_total (s w : Z) :
  (0 <= w <= s)%Z -> (0 < s)%Z ->
  exists v, rescale s w = Some v /\ (1 <= v)%Z.
Proof.
  intros Hw Hs. destruct (rescale_defined s w Hw Hs) as [_ H].
  eexists. split; [exact H | lia].
Qed.

(** The float result is the exact floor or one less. *)
Lemma rescale_near_exact (s w : Z) :
  (0 <= w <= s)%Z -> (0 < s < 2 ^ 40)%Z ->
  exists v, rescale s w = Some (Z.max 1 v)
            /\ (w * MAX_BOOK_WEIGHT / s - 1 <= v <= w * MAX_BOOK_WEIGHT / s)%Z.
Proof.
  intros Hw Hs.
  destruct (rescale_defined s w Hw (proj1 Hs)) as [Hy0 H].
  eexists. split; [exact H |].
  set (x := round64 (inject_Z w / inject_Z s)) in *.
  set (y := round64 (x * inject_Z MAX_BOOK_WEIGHT)) in *.
  set (k := (w * MAX_BOOK_WEIGHT / s)%Z).
  destruct (Z.eq_dec w 0) as [-> | Hw0].
  - assert (x = 0) as Hx.
    { subst x. apply round64_zero. unfold Qdiv. rewrite Qmult_0_l.
      reflexivity. }
    assert (y = 0) as Hy.
    { subst y. apply round64_zero. rewrite Hx. rewrite Qmult_0_l.
      reflexivity. }
    rewrite Hy. subst k. rewrite Z.mul_0_l, Z.div_0_l by lia.
    change (Qfloor 0) with 0%Z. lia.
  - assert (2 ^ (-53) == 1 # 9007199254740992) as E53 by reflexivity.
    assert (2 ^ (-1022) <= 1 # 1099511627776) as Hmin
        by (unfold Qle; vm_compute; discriminate).
    assert (0 < inject_Z s) as Hq.
    { change 0 with (inject_Z 0). rewrite <- Zlt_Qlt. lia. }
    set (r := inject_Z w / inject_Z s) in *.
    destruct (quotient_range w s Hw (proj1 Hs)) as [_ Hr1]. fold r in Hr1.
    (* the quotient is at least 1/s, above the subnormal range *)
    assert ((1 # 1099511627776) <= r) as Hrlo.
    { subst r. apply Qle_shift_div_l; [exact Hq |].
      rewrite (Qmake_Qdiv 1 1099511627776).
      unfold Qdiv. rewrite <- Qmult_assoc, (Qmult_comm (/ _)), Qmult_assoc.
      apply Qle_shift_div_r; [reflexivity |].
      rewrite <- !inject_Z_mult, <- Zle_Qle.
      change (2 ^ 40)%Z with 1099511627776%Z in Hs. lia. }
    destruct (round64_relative r) as [Hxlo Hxhi]; [lra |].
    fold x in Hxlo, Hxhi. rewrite E53 in Hxlo, Hxhi.
    change (inject_Z MAX_BOOK_WEIGHT) with 2520 in *.
    destruct (round64_relative (x * 2520)) as [Hylo Hyhi]; [lra |].
    fold y in Hylo, Hyhi. rewrite E53 in Hylo, Hyhi.
    (* the exact quotient against its floor *)
    assert (0 <= k)%Z as Hk0 by (apply Z.div_pos; unfold MAX_BOOK_WEIGHT; lia).
    pose proof (Z.mul_div_le (w * MAX_BOOK_WEIGHT) s (proj1 Hs)) as Hklo.
    pose proof (Z.mul_succ_div_gt (w * MAX_BOOK_WEIGHT) s (proj1 Hs)) as Hkhi.
    fold k in Hklo, Hkhi.
    assert (inject_Z k <= r * 2520) as Hqlo.
    { subst r. unfold Qdiv.
      rewrite <- Qmult_assoc, (Qmult_comm (/ _)), Qmult_assoc.
      apply Qle_shift_div_l; [exact Hq |].
      change 2520 with (inject_Z 2520).
      rewrite <- !inject_Z_mult, <- Zle_Qle.
      unfold MAX_BOOK_WEIGHT in Hklo. lia. }
    assert (r * 2520 + (1 # 1099511627776) <= inject_Z k + 1) as Hqhi.
    { assert (r * 2520 + / inject_Z s <= inject_Z k + 1) as H1.
      { assert (r * 2520 + / inject_Z s
                == inject_Z (w * 2520 + 1) / inject_Z s) as ->.
        { subst r. rewrite inject_Z_plus, inject_Z_mult.
          change (inject_Z 2520) with 2520. change (inject_Z 1) with 1.
          field. intros H0. rewrite H0 in Hq. discriminate Hq. }
        apply Qle_shift_div_r; [exact Hq |].
        change 1 with (inject_Z 1).
        rewrite <- inject_Z_plus, <- inject_Z_mult, <- Zle_Qle.
        unfold MAX_BOOK_WEIGHT in Hkhi. lia. }
      assert ((1 # 1099511627776) <= / inject_Z s) as H2.
      { assert (/ inject_Z s == 1 / inject_Z s) as -> by (unfold Qdiv; ring).
        apply Qle_shift_div_l; [exact Hq |].
        assert (inject_Z s <= 1099511627776) as Hs'.
        { change 1099511627776 with (inject_Z 1099511627776).
          rewrite <- Zle_Qle. change (2 ^ 40)%Z with 1099511627776%Z in Hs.
          lia. }
        lra. }
      lra. }
    split.
    + pose proof (Qfloor_resp_le (inject_Z (k - 1)) y) as HH.
      rewrite Qfloor_Z in HH. apply HH.
      unfold Z.sub. rewrite inject_Z_plus. change (inject_Z (- (1))) with (- (1)). lra.
    + apply Z.lt_succ_r. rewrite Zlt_Qlt.
      eapply Qle_lt_trans; [apply Qfloor_le |].
      unfold Z.succ. rewrite inject_Z_plus. change (inject_Z 1) with 1. lra.
Qed.
End FloatFacts.

(** On every weight of a position of sum 180 or 216, [round64] computes
    the value the Standard Library's binary64 operations compute. *)
Lemma round64_agrees_with_binary64 :
  forallb (fun s =>
    forallb (fun w => Qeq_bool (binary64_value (binary64_scaled_share s w))
                        (round64_scaled_share s w))
      (map Z.of_nat (seq 1 (Z.to_nat s))))
    [180; 216] = true.
Proof. vm_compute. reflexivity. Qed.

(** ** Loops that may raise *)

Lemma bind_Some {A B : Type} (x : option A) (f : A -> option B) (b : B) :
  bind x f = Some b <-> exists a, x = Some a /\ f a = Some b.
Proof.
  destruct x as [a |]; cbn [bind]; split.
  - intros H. exists a. auto.
  - intros [a' [[= <-] H]]. exact H.
  - discriminate.
  - intros [a' [[=] _]].
Qed.

Lemma mapM_Forall2 {A B : Type} (f : A -> option B) (l : list A) (l' : list B) :
  mapM f l = Some l' <-> Forall2 (fun x y => f x = Some y) l l'.
Proof.
  revert l'. induction l as [| x l IH]; intros l'; cbn [mapM].
  - split.
    + intros [= <-]. constructor.
    + intros H. inversion H. reflexivity.
  - split.
    + intros H. apply bind_Some in H as [y [Hy H]].
      apply bind_Some in H as [ys [Hys [= <-]]].
      constructor; [exact Hy | apply IH, Hys].
    + intros H. inversion H as [| x' y l1 ys Hy Hys]; subst.
      rewrite Hy. cbn [bind].
      apply IH in Hys. rewrite Hys. reflexivity.
Qed.

Lemma Forall2_In_l {A B : Type} (R : A -> B -> Prop) (l : list A) (l' : list B)
    (x : A) :
  Forall2 R l l' -> In x l -> exists y, In y l' /\ R x y.
Proof.
  induction 1 as [| a b l l' Hab _ IH]; intros Hin.
  - destruct Hin.
  - destruct Hin as [<- | Hin].
    + exists b. split; [left; reflexivity | exact Hab].
    + destruct (IH Hin) as [y [Hy HR]]. exists y. split; [right |]; assumption.
Qed.

Lemma Forall2_In_r {A B : Type} (R : A -> B -> Prop) (l : list A) (l' : list B)
    (y : B) :
  Forall2 R l l' -> In y l' -> exists x, In x l /\ R x y.
Proof.
  induction 1 as [| a b l l' Hab _ IH]; intros Hin.
  - destruct Hin.
  - destruct Hin as [<- | Hin].
    + exists a. split; [left; reflexivity | exact Hab].
    + destruct (IH Hin) as [x [Hx HR]]. exists x. split; [right |]; assumption.
Qed.

(** ** Big-endian bytes *)

Lemma from_bytes_fold (bs : list Z) (acc : Z) :
  fold_left (fun acc b => acc * 256 + b) bs acc
  = acc * 256 ^ Z.of_nat (List.length bs) + be_value bs.
Proof.
  revert acc. induction bs as [| b bs IH]; intros acc.
  - cbn. lia.
  - cbn [fold_left be_value List.length]. rewrite IH.
    rewrite Nat2Z.inj_succ, Z.pow_succ_r by lia. ring.
Qed.

Lemma from_bytes_be_value (bs : list Z) : from_bytes bs = be_value bs.
Proof. unfold from_bytes. rewrite from_bytes_fold. lia. Qed.

Lemma be_bytes_length (n : nat) (v : Z) : List.length (be_bytes n v) = n.
Proof. induction n; cbn [be_bytes List.length]; congruence. Qed.

Lemma be_bytes_are_bytes (n : nat) (v : Z) : Forall is_byte (be_bytes n v).
Proof.
  induction n; cbn [be_bytes]; constructor; [| assumption].
  unfold is_byte. apply Z.mod_pos_bound. lia.
Qed.

Lemma be_value_be_bytes (n : nat) (v : Z) :
  be_value (be_bytes n v) = v mod 256 ^ Z.of_nat n.
Proof.
  induction n as [| n IH].
  - cbn. rewrite Z.mod_1_r. reflexivity.
  - cbn [be_bytes be_value]. rewrite be_bytes_length, IH.
    rewrite Nat2Z.inj_succ, Z.pow_succ_r by lia.
    rewrite (Z.mul_comm 256), Z.rem_mul_r by lia. lia.
Qed.

Lemma from_bytes_be_bytes (n : nat) (v : Z) :
  0 <= v < 256 ^ Z.of_nat n -> from_bytes (be_bytes n v) = v.
Proof.
  intros Hv. rewrite from_bytes_be_value, be_value_be_bytes.
  apply Z.mod_small, Hv.
Qed.

Lemma be_value_bound (bs : list Z) :
  Forall is_byte bs -> 0 <= be_value bs < 256 ^ Z.of_nat (List.length bs).
Proof.
  induction 1 as [| b bs Hb _ IH]; cbn [be_value List.length].
  - cbn. lia.
  - rewrite Nat2Z.inj_succ, Z.pow_succ_r by lia.
    unfold is_byte in Hb. nia.
Qed.

(** On byte strings of one length the lexicographic order is the numeric
    order of the big-endian values. *)
Lemma bytes_compare_numeric (a b : list Z) :
  List.length a = List.length b -> Forall is_byte a -> Forall is_byte b ->
  bytes_compare a b = (from_bytes a ?= from_bytes b).
Proof.
  rewrite !from_bytes_be_value.
  revert b. induction a as [| x a IH]; intros [| y b] Hlen Ha Hb;
    try discriminate Hlen.
  - reflexivity.
  - cbn [bytes_compare be_value].
    injection Hlen as Hlen. rewrite Hlen.
    inversion Ha as [| ? ? Hx Ha']; inversion Hb as [| ? ? Hy Hb']; subst.
    pose proof (be_value_bound a Ha') as Hva.
    pose proof (be_value_bound b Hb') as Hvb.
    rewrite Hlen in Hva.
    set (P := 256 ^ Z.of_nat (List.length b)) in *.
    destruct (Z.compare_spec x y) as [-> | Hlt | Hgt].
    + rewrite (IH b Hlen Ha' Hb'). symmetry. apply Z.add_compare_mono_l.
    + symmetry. apply Z.compare_lt_iff. nia.
    + symmetry. apply Z.compare_gt_iff. nia.
Qed.

Lemma bytes_compare_antisym (a b : list Z) :
  bytes_compare b a = CompOpp (bytes_compare a b).
Proof.
  revert b. induction a as [| x a IH]; intros [| y b]; cbn [bytes_compare];
    try reflexivity.
  rewrite (Z.compare_antisym x y).
  destruct (x ?= y); cbn [CompOpp]; [apply IH | reflexivity | reflexivity].
Qed.

(** ** The fields of an entry *)

Lemma make_entry_slices (key mi w : Z) :
  slice 0 8 (make_entry key mi w) = be_bytes 8 key
  /\ slice 8 10 (make_entry key mi w) = be_bytes 2 mi
  /\ slice 10 12 (make_entry key mi w) = be_bytes 2 w
  /\ slice 12 16 (make_entry key mi w) = be_bytes 4 0.
Proof. repeat split; reflexivity. Qed.

Lemma entry_hash_make_entry (key mi w : Z) :
  valid_key key -> entry_hash (make_entry key mi w) = key.
Proof.
  intros Hk. unfold entry_hash.
  rewrite (proj1 (make_entry_slices key mi w)).
  apply from_bytes_be_bytes. exact Hk.
Qed.

Lemma entry_move_make_entry (key mi w : Z) :
  0 <= mi < 2 ^ 16 -> entry_move (make_entry key mi w) = mi.
Proof.
  intros Hm. unfold entry_move.
  rewrite (proj1 (proj2 (make_entry_slices key mi w))).
  apply from_bytes_be_bytes. exact Hm.
Qed.

Lemma entry_weight_make_entry (key mi w : Z) :
  0 <= w < 2 ^ 16 -> entry_weight (make_entry key mi w) = w.
Proof.
  intros Hw. unfold entry_weight.
  rewrite (proj1 (proj2 (proj2 (make_entry_slices key mi w)))).
  apply from_bytes_be_bytes. exact Hw.
Qed.

(** ** The stable sort *)

Lemma entry_le_total (e1 e2 : Entry) :
  entry_le e1 e2 = false -> entry_le e2 e1 = true.
Proof.
  unfold entry_le, key_compare.
  rewrite (bytes_compare_antisym (fst (sort_key e1)) (fst (sort_key e2))).
  rewrite (bytes_compare_antisym (snd (sort_key e1)) (snd (sort_key e2))).
  destruct (bytes_compare (fst (sort_key e1)) (fst (sort_key e2)));
    cbn [CompOpp]; try (intros; reflexivity || discriminate).
  destruct (bytes_compare (snd (sort_key e1)) (snd (sort_key e2)));
    cbn [CompOpp]; intros; reflexivity || discriminate.
Qed.

Lemma insert_entry_perm (e : Entry) (l : list Entry) :
  Permutation (insert_entry e l) (e :: l).
Proof.
  induction l as [| e' l IH]; cbn [insert_entry].
  - apply Permutation_refl.
  - destruct (entry_le e e').
    + apply Permutation_refl.
    + eapply Permutation_trans; [apply perm_skip, IH | apply perm_swap].
Qed.

Lemma sort_entries_perm (l : list Entry) : Permutation (sort_entries l) l.
Proof.
  induction l as [| e l IH]; cbn [sort_entries fold_right].
  - apply Permutation_refl.
  - eapply Permutation_trans; [apply insert_entry_perm | apply perm_skip, IH].
Qed.

Lemma sort_entries_In (l : list Entry) (e : Entry) :
  In e (sort_entries l) <-> In e l.
Proof.
  split; apply Permutation_in;
    [apply sort_entries_perm | apply Permutation_sym, sort_entries_perm].
Qed.

Lemma insert_entry_HdRel (a e : Entry) (l : list Entry) :
  entry_ordered a e -> HdRel entry_ordered a l ->
  HdRel entry_ordered a (insert_entry e l).
Proof.
  intros Hae Hal. destruct l as [| e' l]; cbn [insert_entry].
  - constructor. exact Hae.
  - destruct (entry_le e e'); constructor; [exact Hae |].
    inversion Hal. assumption.
Qed.

Lemma insert_entry_sorted (e : Entry) (l : list Entry) :
  Sorted entry_ordered l -> Sorted entry_ordered (insert_entry e l).
Proof.
  induction 1 as [| e' l Hs IH Hhd]; cbn [insert_entry].
  - repeat constructor.
  - destruct (entry_le e e') eqn:Hle.
    + constructor; [constructor; assumption | constructor; exact Hle].
    + constructor; [exact IH |].
      apply insert_entry_HdRel; [apply entry_le_total, Hle | exact Hhd].
Qed.

Lemma sort_entries_sorted (l : list Entry) :
  Sorted entry_ordered (sort_entries l).
Proof.
  induction l as [| e l IH]; cbn [sort_entries fold_right].
  - constructor.
  - apply insert_entry_sorted, IH.
Qed.

Lemma Sorted_adjacent {A : Type} (R : A -> A -> Prop) (l : list A)
    (i : nat) (a b : A) :
  Sorted R l -> nth_error l i = Some a -> nth_error l (S i) = Some b -> R a b.
Proof.
  intros Hs. revert i. induction Hs as [| x l Hs IH Hhd]; intros i Ha Hb.
  - destruct i; discriminate Ha.
  - destruct i as [| i].
    + cbn in Ha, Hb. injection Ha as <-.
      destruct l as [| y l]; [discriminate Hb |].
      cbn in Hb. injection Hb as <-. inversion Hhd. assumption.
    + cbn in Ha. change (nth_error l (S i) = Some b) in Hb. eauto.
Qed.

(** The order the encoder sorts by, read on the decoded fields. *)
Lemma entry_le_make_entry (k1 m1 w1 k2 m2 w2 : Z) :
  valid_key k1 -> valid_key k2 -> 0 <= w1 < 2 ^ 16 -> 0 <= w2 < 2 ^ 16 ->
  entry_le (make_entry k1 m1 w1) (make_entry k2 m2 w2) = true ->
  k1 < k2 \/ (k1 = k2 /\ w1 <= w2).
Proof.
  intros Hk1 Hk2 Hw1 Hw2. unfold entry_le, key_compare, sort_key.
  cbn [fst snd].
  rewrite !(proj1 (make_entry_slices _ _ _)).
  rewrite !(proj1 (proj2 (proj2 (make_entry_slices _ _ _)))).
  rewrite (bytes_compare_numeric (be_bytes 8 k1) (be_bytes 8 k2))
    by (rewrite ?be_bytes_length; auto using be_bytes_are_bytes).
  rewrite (bytes_compare_numeric (be_bytes 2 w1) (be_bytes 2 w2))
    by (rewrite ?be_bytes_length; auto using be_bytes_are_bytes).
  rewrite !from_bytes_be_bytes by assumption.
  destruct (Z.compare_spec k1 k2) as [-> | Hlt | Hgt].
  - destruct (Z.compare_spec w1 w2) as [Hw | Hw | Hw]; intros Hle;
      try discriminate Hle; right; split; lia.
  - intros _. left. exact Hlt.
  - discriminate.
Qed.

(** ** What the encoder collects *)

Lemma to_bytes_Some (n : nat) (v : Z) (bs : list Z) :
  to_bytes n v = Some bs <-> 0 <= v < 256 ^ Z.of_nat n /\ bs = be_bytes n v.
Proof.
  unfold to_bytes.
  destruct (0 <=? v) eqn:H0; destruct (v <? 256 ^ Z.of_nat n) eqn:H1;
    cbn [andb]; split;
    try discriminate;
    try (intros [= <-]; split; [lia | reflexivity]);
    try (intros [Hv ->]; try reflexivity; lia).
Qed.

Lemma capped_weight_fits (w : Z) :
  0 < w -> 0 <= Z.min MAX_BOOK_WEIGHT w < 2 ^ 16.
Proof. unfold MAX_BOOK_WEIGHT. lia. Qed.

Lemma move_entries_spec (key : Z) (ubm : string * BookMove) (r : list Entry) :
  move_entries (be_bytes 8 key) ubm = Some r <->
  (emitted ubm = true ->
   forall m, move (snd ubm) = Some m -> 0 <= move_int m < 2 ^ 16)
  /\ r = map (entry_of key) (filter emitted [ubm]).
Proof.
  unfold move_entries, emitted. cbn [filter].
  destruct (move (snd ubm)) as [m |] eqn:Hm.
  2:{ rewrite andb_false_r. cbn [map]. split.
      - intros [= <-]. split; [discriminate | reflexivity].
      - intros [_ ->]. reflexivity. }
  rewrite andb_true_r.
  destruct (Z.leb_spec (weight (snd ubm)) 0) as [Hw | Hw].
  - assert ((0 <? weight (snd ubm)) = false) as -> by (apply Z.ltb_ge; lia).
    cbn [map]. split.
    + intros [= <-]. split; [discriminate | reflexivity].
    + intros [_ ->]. reflexivity.
  - assert ((0 <? weight (snd ubm)) = true) as -> by (apply Z.ltb_lt; lia).
    cbn [map]. unfold entry_of. rewrite Hm.
    assert (to_bytes 2 (Z.min MAX_BOOK_WEIGHT (weight (snd ubm)))
            = Some (be_bytes 2 (Z.min MAX_BOOK_WEIGHT (weight (snd ubm)))))
      as Hwb.
    { apply to_bytes_Some. split; [| reflexivity].
      apply capped_weight_fits, Hw. }
    assert (to_bytes 4 0 = Some (be_bytes 4 0)) as Hlb by reflexivity.
    split.
    + intros H. apply bind_Some in H as [mb [Hmb H]].
      apply to_bytes_Some in Hmb as [Hrange ->].
      rewrite Hwb, Hlb in H. cbn [bind] in H. injection H as <-.
      split; [| reflexivity].
      intros _ m' [= <-]. exact Hrange.
    + intros [Hrange ->].
      specialize (Hrange eq_refl m eq_refl).
      assert (to_bytes 2 (move_int m) = Some (be_bytes 2 (move_int m))) as ->.
      { apply to_bytes_Some. split; [exact Hrange | reflexivity]. }
      rewrite Hwb, Hlb. reflexivity.
Qed.

Lemma position_moves_spec (key : Z) (pos : BookPosition) (r : list Entry) :
  concat_mapM (move_entries (be_bytes 8 key)) pos = Some r <->
  Forall (fun ubm => emitted ubm = true ->
            forall m, move (snd ubm) = Some m -> 0 <= move_int m < 2 ^ 16) pos
  /\ r = map (entry_of key) (filter emitted pos).
Proof.
  revert r. induction pos as [| ubm pos IH]; intros r; cbn [concat_mapM].
  - split.
    + intros [= <-]. split; [constructor | reflexivity].
    + intros [_ ->]. reflexivity.
  - split.
    + intros H. apply bind_Some in H as [ys [Hys H]].
      apply bind_Some in H as [zs [Hzs [= <-]]].
      apply move_entries_spec in Hys as [Hr ->].
      apply IH in Hzs as [Hall ->].
      split; [constructor; assumption |].
      cbn [filter]. destruct (emitted ubm); reflexivity.
    + intros [Hall ->]. inversion Hall as [| ? ? Hr Hall']; subst.
      assert (move_entries (be_bytes 8 key) ubm
              = Some (map (entry_of key) (filter emitted [ubm]))) as ->.
      { apply move_entries_spec. split; [exact Hr | reflexivity]. }
      assert (concat_mapM (move_entries (be_bytes 8 key)) pos
              = Some (map (entry_of key) (filter emitted pos))) as ->.
      { apply IH. split; [exact Hall' | reflexivity]. }
      cbn [bind filter]. destruct (emitted ubm); reflexivity.
Qed.

Lemma collect_entries_spec (b : Book) (es : list Entry) :
  collect_entries b = Some es <-> encodable b /\ es = expected_entries b.
Proof.
  unfold collect_entries, encodable, expected_entries.
  revert es. induction b as [| [key pos] b IH]; intros es;
    cbn [concat_mapM flat_map].
  - split.
    + intros [= <-]. split; [constructor | reflexivity].
    + intros [_ ->]. reflexivity.
  - unfold position_entries at 1. cbn [fst snd]. split.
    + intros H. apply bind_Some in H as [ys [Hys H]].
      apply bind_Some in H as [zs [Hzs [= <-]]].
      apply bind_Some in Hys as [zb [Hzb Hys]].
      apply to_bytes_Some in Hzb as [Hkey ->].
      apply position_moves_spec in Hys as [Hall ->].
      apply IH in Hzs as [Hb ->].
      split; [| reflexivity].
      constructor; [split; assumption | exact Hb].
    + intros [Hall ->]. inversion Hall as [| ? ? [Hkey Hpos] Hall']; subst.
      cbn [fst snd] in *.
      unfold key_bytes.
      assert (to_bytes 8 key = Some (be_bytes 8 key)) as ->.
      { apply to_bytes_Some. split; [exact Hkey | reflexivity]. }
      cbn [bind].
      assert (concat_mapM (move_entries (be_bytes 8 key)) pos
              = Some (map (entry_of key) (filter emitted pos))) as ->.
      { apply position_moves_spec. split; [exact Hpos | reflexivity]. }
      cbn [bind].
      assert (concat_mapM position_entries b
              = Some (flat_map
                        (fun kp => map (entry_of (fst kp))
                                     (filter emitted (snd kp))) b)) as ->.
      { apply IH. split; [exact Hall' | reflexivity]. }
      reflexivity.
Qed.

Lemma save_polyglot_spec (b : Book) (es : list Entry) :
  save_polyglot b = Some es <->
  encodable b /\ es = sort_entries (expected_entries b).
Proof.
  unfold save_polyglot. split.
  - intros H. apply bind_Some in H as [cs [Hcs [= <-]]].
    apply collect_entries_spec in Hcs as [Henc ->]. auto.
  - intros [Henc ->].
    assert (collect_entries b = Some (expected_entries b)) as ->.
    { apply collect_entries_spec. auto. }
    reflexivity.
Qed.

(** Membership in the collected entries. *)
Lemma In_expected_entries (b : Book) (e : Entry) :
  In e (expected_entries b) <->
  exists key pos ubm,
    In (key, pos) b /\ In ubm pos /\ emitted ubm = true /\ e = entry_of key ubm.
Proof.
  unfold expected_entries. rewrite in_flat_map. split.
  - intros [[key pos] [Hkp He]]. cbn [fst snd] in He.
    apply in_map_iff in He as [ubm [<- Hu]].
    apply filter_In in Hu as [Hu Hem].
    exists key, pos, ubm. auto.
  - intros [key [pos [ubm [Hkp [Hu [Hem ->]]]]]].
    exists (key, pos). split; [exact Hkp |]. cbn [fst snd].
    apply in_map. apply filter_In. auto.
Qed.

(** ** Dictionaries *)

Section DictFacts.
Context {K V : Type}.
Variable eqb : K -> K -> bool.
Hypothesis eqb_eq : forall a b, eqb a b = true <-> a = b.

Lemma dict_get_update_same (k : K) (dflt : V) (f : V -> V) (d : list (K * V)) :
  dict_get eqb k (dict_setdefault_update eqb k dflt f d)
  = Some (f (match dict_get eqb k d with Some v => v | None => dflt end)).
Proof.
  assert (eqb k k = true) as Hkk by (apply eqb_eq; reflexivity).
  induction d as [| [k' v] d IH]; cbn [dict_get dict_setdefault_update].
  - rewrite Hkk. reflexivity.
  - destruct (eqb k k') eqn:E; cbn [dict_get]; rewrite E.
    + reflexivity.
    + exact IH.
Qed.

Lemma dict_get_In (k : K) (v : V) (d : list (K * V)) :
  dict_get eqb k d = Some v -> In (k, v) d.
Proof.
  induction d as [| [k' v'] d IH]; cbn [dict_get]; [discriminate |].
  destruct (eqb k k') eqn:E.
  - intros [= <-]. apply eqb_eq in E as <-. left. reflexivity.
  - intros H. right. apply IH, H.
Qed.

Lemma dict_update_key_list (k : K) (dflt : V) (f : V -> V) (d : list (K * V)) :
  map fst (dict_setdefault_update eqb k dflt f d) = map fst d
  \/ (~ In k (map fst d)
      /\ map fst (dict_setdefault_update eqb k dflt f d) = map fst d ++ [k]).
Proof.
  induction d as [| [k' v] d IH]; cbn [dict_setdefault_update map fst].
  - right. split; [intros [] | reflexivity].
  - destruct (eqb k k') eqn:E; cbn [map fst].
    + left. reflexivity.
    + destruct IH as [IH | [Hnot IH]]; rewrite IH.
      * left. reflexivity.
      * right. split; [| reflexivity].
        intros [<- | Hin]; [| exact (Hnot Hin)].
        assert (eqb k' k' = true) as Hkk by (apply eqb_eq; reflexivity).
        congruence.
Qed.

Lemma dict_update_keys (k : K) (dflt : V) (f : V -> V) (d : list (K * V)) :
  NoDup (map fst d) -> NoDup (map fst (dict_setdefault_update eqb k dflt f d)).
Proof.
  intros Hnd.
  destruct (dict_update_key_list k dflt f d) as [-> | [Hnot ->]];
    [exact Hnd |].
  apply NoDup_rev in Hnd. apply (NoDup_cons k) in Hnd.
  - apply NoDup_rev in Hnd. cbn [rev] in Hnd. rewrite rev_involutive in Hnd.
    exact Hnd.
  - rewrite <- in_rev. exact Hnot.
Qed.

Lemma dict_update_Forall (P : K * V -> Prop) (k : K) (dflt : V) (f : V -> V)
    (d : list (K * V)) :
  Forall P d ->
  (forall v, P (k, v) -> P (k, f v)) ->
  P (k, f dflt) ->
  Forall P (dict_setdefault_update eqb k dflt f d).
Proof.
  intros Hd Hf Hnew.
  induction Hd as [| [k' v] d Hv Hd' IH]; cbn [dict_setdefault_update].
  - constructor; [exact Hnew | constructor].
  - destruct (eqb k k') eqn:E.
    + apply eqb_eq in E as <-. constructor; [apply Hf, Hv | assumption].
    + constructor; assumption.
Qed.
End DictFacts.

Lemma NoDup_keys_unique {K V : Type} (d : list (K * V)) (k : K) (v v' : V) :
  NoDup (map fst d) -> In (k, v) d -> In (k, v') d -> v = v'.
Proof.
  induction d as [| [k0 v0] d IH]; cbn [map fst]; intros Hnd Hv Hv'.
  - destruct Hv.
  - inversion Hnd as [| ? ? Hnot Hnd']; subst.
    destruct Hv as [Hv | Hv]; destruct Hv' as [Hv' | Hv'].
    + congruence.
    + exfalso. apply Hnot. injection Hv as -> _.
      apply (in_map fst) in Hv'. exact Hv'.
    + exfalso. apply Hnot. injection Hv' as -> _.
      apply (in_map fst) in Hv. exact Hv.
    + eauto.
Qed.

(** ** Ingestion keeps the book well formed *)

Lemma Z_eqb_iff (a b : Z) : Z.eqb a b = true <-> a = b.
Proof. apply Z.eqb_eq. Qed.

Lemma string_eqb_iff (a b : string) : String.eqb a b = true <-> a = b.
Proof. apply String.eqb_eq. Qed.

Lemma decay_pos (ply : Z) : 1 <= decay ply.
Proof. unfold decay. lia. Qed.

Lemma move_int_range (m : Move) : valid_move m -> 0 <= move_int m < 2 ^ 16.
Proof.
  intros [Hf Ht]. unfold valid_square in *. unfold move_int.
  rewrite Z.shiftl_mul_pow2 by lia.
  destruct (promotion m) as [p |].
  - rewrite Z.shiftl_mul_pow2 by lia.
    assert (1 <= piece_type_value p <= 6) by (destruct p; cbn; lia).
    lia.
  - lia.
Qed.

Section IngestFacts.
Variable increment : Scoring.
Hypothesis increment_nonneg : nonneg_scoring increment.

Lemma record_ply_ok (result : string) (ply : Z) (p : Ply) (st : Book * nat) :
  valid_ply p -> book_ok (fst st) ->
  book_ok (fst (record_ply increment result ply p st)).
Proof.
  intros [Hkey Hmove] [Hnd Hall]. destruct st as [book n].
  unfold record_ply.
  pose proof (increment_nonneg result (ply_turn p) (decay ply) n) as Hinc.
  destruct (increment result (ply_turn p) (decay ply) n) as [inc n'].
  cbn [fst snd] in *.
  specialize (Hinc ltac:(pose proof (decay_pos ply); lia)).
  split.
  - apply (dict_update_keys Z.eqb Z_eqb_iff). exact Hnd.
  - assert (forall pos, Forall move_ok pos ->
              Forall move_ok
                (dict_setdefault_update String.eqb (uci (ply_move p))
                   new_BookMove
                   (fun bm => mkBookMove (weight bm + inc)
                                (Some (ply_move p))) pos)) as Hpos.
    { intros pos Hp.
      apply (dict_update_Forall String.eqb string_eqb_iff); [exact Hp | |].
      - intros bm [Hw _]. split; cbn [fst snd weight move] in *; [lia |].
        exists (ply_move p). auto.
      - split; cbn [fst snd weight move new_BookMove]; [lia |].
        exists (ply_move p). auto. }
    apply (dict_update_Forall Z.eqb Z_eqb_iff); [exact Hall | |].
    + intros pos [_ Hp]. split; [exact Hkey | apply Hpos, Hp].
    + split; [exact Hkey | apply Hpos; constructor].
Qed.

Lemma play_from_ok (result : string) (moves : list Ply) :
  Forall valid_ply moves ->
  forall ply st, book_ok (fst st) ->
  book_ok (fst (play_from increment result ply moves st)).
Proof.
  induction 1 as [| p moves Hp _ IH]; intros ply st Hst; cbn [play_from].
  - exact Hst.
  - destruct (ply >=? MAX_PLY); [exact Hst |].
    apply IH. apply record_ply_ok; assumption.
Qed.

Lemma ingest_game_ok (g : Game) (st : Book * nat) :
  valid_game g -> book_ok (fst st) ->
  book_ok (fst (ingest_game increment g st)).
Proof.
  intros Hg Hst. unfold ingest_game.
  destruct (variant_matches g); [| exact Hst].
  apply play_from_ok; assumption.
Qed.

Lemma ingest_ok (games : list Game) :
  Forall valid_game games ->
  forall st, book_ok (fst st) -> book_ok (fst (ingest increment games st)).
Proof.
  unfold ingest.
  induction 1 as [| g games Hg _ IH]; intros st Hst; cbn [fold_left].
  - exact Hst.
  - apply IH. apply ingest_game_ok; assumption.
Qed.
End IngestFacts.

Lemma positions_ok_nonneg (b : Book) :
  Forall position_ok b ->
  Forall (fun kp => Forall (fun ubm => 0 <= weight (snd ubm)) (snd kp)) b.
Proof.
  intros Hb. eapply Forall_impl; [| exact Hb]. intros kp [_ Hp].
  eapply Forall_impl; [| exact Hp]. intros x [Hx _]. exact Hx.
Qed.

Lemma new_Book_ok : book_ok new_Book.
Proof. split; constructor. Qed.

(** The ply loop scores the plies below [MAX_PLY] and no other. *)
Lemma play_from_score (increment : Scoring) (result : string)
    (moves : list Ply) :
  forall ply st, 0 <= ply <= MAX_PLY ->
  play_from increment result ply moves st
  = fold_left (fun st ip => record_ply increment result (fst ip) (snd ip) st)
      (firstn (Z.to_nat (MAX_PLY - ply)) (enumerate_from ply moves)) st.
Proof.
  induction moves as [| p moves IH]; intros ply st Hply;
    cbn [play_from enumerate_from].
  - rewrite firstn_nil. reflexivity.
  - destruct (Z.geb_spec ply MAX_PLY) as [Hge | Hlt].
    + replace (MAX_PLY - ply) with 0 by lia. reflexivity.
    + replace (Z.to_nat (MAX_PLY - ply))
        with (S (Z.to_nat (MAX_PLY - (ply + 1)))) by lia.
      cbn [firstn fold_left fst snd]. apply IH. lia.
Qed.

(** ** Normalisation and jitter, move by move *)

Lemma weight_le_position_sum (pos : BookPosition) (ubm : string * BookMove) :
  Forall (fun ubm => 0 <= weight (snd ubm)) pos -> In ubm pos ->
  0 <= weight (snd ubm) <= position_sum pos.
Proof.
  induction 1 as [| x pos Hx Hpos IH]; intros Hin; [destruct Hin |].
  cbn [position_sum fold_right].
  assert (0 <= position_sum pos) as Hs.
  { clear IH Hin. induction Hpos as [| y pos Hy _ IH];
      cbn [position_sum fold_right]; [lia |].
    unfold position_sum in IH. lia. }
  unfold position_sum in *.
  destruct Hin as [<- | Hin]; [lia |]. specialize (IH Hin). lia.
Qed.

Lemma position_sum_zero (pos : BookPosition) :
  Forall (fun ubm => 0 <= weight (snd ubm)) pos -> position_sum pos <= 0 ->
  Forall (fun ubm => weight (snd ubm) = 0) pos.
Proof.
  intros Hpos Hs. apply Forall_forall. intros ubm Hin.
  pose proof (weight_le_position_sum pos ubm Hpos Hin). lia.
Qed.

Lemma rescale_at_least_1 (s w v : Z) : rescale s w = Some v -> 1 <= v.
Proof.
  unfold rescale. intros H.
  apply bind_Some in H as [x [_ H]].
  apply bind_Some in H as [y [_ [= <-]]]. lia.
Qed.

Lemma Forall2_same {A : Type} (R : A -> A -> Prop) (l : list A) :
  Forall (fun x => R x x) l -> Forall2 R l l.
Proof. induction 1; constructor; assumption. Qed.

Lemma Forall2_weaken_In {A B : Type} (R : A -> B -> Prop) (f : A -> option B)
    (l : list A) :
  (forall x, In x l -> exists y, f x = Some y /\ R x y) ->
  exists l', mapM f l = Some l' /\ Forall2 R l l'.
Proof.
  induction l as [| x l IH]; intros H.
  - exists []. split; [reflexivity | constructor].
  - destruct (H x (or_introl eq_refl)) as [y [Hy HR]].
    destruct IH as [l' [Hl' HF]]; [intros z Hz; apply H; right; exact Hz |].
    exists (y :: l'). split; [| constructor; assumption].
    cbn [mapM]. rewrite Hy, Hl'. reflexivity.
Qed.

Lemma normalize_position_related (pos : BookPosition) :
  Forall (fun ubm => 0 <= weight (snd ubm)) pos ->
  exists pos1, normalize_position pos = Some pos1
               /\ Forall2 (move_normalized (position_sum pos)) pos pos1.
Proof.
  intros Hpos. unfold normalize_position.
  destruct (Z.leb_spec (position_sum pos) 0) as [Hs | Hs].
  - exists pos. split; [reflexivity |].
    apply Forall2_same, Forall_forall. intros ubm _.
    unfold move_normalized.
    assert ((position_sum pos <=? 0) = true) as -> by (apply Z.leb_le; lia).
    auto.
  - apply Forall2_weaken_In. intros ubm Hin.
    pose proof (weight_le_position_sum pos ubm Hpos Hin) as Hw.
    destruct (rescale_total (position_sum pos) (weight (snd ubm)) Hw Hs)
      as [v [Hv _]].
    exists (fst ubm, mkBookMove v (move (snd ubm))).
    unfold rescale_move. rewrite Hv. split; [reflexivity |].
    unfold move_normalized. cbn [fst snd weight move].
    assert ((position_sum pos <=? 0) = false) as -> by (apply Z.leb_gt; lia).
    auto.
Qed.

Lemma normalize_related (b : Book) :
  Forall (fun kp => Forall (fun ubm => 0 <= weight (snd ubm)) (snd kp)) b ->
  exists b1, normalize b = Some b1 /\ Forall2 position_normalized b b1.
Proof.
  intros Hb. unfold normalize. apply Forall2_weaken_In.
  intros [key pos] Hin. cbn [fst snd].
  assert (Forall (fun ubm => 0 <= weight (snd ubm)) pos) as Hpos.
  { rewrite Forall_forall in Hb. apply (Hb (key, pos) Hin). }
  destruct (normalize_position_related pos Hpos) as [pos1 [H1 HF]].
  exists (key, pos1). rewrite H1. split; [reflexivity |].
  split; [reflexivity | exact HF].
Qed.

Section JitterFacts.
Variable rng : nat -> Z.

Lemma randint_range (a b : Z) (n : nat) :
  a <= b -> a <= fst (randint rng a b n) <= b.
Proof.
  intros Hab. unfold randint. cbn [fst].
  pose proof (Z.mod_pos_bound (rng n) (b - a + 1)). lia.
Qed.

Lemma jitter_position_related (s : Z) (pos pos1 : BookPosition) :
  Forall2 (move_normalized s) pos pos1 ->
  forall n, Forall2 (move_finished s) pos (fst (jitter_position rng pos1 n)).
Proof.
  induction 1 as [| ubm ubm1 pos pos1 [Hk [Hm Hw]] _ IH]; intros n;
    cbn [jitter_position].
  - constructor.
  - unfold jitter_move.
    pose proof (randint_range 0 3 n ltac:(lia)) as Hd.
    destruct (randint rng 0 3 n) as [d n1]. cbn [fst] in Hd.
    specialize (IH n1).
    destruct (jitter_position rng pos1 n1) as [pos2 n2]. cbn [fst] in *.
    constructor; [| exact IH].
    unfold move_finished. cbn [fst snd weight move].
    split; [exact Hk |]. split; [exact Hm |].
    exists (weight (snd ubm1)), d. auto.
Qed.

Lemma jitter_related (b b1 : Book) :
  Forall2 position_normalized b b1 ->
  forall n, Forall2 position_finished b (fst (jitter rng b1 n)).
Proof.
  induction 1 as [| [key pos] [key1 pos1] b b1 [Hk HF] _ IH]; intros n;
    cbn [jitter].
  - constructor.
  - cbn [fst snd] in Hk, HF.
    pose proof (jitter_position_related _ pos pos1 HF n) as Hp.
    destruct (jitter_position rng pos1 n) as [pos2 n1]. cbn [fst] in Hp.
    specialize (IH n1).
    destruct (jitter rng b1 n1) as [b2 n2]. cbn [fst] in *.
    constructor; [| exact IH].
    split; [exact Hk | exact Hp].
Qed.
End JitterFacts.

(** ** From a well-formed book to the encoded output *)

Lemma finished_moves_encodable (s : Z) (pos pos2 : BookPosition) :
  Forall2 (move_finished s) pos pos2 -> Forall move_ok pos ->
  Forall (fun ubm => emitted ubm = true ->
            forall m, move (snd ubm) = Some m -> 0 <= move_int m < 2 ^ 16) pos2.
Proof.
  induction 1 as [| ubm ubm2 pos pos2 [_ [Hm _]] _ IH]; intros Hpos.
  - constructor.
  - inversion Hpos as [| ? ? [_ [m [Hmv [_ Hvalid]]]] Hpos']; subst.
    constructor; [| apply IH, Hpos'].
    intros _ m' Hm'. rewrite Hm, Hmv in Hm'. injection Hm' as <-.
    apply move_int_range, Hvalid.
Qed.

Lemma finished_encodable (b b2 : Book) :
  Forall2 position_finished b b2 -> Forall position_ok b -> encodable b2.
Proof.
  unfold encodable.
  induction 1 as [| [key pos] [key2 pos2] b b2 [Hk Hp] _ IH]; intros Hb.
  - constructor.
  - inversion Hb as [| ? ? [Hkey Hpos] Hb']; subst. cbn [fst snd] in *.
    constructor; [| apply IH, Hb'].
    subst key2. split; [exact Hkey |].
    eapply finished_moves_encodable; eassumption.
Qed.

Lemma entry_of_fields (key : Z) (ubm : string * BookMove) (m : Move) :
  valid_key key -> move (snd ubm) = Some m -> 0 <= move_int m < 2 ^ 16 ->
  0 < weight (snd ubm) ->
  entry_hash (entry_of key ubm) = key
  /\ entry_move (entry_of key ubm) = move_int m
  /\ entry_weight (entry_of key ubm) = Z.min MAX_BOOK_WEIGHT (weight (snd ubm)).
Proof.
  intros Hk Hm Hr Hw. unfold entry_of. rewrite Hm.
  rewrite entry_hash_make_entry by exact Hk.
  rewrite entry_move_make_entry by exact Hr.
  rewrite entry_weight_make_entry by (apply capped_weight_fits, Hw).
  auto.
Qed.

Lemma emitted_true (ubm : string * BookMove) :
  emitted ubm = true <->
  0 < weight (snd ubm) /\ exists m, move (snd ubm) = Some m.
Proof.
  unfold emitted. rewrite andb_true_iff, Z.ltb_lt.
  destruct (move (snd ubm)) as [m |]; split.
  - intros [Hw _]. split; [exact Hw | exists m; reflexivity].
  - intros [Hw _]. auto.
  - intros [_ [=]].
  - intros [_ [m [=]]].
Qed.

(** A move of a position with positive sum reaches the output with a
    weight of at least 1. *)
Lemma finished_move_emitted (b b2 : Book) (key : Z) (pos : BookPosition)
    (ubm : string * BookMove) :
  Forall position_ok b -> Forall2 position_finished b b2 ->
  In (key, pos) b -> In ubm pos -> 0 < position_sum pos ->
  exists m e,
    move (snd ubm) = Some m /\ uci m = fst ubm
    /\ In e (expected_entries b2)
    /\ entry_hash e = key /\ entry_move e = move_int m
    /\ 1 <= entry_weight e <= MAX_BOOK_WEIGHT.
Proof.
  intros Hb HF Hkp Hu Hs.
  destruct (Forall2_In_l _ _ _ _ HF Hkp) as [[key2 pos2] [Hkp2 [Hk Hp]]].
  cbn [fst snd] in Hk, Hp. subst key2.
  destruct (Forall2_In_l _ _ _ _ Hp Hu) as [ubm2 [Hu2 [_ [Hm [w [d [Hw [Hd Hw2]]]]]]]].
  rewrite Forall_forall in Hb. destruct (Hb _ Hkp) as [Hkey Hpos].
  cbn [fst snd] in Hkey, Hpos.
  rewrite Forall_forall in Hpos.
  destruct (Hpos _ Hu) as [_ [m [Hmv [Huci Hvalid]]]].
  assert ((position_sum pos <=? 0) = false) as E by (apply Z.leb_gt; lia).
  rewrite E in Hw. apply rescale_at_least_1 in Hw.
  assert (1 <= weight (snd ubm2) <= MAX_BOOK_WEIGHT) as Hrange
    by (unfold MAX_BOOK_WEIGHT in *; lia).
  assert (move (snd ubm2) = Some m) as Hm2 by congruence.
  destruct (entry_of_fields key ubm2 m Hkey Hm2
              (move_int_range m Hvalid) ltac:(lia)) as [Eh [Em Ew]].
  exists m, (entry_of key ubm2).
  repeat split; try assumption.
  - apply In_expected_entries. exists key, pos2, ubm2.
    repeat split; try assumption.
    apply emitted_true. split; [lia | exists m; exact Hm2].
  - rewrite Ew. unfold MAX_BOOK_WEIGHT in *. lia.
  - rewrite Ew. unfold MAX_BOOK_WEIGHT in *. lia.
Qed.

(** A move of a position whose sum is not positive ends with its jitter
    draw as weight. *)
Lemma finished_degenerate (b b2 : Book) (key : Z) (pos : BookPosition)
    (e : Entry) :
  book_ok b -> Forall2 position_finished b b2 ->
  In (key, pos) b -> position_sum pos <= 0 ->
  In e (expected_entries b2) -> entry_hash e = key ->
  1 <= entry_weight e <= 3.
Proof.
  intros [Hnd Hb] HF Hkp Hs He Hh.
  apply In_expected_entries in He as [key2 [pos2 [ubm2 [Hkp2 [Hu2 [Hem ->]]]]]].
  destruct (Forall2_In_r _ _ _ _ HF Hkp2) as [[key0 pos0] [Hkp0 [Hk Hp]]].
  cbn [fst snd] in Hk, Hp. subst key2.
  destruct (Forall2_In_r _ _ _ _ Hp Hu2)
    as [ubm [Hu [_ [Hm [w [d [Hw [Hd Hw2]]]]]]]].
  rewrite Forall_forall in Hb. destruct (Hb _ Hkp0) as [Hkey Hpos].
  cbn [fst snd] in Hkey, Hpos.
  apply emitted_true in Hem as [Hpos2 [m Hm2]].
  assert (Forall (fun ubm => 0 <= weight (snd ubm)) pos0) as Hnn.
  { eapply Forall_impl; [| exact Hpos]. intros x [Hx _]. exact Hx. }
  assert (0 <= move_int m < 2 ^ 16) as Hmi.
  { rewrite Forall_forall in Hpos.
    destruct (Hpos _ Hu) as [_ [m' [Hmv [_ Hvalid]]]].
    assert (m' = m) as -> by congruence.
    apply move_int_range, Hvalid. }
  destruct (entry_of_fields key0 ubm2 m Hkey Hm2 Hmi Hpos2) as [Eh [_ Ew]].
  rewrite Eh in Hh. subst key0.
  assert (pos0 = pos) as -> by (eapply NoDup_keys_unique; eassumption).
  assert ((position_sum pos <=? 0) = true) as E by (apply Z.leb_le; lia).
  rewrite E in Hw.
  pose proof (position_sum_zero pos Hnn Hs) as Hzero.
  rewrite Forall_forall in Hzero. specialize (Hzero _ Hu).
  rewrite Ew. unfold MAX_BOOK_WEIGHT in *. lia.
Qed.

Section Pipeline.
Variable rng : nat -> Z.
Variable increment : Scoring.
Hypothesis increment_nonneg : nonneg_scoring increment.

(** The whole run never raises on decoded games, and its output is the
    sorted list of the entries of the finished book. *)
Lemma build_book_spec (games : list Game) (b : Book) (n : nat) :
  Forall valid_game games ->
  ingest increment games (new_Book, O) = (b, n) ->
  book_ok b
  /\ exists b2,
       Forall2 position_finished b b2
       /\ build_book rng increment games
          = Some (sort_entries (expected_entries b2)).
Proof.
  intros Hgames Hing.
  pose proof (ingest_ok increment increment_nonneg games Hgames
                (new_Book, O) new_Book_ok) as Hok.
  rewrite Hing in Hok. cbn [fst] in Hok.
  split; [exact Hok |].
  destruct Hok as [Hnd Hb].
  pose proof (positions_ok_nonneg b Hb) as Hnn.
  destruct (normalize_related b Hnn) as [b1 [Hn HF1]].
  pose proof (jitter_related rng b b1 HF1 n) as HF.
  exists (fst (jitter rng b1 n)). split; [exact HF |].
  unfold build_book. rewrite Hing, Hn. cbn [bind].
  apply save_polyglot_spec. split; [| reflexivity].
  apply (finished_encodable b); assumption.
Qed.

Lemma build_book_retains (games : list Game) (b : Book) (n : nat)
    (key : Z) (pos : BookPosition) (ubm : string * BookMove) :
  Forall valid_game games ->
  ingest increment games (new_Book, O) = (b, n) ->
  In (key, pos) b -> In ubm pos -> 0 < position_sum pos ->
  exists es m e,
    build_book rng increment games = Some es
    /\ move (snd ubm) = Some m /\ uci m = fst ubm
    /\ In e es
    /\ entry_hash e = key /\ entry_move e = move_int m
    /\ 1 <= entry_weight e <= MAX_BOOK_WEIGHT.
Proof.
  intros Hgames Hing Hkp Hu Hs.
  destruct (build_book_spec games b n Hgames Hing) as [[_ Hb] [b2 [HF Hbuild]]].
  destruct (finished_move_emitted b b2 key pos ubm Hb HF Hkp Hu Hs)
    as [m [e [Hm [Huci [He [Eh [Em Ew]]]]]]].
  exists (sort_entries (expected_entries b2)), m, e.
  repeat split; try assumption.
  - apply sort_entries_In, He.
  - apply Ew.
  - apply Ew.
Qed.
End Pipeline.

Lemma balanced_increment_nonneg : nonneg_scoring balanced_increment.
Proof.
  intros result turn d n Hd. unfold balanced_increment.
  destruct (String.eqb result "1-0");
    [destruct (color_eqb turn WHITE); cbn [fst]; lia |].
  destruct (String.eqb result "0-1");
    [destruct (color_eqb turn BLACK); cbn [fst]; lia |].
  destruct (String.eqb result "1/2-1/2"); cbn [fst]; lia.
Qed.

Lemma win_only_increment_nonneg (rng : nat -> Z) :
  nonneg_scoring (win_only_increment rng).
Proof.
  intros result turn d n Hd. unfold win_only_increment.
  destruct (_ || _); [| cbn [fst]; lia].
  pose proof (randint_range rng 4 6 n ltac:(lia)) as Hr.
  destruct (randint rng 4 6 n) as [r n']. cbn [fst] in *. nia.
Qed.

Lemma book_lookup_In (key : Z) (u : string) (b : Book) (bm : BookMove) :
  book_lookup key u b = Some bm ->
  exists pos, In (key, pos) b /\ In (u, bm) pos.
Proof.
  unfold book_lookup, lookup_position, lookup_move. intros H.
  apply bind_Some in H as [pos [Hpos Hbm]].
  exists pos. split.
  - apply (dict_get_In Z.eqb Z_eqb_iff), Hpos.
  - apply (dict_get_In String.eqb string_eqb_iff), Hbm.
Qed.

(** ** Shape of the entries of any book that encodes *)

Lemma expected_entry_shape (b : Book) (e : Entry) :
  encodable b -> In e (expected_entries b) ->
  exists key pos ubm m,
    In (key, pos) b /\ In ubm pos /\ move (snd ubm) = Some m
    /\ 0 < weight (snd ubm) /\ valid_key key /\ 0 <= move_int m < 2 ^ 16
    /\ e = make_entry key (move_int m)
             (Z.min MAX_BOOK_WEIGHT (weight (snd ubm))).
Proof.
  intros Henc He.
  apply In_expected_entries in He as [key [pos [ubm [Hkp [Hu [Hem ->]]]]]].
  unfold encodable in Henc. rewrite Forall_forall in Henc.
  destruct (Henc _ Hkp) as [Hkey Hpos]. cbn [fst snd] in Hkey, Hpos.
  rewrite Forall_forall in Hpos. specialize (Hpos _ Hu Hem).
  apply emitted_true in Hem as [Hw [m Hm]].
  exists key, pos, ubm, m.
  split; [exact Hkp |]. split; [exact Hu |]. split; [exact Hm |].
  split; [exact Hw |]. split; [exact Hkey |]. split; [exact (Hpos m Hm) |].
  unfold entry_of. rewrite Hm. reflexivity.
Qed.

Lemma expected_entries_length (b : Book) :
  List.length (expected_entries b)
  = List.length (filter emitted (List.concat (map snd b))).
Proof.
  unfold expected_entries.
  induction b as [| [key pos] b IH]; cbn [flat_map map List.concat snd fst].
  - reflexivity.
  - rewrite filter_app, !length_app, length_map, IH. reflexivity.
Qed.

Lemma Forall2_impl_In {A B : Type} (R R' : A -> B -> Prop) (l : list A)
    (l' : list B) :
  Forall2 R l l' ->
  (forall x y, In x l -> In y l' -> R x y -> R' x y) ->
  Forall2 R' l l'.
Proof.
  induction 1 as [| x y l l' Hxy _ IH]; intros Himp.
  - constructor.
  - constructor.
    + apply Himp; [left; reflexivity | left; reflexivity | exact Hxy].
    + apply IH. intros a c Ha Hc. apply Himp; right; assumption.
Qed.

(** After the jitter, the moves of a position whose sum is not positive
    carry their draws, and the encoder keeps those with a positive one. *)
Lemma finished_degenerate_moves (b b2 : Book) (key : Z) (pos : BookPosition) :
  Forall position_ok b -> Forall2 position_finished b b2 ->
  In (key, pos) b -> position_sum pos <= 0 ->
  exists pos2,
    In (key, pos2) b2
    /\ jittered_from_zero key (expected_entries b2) pos pos2.
Proof.
  intros Hb HF Hkp Hs.
  pose proof (finished_encodable b b2 HF Hb) as Henc.
  destruct (Forall2_In_l _ _ _ _ HF Hkp) as [[key2 pos2] [Hkp2 [Hk Hp]]].
  cbn [fst snd] in Hk, Hp. subst key2.
  exists pos2. split; [exact Hkp2 |].
  rewrite Forall_forall in Hb. destruct (Hb _ Hkp) as [Hkey Hpos].
  cbn [fst snd] in Hkey, Hpos.
  assert (Forall (fun ubm => weight (snd ubm) = 0) pos) as Hzero.
  { apply position_sum_zero; [| exact Hs].
    eapply Forall_impl; [| exact Hpos]. intros x [Hx _]. exact Hx. }
  rewrite Forall_forall in Hpos, Hzero.
  assert ((position_sum pos <=? 0) = true) as E by (apply Z.leb_le; lia).
  unfold jittered_from_zero.
  apply (Forall2_impl_In _ _ _ _ Hp).
  intros ubm ubm2 Hu Hu2 [Hk [Hm [w [d [Hw [Hd Hw2]]]]]].
  rewrite E in Hw. rewrite (Hzero _ Hu) in Hw. subst w.
  destruct (Hpos _ Hu) as [_ [m [Hmv _]]].
  assert (0 <= weight (snd ubm2) <= 3) as Hrange
    by (unfold MAX_BOOK_WEIGHT in Hw2; lia).
  split; [exact Hk |]. split; [exact Hm |]. split; [exact Hrange |].
  split.
  - intros He.
    destruct (expected_entry_shape b2 _ Henc He)
      as [k' [? [ubm' [m' [_ [_ [_ [Hw' [_ [_ Heq]]]]]]]]]].
    apply (f_equal entry_weight) in Heq. unfold entry_of in Heq.
    rewrite !entry_weight_make_entry in Heq
      by (unfold MAX_BOOK_WEIGHT; lia).
    unfold MAX_BOOK_WEIGHT in Heq. lia.
  - intros Hw. apply In_expected_entries. exists key, pos2, ubm2.
    repeat split; try assumption.
    apply emitted_true. split; [exact Hw |]. exists m. congruence.
Qed.

(** ** The move field, bit by bit *)

Lemma move_int_bits (m : Move) :
  valid_move m ->
  Z.land (move_int m) 63 = to_square m
  /\ Z.land (Z.shiftr (move_int m) 6) 63 = from_square m
  /\ Z.testbit (move_int m) 15 = false
  /\ forall c, polyglot_promotion_code (promotion m) = Some c ->
               Z.land (Z.shiftr (move_int m) 12) 7 = c.
Proof.
  intros [Hf Ht]. unfold valid_square in *.
  assert (exists c, 0 <= c <= 5
            /\ move_int m = to_square m + from_square m * 64 + c * 4096
            /\ forall c', polyglot_promotion_code (promotion m) = Some c' ->
                          c' = c) as [c [Hc [Hmi Hcode]]].
  { unfold move_int. rewrite Z.shiftl_mul_pow2 by lia.
    destruct (promotion m) as [p |].
    - exists (piece_type_value p - 1).
      rewrite Z.shiftl_mul_pow2 by lia.
      split; [destruct p; cbn; lia |]. split; [reflexivity |].
      destruct p; cbn; intros c' [= <-]; reflexivity.
    - exists 0. split; [lia |]. split; [lia |].
      cbn. intros c' [= <-]. reflexivity. }
  rewrite Hmi.
  change 63 with (Z.ones 6). change 7 with (Z.ones 3).
  rewrite !Z.land_ones, !Z.shiftr_div_pow2 by lia.
  change (2 ^ 6) with 64. change (2 ^ 3) with 8. change (2 ^ 12) with 4096.
  repeat split.
  - replace (to_square m + from_square m * 64 + c * 4096)
      with (to_square m + (from_square m + c * 64) * 64) by ring.
    rewrite Z.mod_add by lia. apply Z.mod_small. lia.
  - replace (to_square m + from_square m * 64 + c * 4096)
      with (to_square m + (from_square m + c * 64) * 64) by ring.
    rewrite Z.div_add by lia. rewrite (Z.div_small (to_square m)) by lia.
    cbn [Z.add]. rewrite Z.mod_add by lia. apply Z.mod_small. lia.
  - apply Z.testbit_false; [lia |].
    rewrite Z.div_small by (change (2 ^ 15) with 32768; lia). reflexivity.
  - intros c' Hc'. rewrite (Hcode c' Hc').
    replace (to_square m + from_square m * 64 + c * 4096)
      with ((to_square m + from_square m * 64) + c * 4096) by ring.
    rewrite Z.div_add by lia.
    rewrite (Z.div_small (to_square m + from_square m * 64)) by lia.
    cbn [Z.add]. apply Z.mod_small. lia.
Qed.

(** ** Weights around one ply *)

Lemma record_ply_lookup (increment : Scoring) (result : string) (ply : Z)
    (p : Ply) (b : Book) (n : nat) :
  book_lookup (ply_key p) (uci (ply_move p))
    (fst (record_ply increment result ply p (b, n)))
  = Some (mkBookMove
            (book_weight (ply_key p) (uci (ply_move p)) b
             + fst (increment result (ply_turn p) (decay ply) n))
            (Some (ply_move p))).
Proof.
  unfold record_ply, get_position, get_move.
  destruct (increment result (ply_turn p) (decay ply) n) as [inc n'].
  cbn [fst]. unfold book_weight, book_lookup, lookup_position, lookup_move.
  rewrite (dict_get_update_same Z.eqb Z_eqb_iff). cbn [bind].
  rewrite (dict_get_update_same String.eqb string_eqb_iff).
  destruct (dict_get Z.eqb (ply_key p) b) as [pos |]; cbn [bind].
  - destruct (dict_get String.eqb (uci (ply_move p)) pos); reflexivity.
  - reflexivity.
Qed.

Lemma record_ply_weight (increment : Scoring) (result : string) (ply : Z)
    (p : Ply) (b : Book) (n : nat) :
  book_weight (ply_key p) (uci (ply_move p))
    (fst (record_ply increment result ply p (b, n)))
  = book_weight (ply_key p) (uci (ply_move p)) b
    + fst (increment result (ply_turn p) (decay ply) n).
Proof.
  unfold book_weight at 1. rewrite record_ply_lookup. reflexivity.
Qed.

Lemma enumerate_from_firstn (k : nat) (moves : list Ply) :
  forall i, firstn k (enumerate_from i moves) = enumerate_from i (firstn k moves).
Proof.
  revert k. induction moves as [| p moves IH]; intros [| k] i;
    cbn [firstn enumerate_from]; try reflexivity.
  rewrite IH. reflexivity.
Qed.

(** ** Where the jitter pass finds a position and what it draws for it *)

Lemma jitter_counter (rng : nat -> Z) (b : Book) (n : nat) :
  snd (jitter rng b n) = (n + List.length (book_moves b))%nat.
Proof.
  unfold book_moves. revert n.
  induction b as [| [key pos] b IH]; intros n; cbn [jitter map List.concat snd].
  - cbn. lia.
  - assert (snd (jitter_position rng pos n) = (n + List.length pos)%nat) as Hp.
    { clear IH. revert n. induction pos as [| ubm pos IHp]; intros n;
        cbn [jitter_position]; [cbn; lia |].
      unfold jitter_move, randint. specialize (IHp (S n)).
      destruct (jitter_position rng pos (S n)) as [pos' n'].
      cbn [fst snd List.length] in *. lia. }
    destruct (jitter_position rng pos n) as [pos' n1]. cbn [snd] in Hp.
    specialize (IH n1). destruct (jitter rng b n1) as [b' n2].
    cbn [snd] in *. rewrite length_app. lia.
Qed.

(** The jitter pass reaches a position after one draw for every move of
    the positions before it. *)
Lemma jitter_split (rng : nat -> Z) (front back : Book) (key : Z)
    (pos : BookPosition) (n : nat) :
  fst (jitter rng (front ++ (key, pos) :: back) n)
  = fst (jitter rng front n)
    ++ (key,
        fst (jitter_position rng pos (n + List.length (book_moves front))))
    :: fst (jitter rng back
              (n + List.length (book_moves front) + List.length pos)).
Proof.
  revert n. induction front as [| [key0 pos0] front IH]; intros n.
  - cbn [app jitter book_moves map List.concat List.length fst].
    rewrite Nat.add_0_r.
    pose proof (jitter_counter rng [(key, pos)] n) as Hc.
    cbn [jitter] in Hc.
    destruct (jitter_position rng pos n) as [pos' n1].
    cbn [snd book_moves map List.concat] in Hc. rewrite app_nil_r in Hc.
    cbn [fst]. subst n1.
    destruct (jitter rng back (n + List.length pos)) as [b' n2]. reflexivity.
  - cbn [app jitter].
    pose proof (jitter_counter rng [(key0, pos0)] n) as Hc.
    cbn [jitter] in Hc.
    destruct (jitter_position rng pos0 n) as [pos0' n1].
    cbn [snd book_moves map List.concat] in Hc. rewrite app_nil_r in Hc.
    subst n1. specialize (IH (n + List.length pos0)%nat).
    destruct (jitter rng (front ++ (key, pos) :: back) (n + List.length pos0))
      as [b' n2].
    destruct (jitter rng front (n + List.length pos0)) as [f' n3].
    cbn [fst] in *. rewrite IH.
    unfold book_moves. cbn [map List.concat snd]. rewrite length_app.
    rewrite !Nat.add_assoc. reflexivity.
Qed.

(** On a position whose weights are all zero the jitter pass leaves the
    draws themselves, one after the other. *)
Lemma jitter_position_zero_draws (rng : nat -> Z) (pos : BookPosition)
    (n : nat) :
  Forall (fun ubm => weight (snd ubm) = 0) pos ->
  map (fun ubm => weight (snd ubm)) (fst (jitter_position rng pos n))
  = map (fun i => rng i mod 4) (seq n (List.length pos)).
Proof.
  intros Hz. revert n.
  induction Hz as [| ubm pos Hw _ IH]; intros n; cbn [jitter_position];
    [reflexivity |].
  unfold jitter_move, randint. specialize (IH (S n)).
  destruct (jitter_position rng pos (S n)) as [pos' n'].
  cbn [fst snd map List.length seq weight] in *.
  rewrite IH, Hw. f_equal.
  change (3 - 0 + 1) with 4.
  pose proof (Z.mod_pos_bound (rng n) 4 ltac:(lia)).
  unfold MAX_BOOK_WEIGHT. lia.
Qed.

Lemma finished_keys (b b2 : Book) :
  Forall2 position_finished b b2 -> map fst b2 = map fst b.
Proof.
  induction 1 as [| kp kp2 b b2 [Hk _] _ IH]; [reflexivity |].
  cbn [map]. rewrite Hk, IH. reflexivity.
Qed.

(** ** Positions of positive sum, for any policy that never subtracts *)

Section PositivePositions.
Variable rng : nat -> Z.
Variable increment : Scoring.
Hypothesis increment_nonneg : nonneg_scoring increment.

Lemma normalize_assigns_at_least_1 (games : list Game) (b : Book) (n : nat)
    (key : Z) (pos : BookPosition) (ubm : string * BookMove) :
  Forall valid_game games ->
  ingest increment games (new_Book, O) = (b, n) ->
  In (key, pos) b -> In ubm pos -> 0 < position_sum pos ->
  exists b1 pos1 bm1,
    normalize b = Some b1 /\ In (key, pos1) b1 /\ In (fst ubm, bm1) pos1
    /\ move bm1 = move (snd ubm) /\ 1 <= weight bm1.
Proof.
  intros Hgames Hing Hkp Hu Hs.
  destruct (build_book_spec rng increment increment_nonneg games b n
              Hgames Hing) as [[_ Hb] _].
  pose proof (positions_ok_nonneg b Hb) as Hnn.
  destruct (normalize_related b Hnn) as [b1 [Hn HF]].
  destruct (Forall2_In_l _ _ _ _ HF Hkp) as [[key1 pos1] [Hkp1 [Hk Hp]]].
  cbn [fst snd] in Hk, Hp. subst key1.
  destruct (Forall2_In_l _ _ _ _ Hp Hu) as [[u1 bm1] [Hu1 [Hk1 [Hm1 Hw1]]]].
  cbn [fst snd] in Hk1, Hm1, Hw1. subst u1.
  assert ((position_sum pos <=? 0) = false) as E by (apply Z.leb_gt; lia).
  rewrite E in Hw1. apply rescale_at_least_1 in Hw1.
  exists b1, pos1, bm1. auto.
Qed.

Lemma degenerate_position_entries (games : list Game) (b : Book) (n : nat)
    (key : Z) (pos : BookPosition) :
  Forall valid_game games ->
  ingest increment games (new_Book, O) = (b, n) ->
  In (key, pos) b -> position_sum pos <= 0 ->
  Forall (fun ubm => weight (snd ubm) = 0) pos
  /\ exists b1 es front back pos2,
       normalize b = Some b1 /\ In (key, pos) b1
       /\ b1 = front ++ (key, pos) :: back
       /\ build_book rng increment games = Some es
       /\ save_polyglot (fst (jitter rng b1 n)) = Some es
       /\ pos2
          = fst (jitter_position rng pos
                   (n + List.length (book_moves front)))
       /\ In (key, pos2) (fst (jitter rng b1 n))
       /\ map (fun ubm => weight (snd ubm)) pos2
          = map (fun i => rng i mod 4)
              (seq (n + List.length (book_moves front)) (List.length pos))
       /\ jittered_from_zero key es pos pos2
       /\ forall e,
            In e es -> entry_hash e = key ->
            1 <= entry_weight e <= 3
            /\ exists ubm2,
                 In ubm2 pos2 /\ e = entry_of key ubm2
                 /\ entry_weight e = weight (snd ubm2).
Proof.
  intros Hgames Hing Hkp Hs.
  pose proof (ingest_ok increment increment_nonneg games Hgames
                (new_Book, O) new_Book_ok) as Hok.
  rewrite Hing in Hok. cbn [fst] in Hok.
  pose proof Hok as [Hnd Hb].
  pose proof (positions_ok_nonneg b Hb) as Hnn.
  assert (Forall (fun ubm => weight (snd ubm) = 0) pos) as Hzero.
  { apply position_sum_zero; [| exact Hs].
    rewrite Forall_forall in Hnn. apply (Hnn _ Hkp). }
  split; [exact Hzero |].
  destruct (normalize_related b Hnn) as [b1 [Hn HF1]].
  pose proof (jitter_related rng b b1 HF1 n) as HF2.
  set (b2 := fst (jitter rng b1 n)) in *.
  pose proof (finished_encodable b b2 HF2 Hb) as Henc.
  assert (save_polyglot b2 = Some (sort_entries (expected_entries b2)))
    as Hsave by (apply save_polyglot_spec; split; [exact Henc | reflexivity]).
  assert (In (key, pos) b1) as Hkp1.
  { pose proof Hn as Hn'. unfold normalize in Hn'. apply mapM_Forall2 in Hn'.
    destruct (Forall2_In_l _ _ _ _ Hn' Hkp) as [kp1 [Hkp1 Hrel]].
    cbn [fst snd] in Hrel. unfold normalize_position in Hrel.
    assert ((position_sum pos <=? 0) = true) as E by (apply Z.leb_le; lia).
    rewrite E in Hrel. cbn [bind] in Hrel. injection Hrel as <-. exact Hkp1. }
  destruct (in_split _ _ Hkp1) as [front [back Hsplit]].
  exists b1, (sort_entries (expected_entries b2)), front, back,
    (fst (jitter_position rng pos (n + List.length (book_moves front)))).
  assert (In (key,
              fst (jitter_position rng pos
                     (n + List.length (book_moves front)))) b2) as Hkp2.
  { unfold b2. rewrite Hsplit, jitter_split.
    apply in_or_app. right. left. reflexivity. }
  assert (NoDup (map fst b2)) as Hnd2
    by (rewrite (finished_keys b b2 HF2); exact Hnd).
  destruct (finished_degenerate_moves b b2 key pos Hb HF2 Hkp Hs)
    as [pos2 [Hin2 Hj]].
  assert (pos2
          = fst (jitter_position rng pos
                   (n + List.length (book_moves front)))) as Hpos2
    by (eapply NoDup_keys_unique; eassumption).
  rewrite <- Hpos2 in *.
  split; [exact Hn |]. split; [exact Hkp1 |]. split; [exact Hsplit |].
  split.
  { unfold build_book. rewrite Hing, Hn. cbn [bind]. exact Hsave. }
  split; [exact Hsave |]. split; [reflexivity |]. split; [exact Hkp2 |].
  split; [rewrite Hpos2; apply jitter_position_zero_draws, Hzero |].
  split.
  { unfold jittered_from_zero in *.
    eapply Forall2_impl; [| exact Hj].
    intros ubm ubm2 [Hk [Hm [Hr Hiff]]].
    rewrite sort_entries_In. auto. }
  intros e He Hh. apply (proj1 (sort_entries_In _ _)) in He.
  split; [eapply finished_degenerate; eassumption |].
  pose proof He as He'.
  apply In_expected_entries in He'
    as [key' [pos' [ubm2 [Hkp' [Hu2 [Hem ->]]]]]].
  assert (entry_hash (entry_of key' ubm2) = key') as Hhash.
  { pose proof Henc as Henc'. unfold encodable in Henc'.
    rewrite Forall_forall in Henc'. destruct (Henc' _ Hkp') as [Hkey' _].
    unfold entry_of. apply entry_hash_make_entry. exact Hkey'. }
  rewrite Hhash in Hh. subst key'.
  assert (pos' = pos2) as -> by (eapply NoDup_keys_unique; eassumption).
  exists ubm2. split; [exact Hu2 |]. split; [reflexivity |].
  apply emitted_true in Hem as [Hw _].
  unfold jittered_from_zero in Hj.
  destruct (Forall2_In_r _ _ _ _ Hj Hu2) as [ubm [_ [_ [_ [Hr _]]]]].
  unfold entry_of. rewrite entry_weight_make_entry
    by (unfold MAX_BOOK_WEIGHT; lia).
  unfold MAX_BOOK_WEIGHT. lia.
Qed.
End PositivePositions.

(** * The claims *)

(** ** C1: sort order of the output *)

(** C1, as stated, fails: with 1.e4 played once and 1.d4 twice from the
    initial position, the entry of e2e4 (move 796, weight 840) is written
    before the entry of d2d4 (move 731, weight 1680): the hashes are equal
    and the move fields descend. *)
Lemma C1_counterexample :
  exists es,
    FilterAndBuild.build_book_from_pgn (constant_rng 0) three_games = Some es
    /\ ~ sorted_by_hash_then entry_move es.
Proof.
  eexists. split; [vm_compute; reflexivity |].
  intros H. specialize (H 0%nat _ _ eq_refl eq_refl).
  vm_compute in H. destruct H as [H | [_ H]]; [discriminate H |].
  apply H. reflexivity.
Qed.

(** C1 (amended): the entries [save_polyglot] writes ascend by the 8-byte
    big-endian hash field and, for equal hashes, by the 2-byte big-endian
    weight field (bytes 10-11, the second component of the sort key): for
    every adjacent pair, hash[i] < hash[i+1], or the hashes are equal and
    weight[i] <= weight[i+1]. *)
Theorem C1_sorted_by_hash_then_weight (b : Book) (es : list Entry) :
  save_polyglot b = Some es -> sorted_by_hash_then entry_weight es.
Proof.
  intros Hsave. apply save_polyglot_spec in Hsave as [Henc ->].
  intros i e1 e2 H1 H2.
  pose proof (Sorted_adjacent entry_ordered _ i e1 e2
                (sort_entries_sorted _) H1 H2) as Hle.
  apply nth_error_In in H1, H2.
  apply (proj1 (sort_entries_In _ _)) in H1, H2.
  destruct (expected_entry_shape b e1 Henc H1)
    as [k1 [? [u1 [m1 [_ [_ [_ [Hw1 [Hk1 [_ ->]]]]]]]]]].
  destruct (expected_entry_shape b e2 Henc H2)
    as [k2 [? [u2 [m2 [_ [_ [_ [Hw2 [Hk2 [_ ->]]]]]]]]]].
  pose proof (capped_weight_fits _ Hw1) as Hr1.
  pose proof (capped_weight_fits _ Hw2) as Hr2.
  rewrite !entry_hash_make_entry, !entry_weight_make_entry by assumption.
  apply (entry_le_make_entry k1 (move_int m1) _ k2 (move_int m2) _);
    assumption.
Qed.

Lemma C1_witness :
  save_polyglot sample_book
  = Some [make_entry 0x1111111111111111 (move_int promotion_move) 2520;
          make_entry start_key (move_int e2e4) 840;
          make_entry start_key (move_int d2d4) 1680]
  /\ sorted_by_hash_then entry_weight
       [make_entry 0x1111111111111111 (move_int promotion_move) 2520;
        make_entry start_key (move_int e2e4) 840;
        make_entry start_key (move_int d2d4) 1680].
Proof.
  split; [reflexivity |].
  apply (C1_sorted_by_hash_then_weight sample_book). reflexivity.
Defined.

(** ** C2: the ply cutoff *)

(** C2, as stated, fails: in a game of 61 plies the move at ply index 60
    is not scored.  The game is ingested exactly as its first 60 plies;
    1.Nf3 from the initial position, played at plies 0, 4, ..., 56 and 60,
    accumulates 546, not the 552 that scoring ply 60 as well would give. *)
Lemma C2_counterexample :
  variant_matches long_game = true
  /\ List.length (mainline_moves long_game) = 61%nat
  /\ nth_error (mainline_moves long_game) 60 = Some (mkPly start_key WHITE g1f3)
  /\ book_weight start_key (uci g1f3)
       (fst (ingest_game balanced_increment long_game (new_Book, O))) = 546
  /\ book_weight start_key (uci g1f3)
       (fst (score_plies balanced_increment (S (Z.to_nat MAX_PLY))
               (result_header long_game) (mainline_moves long_game)
               (new_Book, O))) = 552
  /\ ingest_game balanced_increment long_game (new_Book, O)
     <> score_plies balanced_increment (S (Z.to_nat MAX_PLY))
          (result_header long_game) (mainline_moves long_game) (new_Book, O).
Proof.
  assert (book_weight start_key (uci g1f3)
            (fst (ingest_game balanced_increment long_game (new_Book, O)))
          = 546) as H546 by (vm_compute; reflexivity).
  assert (book_weight start_key (uci g1f3)
            (fst (score_plies balanced_increment (S (Z.to_nat MAX_PLY))
                    (result_header long_game) (mainline_moves long_game)
                    (new_Book, O))) = 552) as H552 by (vm_compute; reflexivity).
  repeat split; try (vm_compute; reflexivity); try assumption.
  intros Heq. rewrite Heq in H546. rewrite H546 in H552. discriminate H552.
Qed.

(** C2 (amended): for every decoded game of the target variant, ingestion
    scores the move at every ply index p with 0 <= p < MAX_PLY (the bound
    is exclusive: with MAX_PLY = 60, plies 0 through 59), each with its own
    index, and nothing else; a game longer than the cutoff is truncated
    there, not rejected: it is ingested exactly as its first MAX_PLY
    plies. *)
Theorem C2_plies_below_cutoff (increment : Scoring) (g : Game)
    (st : Book * nat) :
  variant_matches g = true ->
  ingest_game increment g st
  = score_plies increment (Z.to_nat MAX_PLY) (result_header g)
      (mainline_moves g) st
  /\ ingest_game increment g st
     = ingest_game increment
         (mkGame (white_header g) (black_header g) (variant_header g)
            (result_header g)
            (firstn (Z.to_nat MAX_PLY) (mainline_moves g))) st.
Proof.
  intros Hv.
  assert (forall moves,
            play_from increment (result_header g) 0 moves st
            = score_plies increment (Z.to_nat MAX_PLY) (result_header g)
                moves st) as Hplay.
  { intros moves. rewrite play_from_score by (unfold MAX_PLY; lia).
    rewrite Z.sub_0_r. reflexivity. }
  unfold ingest_game, variant_matches in *. cbn [variant_header] in *.
  rewrite Hv. cbn [result_header mainline_moves].
  rewrite !Hplay. split; [reflexivity |].
  unfold score_plies.
  rewrite !enumerate_from_firstn, firstn_firstn, Nat.min_id. reflexivity.
Qed.

Lemma C2_witness :
  variant_matches long_game = true
  /\ ingest_game balanced_increment long_game (new_Book, O)
     = score_plies balanced_increment (Z.to_nat MAX_PLY)
         (result_header long_game) (mainline_moves long_game) (new_Book, O).
Proof.
  split; [reflexivity |].
  apply (C2_plies_below_cutoff balanced_increment long_game (new_Book, O)).
  reflexivity.
Defined.

(** ** C3: normalisation *)

(** C3, as stated, fails: in a position with scores 132 and 48 (sum 180)
    the exact value 132 * 2520 / 180 is 1848, but the script computes
    [int(132 / 180 * 2520)] in floating point: 132 / 180 rounds down to
    the double below 11/15, the product rounds to the double below 1848,
    and the new score is 1847. *)
Lemma C3_counterexample :
  position_sum uneven_position = 180
  /\ normalize_position uneven_position
     = Some [("e2e4"%string, mkBookMove 1847 (Some e2e4));
             ("d2d4"%string, mkBookMove 672 (Some d2d4))]
  /\ Z.max 1 (132 * MAX_BOOK_WEIGHT / 180) = 1848
  /\ ~ (forall pos',
          normalize_position uneven_position = Some pos' ->
          Forall2
            (fun ubm ubm' =>
               weight (snd ubm')
               = Z.max 1 (weight (snd ubm) * MAX_BOOK_WEIGHT
                          / position_sum uneven_position))
            uneven_position pos').
Proof.
  assert (normalize_position uneven_position
          = Some [("e2e4"%string, mkBookMove 1847 (Some e2e4));
                  ("d2d4"%string, mkBookMove 672 (Some d2d4))]) as Hn
    by (vm_compute; reflexivity).
  split; [reflexivity |]. split; [exact Hn |]. split; [reflexivity |].
  intros H. specialize (H _ Hn).
  inversion H as [| ? ? ? ? Hhead _]; subst.
  vm_compute in Hhead. discriminate Hhead.
Qed.

(** C3 (amended): normalisation works position by position.  A position
    whose score sum S is <= 0 is left completely unchanged.  In a position
    with S > 0 (scores non-negative, S below 2^40) every move's score is
    rewritten to [max(1, v)], where [v = int(score / S * 2520)] is computed
    in binary64 floating point as the script writes it, and [v] is either
    floor(score * 2520 / S) or one less than it; keys and stored moves are
    untouched. *)
Theorem C3_normalize_per_position (pos : BookPosition)
    (Hnonneg : Forall (fun ubm => 0 <= weight (snd ubm)) pos)
    (Hsmall : position_sum pos < 2 ^ 40) :
  (position_sum pos <= 0 -> normalize_position pos = Some pos)
  /\ (0 < position_sum pos ->
      exists pos',
        normalize_position pos = Some pos'
        /\ Forall2
             (fun ubm ubm' =>
                fst ubm' = fst ubm
                /\ move (snd ubm') = move (snd ubm)
                /\ exists v,
                     weight (snd ubm') = Z.max 1 v
                     /\ weight (snd ubm) * MAX_BOOK_WEIGHT / position_sum pos - 1
                        <= v
                        <= weight (snd ubm) * MAX_BOOK_WEIGHT / position_sum pos)
             pos pos').
Proof.
  split; intros Hs; unfold normalize_position.
  - assert ((position_sum pos <=? 0) = true) as -> by (apply Z.leb_le; lia).
    reflexivity.
  - assert ((position_sum pos <=? 0) = false) as -> by (apply Z.leb_gt; lia).
    apply Forall2_weaken_In. intros ubm Hin.
    pose proof (weight_le_position_sum pos ubm Hnonneg Hin) as Hw.
    destruct (rescale_near_exact (position_sum pos) (weight (snd ubm)) Hw
                (conj Hs Hsmall)) as [v [Hv Hbounds]].
    exists (fst ubm, mkBookMove (Z.max 1 v) (move (snd ubm))).
    unfold rescale_move. rewrite Hv. cbn [bind fst snd weight move].
    split; [reflexivity |]. split; [reflexivity |]. split; [reflexivity |].
    exists v. split; [reflexivity | exact Hbounds].
Qed.

Lemma C3_witness :
  Forall (fun ubm => 0 <= weight (snd ubm)) uneven_position
  /\ position_sum uneven_position < 2 ^ 40
  /\ ((position_sum uneven_position <= 0 ->
       normalize_position uneven_position = Some uneven_position)
      /\ (0 < position_sum uneven_position ->
          exists pos',
            normalize_position uneven_position = Some pos'
            /\ Forall2
                 (fun ubm ubm' =>
                    fst ubm' = fst ubm
                    /\ move (snd ubm') = move (snd ubm)
                    /\ exists v,
                         weight (snd ubm') = Z.max 1 v
                         /\ weight (snd ubm) * MAX_BOOK_WEIGHT
                            / position_sum uneven_position - 1
                            <= v
                            <= weight (snd ubm) * MAX_BOOK_WEIGHT
                               / position_sum uneven_position)
                 uneven_position pos')).
Proof.
  assert (Forall (fun ubm => 0 <= weight (snd ubm)) uneven_position) as H1.
  { repeat constructor; cbn; lia. }
  assert (position_sum uneven_position < 2 ^ 40) as H2 by (cbn; lia).
  split; [exact H1 |]. split; [exact H2 |].
  exact (C3_normalize_per_position uneven_position H1 H2).
Defined.

(** ** C4: positions whose sum is not positive *)

(** C4, as stated, fails: the jitter pass runs on every move after
    normalisation.  In win-only mode a game Black won leaves White's
    1.e4 with score 0 in a position of sum 0; with a jitter draw of 1 the
    move gets weight 1 and is written to the book. *)
Lemma C4_counterexample :
  exists b n pos es e,
    ingest (win_only_increment (constant_rng 1)) [game_e4_black_wins]
      (new_Book, O) = (b, n)
    /\ In (start_key, pos) b /\ position_sum pos <= 0
    /\ WeakestBook.build_book_from_pgn (constant_rng 1) [game_e4_black_wins]
       = Some es
    /\ In e es /\ entry_hash e = start_key /\ entry_move e = move_int e2e4
    /\ entry_weight e = 1.
Proof.
  do 5 eexists. split; [vm_compute; reflexivity |].
  split; [left; reflexivity |]. split; [vm_compute; discriminate |].
  split; [vm_compute; reflexivity |].
  split; [left; reflexivity |]. repeat split.
Qed.

(** C4 (amended): in both scripts, for every position whose score sum S
    is <= 0 at normalisation time, all of the position's moves have weight
    zero and normalisation leaves the position as it is; the jitter pass
    then gives each of these moves its own draw from 0..3 as weight (the
    draws that follow those of ingestion and of the moves of the positions
    before it in the book), and encoding prunes exactly the moves whose
    draw is 0 and writes the others: the entries of the output with the
    position's hash are the entries of the moves with a positive draw,
    each with its draw, between 1 and 3, as weight.  Here [pos2] is the
    position as the jitter pass leaves it in the book that is encoded. *)
Theorem C4_degenerate_positions (rng : nat -> Z) (games : list Game)
    (key : Z) (pos : BookPosition) :
  Forall valid_game games ->
  position_sum pos <= 0 ->
  (forall b n,
     ingest balanced_increment games (new_Book, O) = (b, n) ->
     In (key, pos) b ->
     Forall (fun ubm => weight (snd ubm) = 0) pos
     /\ exists b1 es front back pos2,
          normalize b = Some b1 /\ In (key, pos) b1
          /\ b1 = front ++ (key, pos) :: back
          /\ FilterAndBuild.build_book_from_pgn rng games = Some es
          /\ save_polyglot (fst (jitter rng b1 n)) = Some es
          /\ pos2
             = fst (jitter_position rng pos
                      (n + List.length (book_moves front)))
          /\ In (key, pos2) (fst (jitter rng b1 n))
          /\ map (fun ubm => weight (snd ubm)) pos2
             = map (fun i => rng i mod 4)
                 (seq (n + List.length (book_moves front))
                    (List.length pos))
          /\ jittered_from_zero key es pos pos2
          /\ forall e,
               In e es -> entry_hash e = key ->
               1 <= entry_weight e <= 3
               /\ exists ubm2,
                    In ubm2 pos2 /\ e = entry_of key ubm2
                    /\ entry_weight e = weight (snd ubm2))
  /\ (forall b n,
        ingest (win_only_increment rng) games (new_Book, O) = (b, n) ->
        In (key, pos) b ->
        Forall (fun ubm => weight (snd ubm) = 0) pos
        /\ exists b1 es front back pos2,
             normalize b = Some b1 /\ In (key, pos) b1
             /\ b1 = front ++ (key, pos) :: back
             /\ WeakestBook.build_book_from_pgn rng games = Some es
             /\ save_polyglot (fst (jitter rng b1 n)) = Some es
             /\ pos2
                = fst (jitter_position rng pos
                         (n + List.length (book_moves front)))
             /\ In (key, pos2) (fst (jitter rng b1 n))
             /\ map (fun ubm => weight (snd ubm)) pos2
                = map (fun i => rng i mod 4)
                    (seq (n + List.length (book_moves front))
                       (List.length pos))
             /\ jittered_from_zero key es pos pos2
             /\ forall e,
                  In e es -> entry_hash e = key ->
                  1 <= entry_weight e <= 3
                  /\ exists ubm2,
                       In ubm2 pos2 /\ e = entry_of key ubm2
                       /\ entry_weight e = weight (snd ubm2)).
Proof.
  intros Hgames Hs. split; intros b n Hing Hkp.
  - exact (degenerate_position_entries rng balanced_increment
             balanced_increment_nonneg games b n key pos Hgames Hing Hkp Hs).
  - exact (degenerate_position_entries rng (win_only_increment rng)
             (win_only_increment_nonneg rng) games b n key pos
             Hgames Hing Hkp Hs).
Qed.

Lemma game_e4_black_wins_valid : Forall valid_game [game_e4_black_wins].
Proof.
  constructor; [| constructor]. unfold valid_game. cbn.
  constructor; [| constructor].
  unfold valid_ply, valid_key, valid_move, valid_square, start_key, e2e4.
  cbn [ply_key ply_move from_square to_square]. lia.
Qed.

Lemma C4_witness :
  Forall valid_game [game_e4_black_wins]
  /\ position_sum [("e2e4"%string, mkBookMove 0 (Some e2e4))] <= 0
  /\ exists b1 es front back pos2,
       normalize [(start_key, [("e2e4"%string, mkBookMove 0 (Some e2e4))])]
       = Some b1
       /\ In (start_key, [("e2e4"%string, mkBookMove 0 (Some e2e4))]) b1
       /\ b1
          = front
            ++ (start_key, [("e2e4"%string, mkBookMove 0 (Some e2e4))])
            :: back
       /\ WeakestBook.build_book_from_pgn (constant_rng 1) [game_e4_black_wins]
          = Some es
       /\ save_polyglot (fst (jitter (constant_rng 1) b1 O)) = Some es
       /\ pos2
          = fst (jitter_position (constant_rng 1)
                   [("e2e4"%string, mkBookMove 0 (Some e2e4))]
                   (O + List.length (book_moves front)))
       /\ In (start_key, pos2) (fst (jitter (constant_rng 1) b1 O))
       /\ map (fun ubm => weight (snd ubm)) pos2
          = map (fun i => constant_rng 1 i mod 4)
              (seq (O + List.length (book_moves front))
                 (List.length [("e2e4"%string, mkBookMove 0 (Some e2e4))]))
       /\ jittered_from_zero start_key es
            [("e2e4"%string, mkBookMove 0 (Some e2e4))] pos2
       /\ forall e,
            In e es -> entry_hash e = start_key ->
            1 <= entry_weight e <= 3
            /\ exists ubm2,
                 In ubm2 pos2 /\ e = entry_of start_key ubm2
                 /\ entry_weight e = weight (snd ubm2).
Proof.
  assert (position_sum [("e2e4"%string, mkBookMove 0 (Some e2e4))] <= 0) as Hs
    by (cbn; lia).
  split; [exact game_e4_black_wins_valid |]. split; [exact Hs |].
  exact (proj2
           (proj2 (C4_degenerate_positions (constant_rng 1)
                     [game_e4_black_wins] start_key
                     [("e2e4"%string, mkBookMove 0 (Some e2e4))]
                     game_e4_black_wins_valid Hs)
              [(start_key, [("e2e4"%string, mkBookMove 0 (Some e2e4))])] O
              eq_refl (or_introl eq_refl))).
Defined.

(** ** C5: weight bounds *)

(** C5: every entry [save_polyglot] writes has a weight w with
    0 < w <= MAX_BOOK_WEIGHT (2520); it comes from a stored move of positive
    weight, whose weight it carries capped at 2520; and the entries are as
    many as the stored moves that pass the filter, so a move whose final
    weight is zero is never emitted. *)
Theorem C5_weight_bounds (b : Book) (es : list Entry) :
  save_polyglot b = Some es ->
  (forall e, In e es ->
     0 < entry_weight e <= MAX_BOOK_WEIGHT
     /\ exists key pos ubm,
          In (key, pos) b /\ In ubm pos /\ 0 < weight (snd ubm)
          /\ entry_hash e = key
          /\ entry_weight e = Z.min MAX_BOOK_WEIGHT (weight (snd ubm)))
  /\ List.length es
     = List.length
         (filter (fun ubm => (0 <? weight (snd ubm))
                             && match move (snd ubm) with
                                | Some _ => true
                                | None => false
                                end)
            (List.concat (map snd b))).
Proof.
  intros Hsave. apply save_polyglot_spec in Hsave as [Henc ->]. split.
  - intros e He. apply (proj1 (sort_entries_In _ _)) in He.
    destruct (expected_entry_shape b e Henc He)
      as [key [pos [ubm [m [Hkp [Hu [Hm [Hw [Hkey [Hmi ->]]]]]]]]]].
    rewrite entry_hash_make_entry by exact Hkey.
    rewrite entry_weight_make_entry by (apply capped_weight_fits, Hw).
    split; [unfold MAX_BOOK_WEIGHT; lia |].
    exists key, pos, ubm. auto.
  - rewrite (Permutation_length (sort_entries_perm _)).
    apply expected_entries_length.
Qed.

Lemma C5_witness :
  save_polyglot sample_book
  = Some [make_entry 0x1111111111111111 (move_int promotion_move) 2520;
          make_entry start_key (move_int e2e4) 840;
          make_entry start_key (move_int d2d4) 1680]
  /\ forall e,
       In e [make_entry 0x1111111111111111 (move_int promotion_move) 2520;
             make_entry start_key (move_int e2e4) 840;
             make_entry start_key (move_int d2d4) 1680] ->
       0 < entry_weight e <= MAX_BOOK_WEIGHT.
Proof.
  split; [reflexivity |].
  intros e He.
  exact (proj1 (proj1 (C5_weight_bounds sample_book _ eq_refl) e He)).
Defined.

(** ** C6: balanced scoring *)


(** ** C7: win-only scoring *)

(** What the win-only ply loop does: every observed ply records its move
    in the book.  The increment is nonzero exactly for a move made by the
    side that won the game, whichever player that is, and is then a random
    integer of 4..6 times decay; every other observed move gets a zero
    increment, so a move seen for the first time this way is stored with
    accumulated score 0. *)
Lemma win_only_record_ply (rng : nat -> Z) (result : string) (ply : Z)
    (p : Ply) (b : Book) (n : nat) :
  let b' := fst (record_ply (win_only_increment rng) result ply p (b, n)) in
  let key := ply_key p in
  let u := uci (ply_move p) in
  (exists bm, book_lookup key u b' = Some bm /\ move bm = Some (ply_move p))
  /\ (mover_wins result (ply_turn p) = true ->
      exists r, 4 <= r <= 6
                /\ r = fst (randint rng 4 6 n)
                /\ book_weight key u b' = book_weight key u b + r * decay ply
                /\ r * decay ply <> 0)
  /\ (mover_wins result (ply_turn p) = false ->
      book_weight key u b' = book_weight key u b
      /\ (book_lookup key u b = None ->
          book_lookup key u b' = Some (mkBookMove 0 (Some (ply_move p))))).
Proof.
  intros b' key u. subst b' key u.
  split; [| split].
  - rewrite record_ply_lookup. eexists. split; reflexivity.
  - intros Hwin. rewrite record_ply_weight.
    unfold win_only_increment. unfold mover_wins in Hwin. rewrite Hwin.
    pose proof (randint_range rng 4 6 n ltac:(lia)) as Hr.
    destruct (randint rng 4 6 n) as [r n'] eqn:E. cbn [fst] in *.
    exists r. pose proof (decay_pos ply).
    split; [exact Hr |]. split; [reflexivity |]. split; [reflexivity | nia].
  - intros Hlose. split.
    + rewrite record_ply_weight.
      unfold win_only_increment. unfold mover_wins in Hlose. rewrite Hlose.
      cbn [fst]. lia.
    + intros Hnone. rewrite record_ply_lookup.
      unfold book_weight. rewrite Hnone.
      unfold win_only_increment. unfold mover_wins in Hlose. rewrite Hlose.
      reflexivity.
Qed.

(** C7 (the code at the failing input): the script's comment reads
    "Only count winning moves of MinOpponentMoves", but the test looks at
    the result and the side to move only.  In a game the bot lost with
    Black, the move of its opponent, who is not the side of interest, gets
    a nonzero increment of 4..6 times decay 12, whatever the random source
    returns. *)
Theorem C7_opponent_win_scored :
  side_of_interest WeakestBook.BOTS game_bot_loses = Some BLACK
  /\ variant_matches game_bot_loses = true
  /\ mainline_moves game_bot_loses = [mkPly start_key WHITE e2e4]
  /\ forall rng,
       exists r,
         4 <= r <= 6
         /\ fst (ingest (win_only_increment rng) [game_bot_loses] (new_Book, O))
            = [(start_key, [("e2e4"%string, mkBookMove (r * 12) (Some e2e4))])].
Proof.
  split; [reflexivity |]. split; [reflexivity |]. split; [reflexivity |].
  intros rng.
  pose proof (randint_range rng 4 6 O ltac:(lia)) as Hr.
  exists (fst (randint rng 4 6 O)). split; [exact Hr |].
  reflexivity.
Qed.

(** ** C8: the move and learn fields *)

(** C8: every entry [save_polyglot] writes has 16 bytes; bytes 8-9 hold,
    big-endian, the 16-bit move value of a stored move, whose bits 0-5 are
    the to-square, bits 6-11 the from-square, bits 12-14 the promotion
    code (0 none, 1 knight, 2 bishop, 3 rook, 4 queen) and bit 15 is 0,
    for all squares 0..63 and every promotion; bytes 12-15 are zero. *)
Theorem C8_move_and_learn_fields (b : Book) (es : list Entry) (e : Entry) :
  save_polyglot b = Some es -> In e es ->
  List.length e = 16%nat
  /\ entry_learn e = [0; 0; 0; 0]
  /\ exists key pos ubm m,
       In (key, pos) b /\ In ubm pos /\ move (snd ubm) = Some m
       /\ slice 8 10 e = be_bytes 2 (move_int m)
       /\ entry_move e = move_int m
       /\ (valid_move m ->
           Z.land (entry_move e) 63 = to_square m
           /\ Z.land (Z.shiftr (entry_move e) 6) 63 = from_square m
           /\ Z.testbit (entry_move e) 15 = false
           /\ forall c, polyglot_promotion_code (promotion m) = Some c ->
                        Z.land (Z.shiftr (entry_move e) 12) 7 = c).
Proof.
  intros Hsave He. apply save_polyglot_spec in Hsave as [Henc ->].
  apply (proj1 (sort_entries_In _ _)) in He.
  destruct (expected_entry_shape b e Henc He)
    as [key [pos [ubm [m [Hkp [Hu [Hm [Hw [Hkey [Hmi ->]]]]]]]]]].
  split; [reflexivity |]. split; [reflexivity |].
  exists key, pos, ubm, m.
  rewrite entry_move_make_entry by exact Hmi.
  repeat (split; [first [assumption | reflexivity] |]).
  apply move_int_bits.
Qed.

Lemma C8_witness :
  save_polyglot sample_book
  = Some [make_entry 0x1111111111111111 (move_int promotion_move) 2520;
          make_entry start_key (move_int e2e4) 840;
          make_entry start_key (move_int d2d4) 1680]
  /\ In (make_entry 0x1111111111111111 (move_int promotion_move) 2520)
       [make_entry 0x1111111111111111 (move_int promotion_move) 2520;
        make_entry start_key (move_int e2e4) 840;
        make_entry start_key (move_int d2d4) 1680]
  /\ entry_learn (make_entry 0x1111111111111111 (move_int promotion_move) 2520)
     = [0; 0; 0; 0].
Proof.
  split; [reflexivity |]. split; [left; reflexivity |].
  exact (proj1 (proj2 (C8_move_and_learn_fields sample_book _ _ eq_refl
                         (or_introl eq_refl)))).
Defined.

(** ** C9 and C10: what reaches the output *)

Lemma retained_after_ingest (rng : nat -> Z) (increment : Scoring)
    (games : list Game) (b : Book) (n : nat) (key : Z) (u : string)
    (bm : BookMove) :
  nonneg_scoring increment ->
  Forall valid_game games ->
  ingest increment games (new_Book, O) = (b, n) ->
  book_lookup key u b = Some bm -> 0 < weight bm ->
  exists es m e,
    build_book rng increment games = Some es
    /\ move bm = Some m /\ uci m = u
    /\ In e es /\ entry_hash e = key /\ entry_move e = move_int m
    /\ 1 <= entry_weight e <= MAX_BOOK_WEIGHT.
Proof.
  intros Hinc Hgames Hing Hlook Hw.
  destruct (book_lookup_In key u b bm Hlook) as [pos [Hkp Hu]].
  destruct (build_book_spec rng increment Hinc games b n Hgames Hing)
    as [[_ Hb] _].
  assert (0 < position_sum pos) as Hs.
  { rewrite Forall_forall in Hb. destruct (Hb _ Hkp) as [_ Hpos].
    cbn [snd] in Hpos.
    assert (Forall (fun ubm => 0 <= weight (snd ubm)) pos) as Hnn.
    { eapply Forall_impl; [| exact Hpos]. intros x [Hx _]. exact Hx. }
    pose proof (weight_le_position_sum pos (u, bm) Hnn Hu) as Hle.
    cbn [snd] in Hle. lia. }
  exact (build_book_retains rng increment Hinc games b n key pos (u, bm)
           Hgames Hing Hkp Hu Hs).
Qed.

(** C9: in both scripts, every move that ingestion leaves with an
    accumulated score > 0 before normalisation appears in the encoded
    output for its position: the run does not raise, and the output holds
    an entry with the position's hash, the move's 16-bit code and a weight
    of at least 1. *)
Theorem C9_monotonic_retention (rng : nat -> Z) (games : list Game)
    (key : Z) (u : string) (bm : BookMove) :
  Forall valid_game games ->
  0 < weight bm ->
  (forall b n,
     ingest balanced_increment games (new_Book, O) = (b, n) ->
     book_lookup key u b = Some bm ->
     exists es m e,
       FilterAndBuild.build_book_from_pgn rng games = Some es
       /\ move bm = Some m /\ uci m = u
       /\ In e es /\ entry_hash e = key /\ entry_move e = move_int m
       /\ 1 <= entry_weight e <= MAX_BOOK_WEIGHT)
  /\ (forall b n,
        ingest (win_only_increment rng) games (new_Book, O) = (b, n) ->
        book_lookup key u b = Some bm ->
        exists es m e,
          WeakestBook.build_book_from_pgn rng games = Some es
          /\ move bm = Some m /\ uci m = u
          /\ In e es /\ entry_hash e = key /\ entry_move e = move_int m
          /\ 1 <= entry_weight e <= MAX_BOOK_WEIGHT).
Proof.
  intros Hgames Hw. split; intros b n Hing Hlook.
  - exact (retained_after_ingest rng balanced_increment games b n key u bm
             balanced_increment_nonneg Hgames Hing Hlook Hw).
  - exact (retained_after_ingest rng (win_only_increment rng) games b n key u
             bm (win_only_increment_nonneg rng) Hgames Hing Hlook Hw).
Qed.

Lemma three_games_valid : Forall valid_game three_games.
Proof.
  assert (forall m, valid_move m ->
            valid_game (mkGame "MinOpponentMoves" "Opponent" "Standard" "1-0"
                          [mkPly start_key WHITE m]))
    as H.
  { intros m Hm. unfold valid_game. cbn [mainline_moves].
    constructor; [| constructor]. split; [| exact Hm].
    unfold valid_key, start_key. cbn [ply_key]. lia. }
  repeat (constructor; [apply H; unfold valid_move, valid_square; cbn; lia |]).
  constructor.
Qed.

Lemma C9_witness :
  Forall valid_game three_games
  /\ 0 < weight (mkBookMove 72 (Some e2e4))
  /\ exists es m e,
       FilterAndBuild.build_book_from_pgn (constant_rng 3) three_games = Some es
       /\ move (mkBookMove 72 (Some e2e4)) = Some m /\ uci m = "e2e4"%string
       /\ In e es /\ entry_hash e = start_key /\ entry_move e = move_int m
       /\ 1 <= entry_weight e <= MAX_BOOK_WEIGHT.
Proof.
  assert (0 < weight (mkBookMove 72 (Some e2e4))) as Hw by (cbn; lia).
  split; [exact three_games_valid |]. split; [exact Hw |].
  exact (proj1 (C9_monotonic_retention (constant_rng 3) three_games start_key
                  "e2e4" (mkBookMove 72 (Some e2e4)) three_games_valid Hw)
           [(start_key, [("e2e4"%string, mkBookMove 72 (Some e2e4));
                         ("d2d4"%string, mkBookMove 144 (Some d2d4))])] O
           eq_refl eq_refl).
Defined.

(** C10: in both scripts, in every position whose score sum S is > 0 at
    normalisation, every recorded move, also one whose accumulated score
    is exactly 0, is given a weight of at least 1 by normalisation and
    appears as an entry in the output; so in win-only mode an unscored
    move is not pruned when it shares its position with a scored move. *)
Theorem C10_zero_score_moves_survive (rng : nat -> Z) (games : list Game)
    (key : Z) (pos : BookPosition) (u : string) (bm : BookMove) :
  Forall valid_game games ->
  0 < position_sum pos ->
  In (u, bm) pos ->
  (forall b n,
     ingest balanced_increment games (new_Book, O) = (b, n) ->
     In (key, pos) b ->
     (exists b1 pos1 bm1,
        normalize b = Some b1 /\ In (key, pos1) b1 /\ In (u, bm1) pos1
        /\ move bm1 = move bm /\ 1 <= weight bm1)
     /\ exists es m e,
          FilterAndBuild.build_book_from_pgn rng games = Some es
          /\ move bm = Some m /\ uci m = u
          /\ In e es /\ entry_hash e = key /\ entry_move e = move_int m
          /\ 1 <= entry_weight e <= MAX_BOOK_WEIGHT)
  /\ (forall b n,
        ingest (win_only_increment rng) games (new_Book, O) = (b, n) ->
        In (key, pos) b ->
        (exists b1 pos1 bm1,
           normalize b = Some b1 /\ In (key, pos1) b1 /\ In (u, bm1) pos1
           /\ move bm1 = move bm /\ 1 <= weight bm1)
        /\ exists es m e,
             WeakestBook.build_book_from_pgn rng games = Some es
             /\ move bm = Some m /\ uci m = u
             /\ In e es /\ entry_hash e = key /\ entry_move e = move_int m
             /\ 1 <= entry_weight e <= MAX_BOOK_WEIGHT).
Proof.
  intros Hgames Hs Hu. split; intros b n Hing Hkp; split.
  - exact (normalize_assigns_at_least_1 rng balanced_increment
             balanced_increment_nonneg games b n key pos (u, bm)
             Hgames Hing Hkp Hu Hs).
  - exact (build_book_retains rng balanced_increment balanced_increment_nonneg
             games b n key pos (u, bm) Hgames Hing Hkp Hu Hs).
  - exact (normalize_assigns_at_least_1 rng (win_only_increment rng)
             (win_only_increment_nonneg rng) games b n key pos (u, bm)
             Hgames Hing Hkp Hu Hs).
  - exact (build_book_retains rng (win_only_increment rng)
             (win_only_increment_nonneg rng) games b n key pos (u, bm)
             Hgames Hing Hkp Hu Hs).
Qed.

Lemma mixed_games_valid : Forall valid_game mixed_games.
Proof.
  assert (forall r m, valid_move m ->
            valid_game (mkGame "MinOpponentMoves" "Opponent" "Standard" r
                          [mkPly start_key WHITE m]))
    as H.
  { intros r m Hm. unfold valid_game. cbn [mainline_moves].
    constructor; [| constructor]. split; [| exact Hm].
    unfold valid_key, start_key. cbn [ply_key]. lia. }
  repeat (constructor; [apply H; unfold valid_move, valid_square; cbn; lia |]).
  constructor.
Qed.

Lemma C10_witness :
  Forall valid_game mixed_games
  /\ 0 < position_sum mixed_position
  /\ In ("e2e4"%string, mkBookMove 0 (Some e2e4)) mixed_position
  /\ exists es m e,
       WeakestBook.build_book_from_pgn (constant_rng 0) mixed_games = Some es
       /\ move (mkBookMove 0 (Some e2e4)) = Some m /\ uci m = "e2e4"%string
       /\ In e es /\ entry_hash e = start_key /\ entry_move e = move_int m
       /\ 1 <= entry_weight e <= MAX_BOOK_WEIGHT.
Proof.
  assert (0 < position_sum mixed_position) as Hs by (cbn; lia).
  assert (In ("e2e4"%string, mkBookMove 0 (Some e2e4)) mixed_position) as Hu
    by (left; reflexivity).
  split; [exact mixed_games_valid |]. split; [exact Hs |]. split; [exact Hu |].
  exact (proj2
           (proj2 (C10_zero_score_moves_survive (constant_rng 0) mixed_games
                     start_key mixed_position "e2e4"
                     (mkBookMove 0 (Some e2e4)) mixed_games_valid Hs Hu)
              [(start_key, mixed_position)] 1%nat eq_refl
              (or_introl eq_refl))).
Defined.

(** * Further properties of the code *)

(** ** [key_hex] and [bytes.fromhex] *)

Lemma hex_digit_decodes (d : Z) :
  0 <= d < 16 ->
  is_ascii_space (hex_digit d) = false /\ hex_value (hex_digit d) = Some d.
Proof.
  intros Hd.
  assert (d = 0 \/ d = 1 \/ d = 2 \/ d = 3 \/ d = 4 \/ d = 5 \/ d = 6 \/ d = 7
          \/ d = 8 \/ d = 9 \/ d = 10 \/ d = 11 \/ d = 12 \/ d = 13 \/ d = 14
          \/ d = 15) as H by lia.
  repeat (destruct H as [-> | H]; [split; reflexivity |]).
  subst d. split; reflexivity.
Qed.

Lemma byte_of_two_digits (v : Z) (n : nat) :
  16 * ((v / 16 ^ Z.of_nat (S (2 * n))) mod 16)
  + (v / 16 ^ Z.of_nat (2 * n)) mod 16
  = (v / 256 ^ Z.of_nat n) mod 256.
Proof.
  assert (16 ^ Z.of_nat (2 * n) = 256 ^ Z.of_nat n) as E.
  { rewrite Nat2Z.inj_mul, Z.pow_mul_r by lia. reflexivity. }
  rewrite Nat2Z.inj_succ, Z.pow_succ_r by lia. rewrite E.
  set (P := 256 ^ Z.of_nat n).
  assert (0 < P) as HP by (subst P; apply Z.pow_pos_nonneg; lia).
  rewrite (Z.mul_comm 16 P), <- Z.div_div by lia.
  change 256 with (16 * 16).
  rewrite (Z.rem_mul_r (v / P) 16 16) by lia. lia.
Qed.

(** An even number of digits decodes to the big-endian bytes. *)
Lemma fromhex_hex_digits (n : nat) (v : Z) :
  fromhex (hex_digits (2 * n) v) = Some (be_bytes n v).
Proof.
  induction n as [| n IH].
  - reflexivity.
  - replace (2 * S n)%nat with (S (S (2 * n))) by lia.
    cbn [hex_digits fromhex be_bytes].
    destruct (hex_digit_decodes ((v / 16 ^ Z.of_nat (S (2 * n))) mod 16))
      as [Hs1 Hv1]; [apply Z.mod_pos_bound; lia |].
    destruct (hex_digit_decodes ((v / 16 ^ Z.of_nat (2 * n)) mod 16))
      as [Hs2 Hv2]; [apply Z.mod_pos_bound; lia |].
    rewrite Hs1, Hv1, Hv2, IH. cbn [bind].
    rewrite byte_of_two_digits. reflexivity.
Qed.

Lemma key_hex_16_digits (h : Z) :
  valid_key h -> key_hex h = hex_digits 16 h.
Proof.
  intros [H0 H64]. unfold key_hex, format_016x.
  assert ((h <? 0) = false) as -> by (apply Z.ltb_ge; lia).
  assert (hex_length h <= 16)%nat as Hlen.
  { unfold hex_length. destruct (Z.eqb_spec h 0) as [| Hne]; [lia |].
    assert (Z.log2 h < 64) by (apply Z.log2_lt_pow2; lia).
    pose proof (Z.log2_nonneg h).
    assert (Z.log2 h / 4 < 16) by (apply Z.div_lt_upper_bound; lia).
    pose proof (Z.div_pos (Z.log2 h) 4). lia. }
  rewrite Nat.max_l by exact Hlen. reflexivity.
Qed.

Lemma hex_digits_length (n : nat) (v : Z) :
  String.length (hex_digits n v) = n.
Proof. induction n; cbn [hex_digits String.length]; congruence. Qed.

Lemma fromhex_key_hex (h : Z) :
  valid_key h -> fromhex (key_hex h) = Some (be_bytes 8 h).
Proof.
  intros Hh. rewrite (key_hex_16_digits h Hh).
  change 16%nat with (2 * 8)%nat. apply fromhex_hex_digits.
Qed.

(** X1: for every 64-bit hash, the 16 hex digits [key_hex] produces are
    decoded by [bytes.fromhex] to the 8 big-endian bytes of the hash: the
    position field of an entry is the hash itself. *)
Theorem key_hex_fromhex_roundtrip (h : Z) :
  valid_key h ->
  fromhex (key_hex h) = key_bytes h
  /\ fromhex (key_hex h) = Some (be_bytes 8 h)
  /\ from_bytes (be_bytes 8 h) = h.
Proof.
  intros Hh. rewrite (fromhex_key_hex h Hh).
  assert (key_bytes h = Some (be_bytes 8 h)) as ->.
  { unfold key_bytes. apply to_bytes_Some. split; [exact Hh | reflexivity]. }
  repeat split. apply from_bytes_be_bytes. exact Hh.
Qed.

Lemma key_hex_fromhex_roundtrip_witness :
  valid_key start_key
  /\ fromhex (key_hex start_key) = Some (be_bytes 8 start_key).
Proof.
  assert (valid_key start_key) as H by (unfold valid_key, start_key; lia).
  split; [exact H |].
  exact (proj1 (proj2 (key_hex_fromhex_roundtrip start_key H))).
Defined.

(** X2: on 64-bit hashes [key_hex] returns exactly 16 characters and is
    injective: two boards share a dictionary key of the book only if their
    hashes are equal. *)
Theorem key_hex_injective (h1 h2 : Z) :
  valid_key h1 -> valid_key h2 ->
  String.length (key_hex h1) = 16%nat
  /\ (key_hex h1 = key_hex h2 -> h1 = h2).
Proof.
  intros H1 H2. split.
  - rewrite (key_hex_16_digits h1 H1). apply hex_digits_length.
  - intros Heq.
    pose proof (fromhex_key_hex h1 H1) as E1.
    pose proof (fromhex_key_hex h2 H2) as E2.
    assert (be_bytes 8 h1 = be_bytes 8 h2) as E by congruence.
    rewrite <- (from_bytes_be_bytes 8 h1 H1), <- (from_bytes_be_bytes 8 h2 H2).
    rewrite E. reflexivity.
Qed.

(** ** [save_merged_pgn] *)

Lemma string_app_assoc (a b c : string) :
  ((a ++ b) ++ c = a ++ (b ++ c))%string.
Proof. induction a as [| x a IH]; cbn; [reflexivity | rewrite IH; reflexivity]. Qed.

Lemma string_app_nil_r (a : string) : (a ++ "" = a)%string.
Proof. induction a as [| x a IH]; cbn; [reflexivity | rewrite IH; reflexivity]. Qed.

Lemma ends_with_newline_split (p : string) :
  ends_with_newline p = true ->
  exists body, p = (body ++ String newline EmptyString)%string.
Proof.
  induction p as [| c p IH]; cbn [ends_with_newline]; [discriminate |].
  destruct p as [| c' p'].
  - intros H. apply Ascii.eqb_eq in H as ->. exists EmptyString. reflexivity.
  - intros H. destruct (IH H) as [body Hb]. exists (String c body).
    cbn [append]. rewrite <- Hb. reflexivity.
Qed.

Lemma write_pgn_from (file p : string) :
  write_pgn file p = (file ++ write_pgn EmptyString p)%string.
Proof.
  unfold write_pgn. cbn [append].
  destruct (ends_with_newline p); rewrite ?string_app_assoc; reflexivity.
Qed.

Lemma save_merged_pgn_from (pgn_list : list string) (file : string) :
  fold_left write_pgn pgn_list file
  = (file ++ save_merged_pgn pgn_list)%string.
Proof.
  unfold save_merged_pgn. revert file.
  induction pgn_list as [| p l IH]; intros file; cbn [fold_left].
  - rewrite string_app_nil_r. reflexivity.
  - rewrite (IH (write_pgn file p)), (IH (write_pgn EmptyString p)).
    rewrite (write_pgn_from file p), string_app_assoc. reflexivity.
Qed.

(** X3: [save_merged_pgn] writes the games one after another, each
    followed by an empty line: the text for [l1 ++ l2] is the text for
    [l1] followed by the text for [l2], and the text of a game [p] is [p]
    without its final newline, if it has one, followed by two newlines. *)
Theorem save_merged_pgn_blocks (l1 l2 : list string) (p : string) :
  save_merged_pgn (l1 ++ l2)
  = (save_merged_pgn l1 ++ save_merged_pgn l2)%string
  /\ exists body,
       (p = (body ++ String newline EmptyString)%string
        \/ (p = body /\ ends_with_newline p = false))
       /\ save_merged_pgn (l1 ++ [p])
          = (save_merged_pgn l1 ++ body
             ++ String newline (String newline EmptyString))%string.
Proof.
  assert (forall l l', save_merged_pgn (l ++ l')
                       = (save_merged_pgn l ++ save_merged_pgn l')%string)
    as Happ.
  { intros l l'. unfold save_merged_pgn at 1. rewrite fold_left_app.
    fold (save_merged_pgn l). apply save_merged_pgn_from. }
  split; [apply Happ |].
  rewrite Happ. unfold save_merged_pgn at 2. cbn [fold_left].
  unfold write_pgn. cbn [append].
  destruct (ends_with_newline p) eqn:E.
  - destruct (ends_with_newline_split p E) as [body ->].
    exists body. split; [left; reflexivity |].
    rewrite string_app_assoc. reflexivity.
  - exists p. split; [right; auto |].
    rewrite string_app_assoc. reflexivity.
Qed.

(** ** Ingestion: frame, growth, provenance *)

Section DictFrame.
Context {K V : Type}.
Variable eqb : K -> K -> bool.
Hypothesis eqb_eq : forall a b, eqb a b = true <-> a = b.

Lemma dict_get_update_other (k k' : K) (dflt : V) (f : V -> V)
    (d : list (K * V)) :
  k' <> k ->
  dict_get eqb k' (dict_setdefault_update eqb k dflt f d) = dict_get eqb k' d.
Proof.
  intros Hne.
  assert (eqb k' k = false) as Hk'k.
  { destruct (eqb k' k) eqn:E; [| reflexivity].
    apply eqb_eq in E. contradiction. }
  induction d as [| [k0 v] d IH]; cbn [dict_get dict_setdefault_update].
  - rewrite Hk'k. reflexivity.
  - destruct (eqb k k0) eqn:E; cbn [dict_get].
    + apply eqb_eq in E as <-. rewrite Hk'k. reflexivity.
    + rewrite IH. reflexivity.
Qed.
End DictFrame.

(** A ply touches the [BookMove] of its own position and move only. *)
Lemma record_ply_frame (increment : Scoring) (result : string) (ply : Z)
    (p : Ply) (b : Book) (n : nat) (key : Z) (u : string) :
  (key, u) <> (ply_key p, uci (ply_move p)) ->
  book_lookup key u (fst (record_ply increment result ply p (b, n)))
  = book_lookup key u b.
Proof.
  intros Hne. unfold record_ply, get_position, get_move.
  destruct (increment result (ply_turn p) (decay ply) n) as [inc n'].
  cbn [fst]. unfold book_lookup, lookup_position, lookup_move.
  destruct (Z.eq_dec key (ply_key p)) as [-> | Hk].
  - assert (u <> uci (ply_move p)) as Hu by congruence.
    rewrite (dict_get_update_same Z.eqb Z_eqb_iff). cbn [bind].
    rewrite (dict_get_update_other String.eqb string_eqb_iff) by exact Hu.
    destruct (dict_get Z.eqb (ply_key p) b); reflexivity.
  - rewrite (dict_get_update_other Z.eqb Z_eqb_iff) by exact Hk. reflexivity.
Qed.

Lemma record_ply_grows (increment : Scoring) (result : string) (ply : Z)
    (p : Ply) (b : Book) (n : nat) (key : Z) (u : string) (bm : BookMove) :
  nonneg_scoring increment ->
  book_lookup key u b = Some bm ->
  exists bm',
    book_lookup key u (fst (record_ply increment result ply p (b, n)))
    = Some bm'
    /\ weight bm <= weight bm'.
Proof.
  intros Hinc Hlook.
  destruct (Z.eq_dec key (ply_key p)) as [Hk | Hk];
    [destruct (string_dec u (uci (ply_move p))) as [Hu | Hu] |].
  - subst key u. rewrite record_ply_lookup. eexists. split; [reflexivity |].
    cbn [weight]. unfold book_weight. rewrite Hlook.
    pose proof (Hinc result (ply_turn p) (decay ply) n) as H.
    pose proof (decay_pos ply). lia.
  - rewrite record_ply_frame by congruence. exists bm. split; [exact Hlook | lia].
  - rewrite record_ply_frame by congruence. exists bm. split; [exact Hlook | lia].
Qed.

(** Folding the body of the ply loop over indexed plies. *)
Lemma fold_record_invariant (increment : Scoring) (result : string)
    (Inv : Book -> Prop) (Q : Ply -> Prop) (ips : list (Z * Ply)) :
  (forall i p st, Q p -> Inv (fst st) ->
                  Inv (fst (record_ply increment result i p st))) ->
  Forall (fun ip => Q (snd ip)) ips ->
  forall st, Inv (fst st) ->
  Inv (fst (fold_left
              (fun st ip => record_ply increment result (fst ip) (snd ip) st)
              ips st)).
Proof.
  intros Hstep. induction 1 as [| ip ips Hq _ IH]; intros st Hst;
    cbn [fold_left]; [exact Hst |].
  apply IH. apply Hstep; assumption.
Qed.

Lemma enumerate_from_snd (moves : list Ply) :
  forall i, map snd (enumerate_from i moves) = moves.
Proof.
  induction moves as [| p moves IH]; intros i; cbn [enumerate_from map snd];
    [reflexivity | rewrite IH; reflexivity].
Qed.

(** The game loop as a fold over the plies it reaches. *)
Lemma ingest_game_fold (increment : Scoring) (g : Game) (st : Book * nat) :
  exists ips,
    map snd ips = scored_plies g
    /\ (forall ip, In ip ips -> 0 <= fst ip < MAX_PLY)
    /\ ingest_game increment g st
       = fold_left
           (fun st ip => record_ply increment (result_header g) (fst ip)
                           (snd ip) st) ips st.
Proof.
  unfold ingest_game, scored_plies.
  destruct (variant_matches g).
  - exists (firstn (Z.to_nat MAX_PLY) (enumerate_from 0 (mainline_moves g))).
    split; [| split].
    + rewrite enumerate_from_firstn. apply enumerate_from_snd.
    + assert (forall k moves i ip,
                In ip (firstn k (enumerate_from i moves)) ->
                i <= fst ip < i + Z.of_nat k) as H.
      { induction k as [| k IHk]; intros moves i ip Hin.
        - rewrite firstn_O in Hin. destruct Hin.
        - destruct moves as [| p moves]; [destruct Hin |].
          cbn [enumerate_from firstn] in Hin.
          destruct Hin as [<- | Hin]; [cbn [fst]; lia |].
          apply IHk in Hin. lia. }
      intros ip Hin. apply H in Hin. unfold MAX_PLY in *. lia.
    + rewrite play_from_score by (unfold MAX_PLY; lia).
      rewrite Z.sub_0_r. reflexivity.
  - exists []. split; [reflexivity |]. split; [intros ip [] | reflexivity].
Qed.

(** An invariant of the book kept by every reached ply is kept by the
    whole ingestion. *)
Lemma ingest_invariant (increment : Scoring) (Inv : Book -> Prop)
    (games : list Game) :
  (forall g i p st, In g games -> In p (scored_plies g) -> Inv (fst st) ->
                    Inv (fst (record_ply increment (result_header g) i p st))) ->
  forall st, Inv (fst st) -> Inv (fst (ingest increment games st)).
Proof.
  unfold ingest. induction games as [| g games IH]; intros Hstep st Hst;
    cbn [fold_left]; [exact Hst |].
  apply IH.
  - intros g' i p st' Hg'. apply Hstep. right. exact Hg'.
  - destruct (ingest_game_fold increment g st) as [ips [Hsnd [_ ->]]].
    apply (fold_record_invariant increment (result_header g) Inv
             (fun p => In p (scored_plies g))).
    + intros i p st' Hp. apply Hstep; [left; reflexivity | exact Hp].
    + apply Forall_forall. intros ip Hip. rewrite <- Hsnd.
      apply in_map, Hip.
    + exact Hst.
Qed.

Lemma ingest_grows (increment : Scoring) (games : list Game)
    (st : Book * nat) (key : Z) (u : string) (bm : BookMove) :
  nonneg_scoring increment ->
  book_lookup key u (fst st) = Some bm ->
  exists bm',
    book_lookup key u (fst (ingest increment games st)) = Some bm'
    /\ weight bm <= weight bm'.
Proof.
  intros Hnn Hlook.
  apply (ingest_invariant increment
           (fun b => exists bm', book_lookup key u b = Some bm'
                                 /\ weight bm <= weight bm')).
  - intros g i p [b n] _ _ [bm1 [H1 Hle]]. cbn [fst] in *.
    destruct (record_ply_grows increment (result_header g) i p b n key u bm1
                Hnn H1) as [bm2 [H2 Hle2]].
    exists bm2. split; [exact H2 | lia].
  - exists bm. split; [exact Hlook | lia].
Qed.

Lemma both_scripts_nonneg (rng : nat -> Z) (increment : Scoring) :
  In increment [balanced_increment; win_only_increment rng] ->
  nonneg_scoring increment.
Proof.
  intros [<- | [<- | []]];
    [apply balanced_increment_nonneg | apply win_only_increment_nonneg].
Qed.

(** X4: ingestion only grows the book: a [BookMove] that exists stays, and
    its weight never decreases, whatever games follow (both scoring
    policies). *)
Theorem ingest_never_shrinks (rng : nat -> Z) (increment : Scoring)
    (games : list Game) (st : Book * nat) (key : Z) (u : string)
    (bm : BookMove) :
  In increment [balanced_increment; win_only_increment rng] ->
  book_lookup key u (fst st) = Some bm ->
  exists bm',
    book_lookup key u (fst (ingest increment games st)) = Some bm'
    /\ weight bm <= weight bm'.
Proof.
  intros Hinc Hlook.
  exact (ingest_grows increment games st key u bm
           (both_scripts_nonneg rng increment Hinc) Hlook).
Qed.

(** ** Ingestion: the book holds exactly what was observed *)

Lemma record_ply_provenance (increment : Scoring) (games : list Game)
    (g : Game) (i : Z) (p : Ply) (st : Book * nat) :
  In g games -> In p (scored_plies g) ->
  Forall (fun kp =>
    Forall (fun ubm => exists m, move (snd ubm) = Some m /\ uci m = fst ubm
                                 /\ observed games (fst kp) m) (snd kp))
    (fst st) ->
  Forall (fun kp =>
    Forall (fun ubm => exists m, move (snd ubm) = Some m /\ uci m = fst ubm
                                 /\ observed games (fst kp) m) (snd kp))
    (fst (record_ply increment (result_header g) i p st)).
Proof.
  intros Hg Hp Hall. destruct st as [b n].
  unfold record_ply, get_position, get_move.
  destruct (increment (result_header g) (ply_turn p) (decay i) n) as [inc n'].
  cbn [fst] in *.
  assert (observed games (ply_key p) (ply_move p)) as Hobs.
  { exists g, p. auto. }
  assert (forall pos,
            Forall (fun ubm => exists m, move (snd ubm) = Some m
                                 /\ uci m = fst ubm
                                 /\ observed games (ply_key p) m) pos ->
            Forall (fun ubm => exists m, move (snd ubm) = Some m
                                 /\ uci m = fst ubm
                                 /\ observed games (ply_key p) m)
              (dict_setdefault_update String.eqb (uci (ply_move p))
                 new_BookMove
                 (fun bm => mkBookMove (weight bm + inc) (Some (ply_move p)))
                 pos)) as Hpos.
  { intros pos Hf.
    apply (dict_update_Forall String.eqb string_eqb_iff); [exact Hf | |].
    - intros bm _. exists (ply_move p). cbn [fst snd move]. auto.
    - exists (ply_move p). cbn [fst snd move]. auto. }
  apply (dict_update_Forall Z.eqb Z_eqb_iff); [exact Hall | |].
  - intros pos Hf. cbn [fst snd] in *. apply Hpos, Hf.
  - cbn [fst snd]. apply Hpos. constructor.
Qed.

Lemma fold_record_records (increment : Scoring) (result : string)
    (ips : list (Z * Ply)) (ip : Z * Ply) :
  nonneg_scoring increment -> In ip ips ->
  forall st,
  exists bm,
    book_lookup (ply_key (snd ip)) (uci (ply_move (snd ip)))
      (fst (fold_left
              (fun st ip => record_ply increment result (fst ip) (snd ip) st)
              ips st)) = Some bm.
Proof.
  intros Hnn. induction ips as [| ip0 ips IH]; intros Hin st; [destruct Hin |].
  cbn [fold_left]. destruct Hin as [-> | Hin]; [| apply IH, Hin].
  destruct st as [b n].
  pose proof (record_ply_lookup increment result (fst ip) (snd ip) b n) as H0.
  set (key := ply_key (snd ip)) in *. set (u := uci (ply_move (snd ip))) in *.
  assert (exists bm1,
            book_lookup key u
              (fst (record_ply increment result (fst ip) (snd ip) (b, n)))
            = Some bm1) as Hstart by (eexists; exact H0).
  revert Hstart.
  generalize (record_ply increment result (fst ip) (snd ip) (b, n)).
  clear H0. intros st1 Hstart.
  apply (fold_record_invariant increment result
           (fun b' => exists bm, book_lookup key u b' = Some bm)
           (fun _ => True)).
  - intros i p [b' n'] _ [bm1 H1]. cbn [fst] in *.
    destruct (record_ply_grows increment result i p b' n' key u bm1 Hnn H1)
      as [bm2 [H2 _]].
    exists bm2. exact H2.
  - apply Forall_forall. intros; exact I.
  - exact Hstart.
Qed.

Lemma ingest_records (increment : Scoring) (games : list Game) (g : Game)
    (p : Ply) :
  nonneg_scoring increment -> In g games -> In p (scored_plies g) ->
  forall st,
  exists bm,
    book_lookup (ply_key p) (uci (ply_move p))
      (fst (ingest increment games st)) = Some bm.
Proof.
  intros Hnn. induction games as [| g0 games IH]; intros Hg Hp st;
    [destruct Hg |].
  unfold ingest. cbn [fold_left]. fold (ingest increment games).
  destruct Hg as [-> | Hg]; [| apply IH; assumption].
  destruct (ingest_game_fold increment g st) as [ips [Hsnd [_ ->]]].
  rewrite <- Hsnd in Hp. apply in_map_iff in Hp as [ip [<- Hip]].
  destruct (fold_record_records increment (result_header g) ips ip Hnn Hip st)
    as [bm Hbm].
  destruct (ingest_grows increment games _ _ _ bm Hnn Hbm) as [bm' [H' _]].
  exists bm'. exact H'.
Qed.

(** X5: after ingestion the book holds exactly the observed pairs: every
    stored move was played from its position in one of the first MAX_PLY
    plies of a game of the target variant, and every such ply has its
    [BookMove] under the position key and the UCI string of its move
    (both scoring policies). *)
Theorem book_holds_observed_moves (rng : nat -> Z) (increment : Scoring)
    (games : list Game) (b : Book) (n : nat) :
  In increment [balanced_increment; win_only_increment rng] ->
  ingest increment games (new_Book, O) = (b, n) ->
  (forall key pos u bm,
     In (key, pos) b -> In (u, bm) pos ->
     exists m, move bm = Some m /\ uci m = u /\ observed games key m)
  /\ (forall key m,
        observed games key m ->
        exists bm, book_lookup key (uci m) b = Some bm).
Proof.
  intros Hinc Hing.
  pose proof (both_scripts_nonneg rng increment Hinc) as Hnn. split.
  - pose proof (ingest_invariant increment
                  (fun b => Forall (fun kp =>
                     Forall (fun ubm => exists m, move (snd ubm) = Some m
                                          /\ uci m = fst ubm
                                          /\ observed games (fst kp) m)
                       (snd kp)) b) games) as Hinv.
    specialize (Hinv (fun g i p st Hg Hp H =>
                        record_ply_provenance increment games g i p st Hg Hp H)
                  (new_Book, O) (Forall_nil _)).
    rewrite Hing in Hinv. cbn [fst] in Hinv.
    intros key pos u bm Hkp Hu.
    rewrite Forall_forall in Hinv. specialize (Hinv _ Hkp). cbn [fst snd] in Hinv.
    rewrite Forall_forall in Hinv. exact (Hinv _ Hu).
  - intros key m [g [p [Hg [Hp [<- <-]]]]].
    destruct (ingest_records increment games g p Hnn Hg Hp (new_Book, O))
      as [bm Hbm].
    rewrite Hing in Hbm. exists bm. exact Hbm.
Qed.

(** ** Ingestion: balanced weights add up game by game *)

Lemma balanced_increment_counter (result : string) (turn : Color) (d : Z)
    (n : nat) :
  balanced_increment result turn d n
  = (fst (balanced_increment result turn d O), n).
Proof.
  unfold balanced_increment.
  destruct (String.eqb result "1-0"); [reflexivity |].
  destruct (String.eqb result "0-1"); [reflexivity |].
  destruct (String.eqb result "1/2-1/2"); reflexivity.
Qed.

Lemma book_weight_frame (increment : Scoring) (result : string) (ply : Z)
    (p : Ply) (b : Book) (n : nat) (key : Z) (u : string) :
  (key, u) <> (ply_key p, uci (ply_move p)) ->
  book_weight key u (fst (record_ply increment result ply p (b, n)))
  = book_weight key u b.
Proof.
  intros Hne. unfold book_weight. rewrite record_ply_frame by exact Hne.
  reflexivity.
Qed.

Lemma record_ply_balanced_weight (result : string) (i : Z) (p : Ply)
    (st : Book * nat) (key : Z) (u : string) :
  book_weight key u (fst (record_ply balanced_increment result i p st))
  = book_weight key u (fst st) + balanced_ply_score result key u (i, p).
Proof.
  destruct st as [b n]. unfold balanced_ply_score. cbn [fst snd].
  destruct (Z.eqb_spec (ply_key p) key) as [Hk | Hk];
    [destruct (String.eqb_spec (uci (ply_move p)) u) as [Hu | Hu] |];
    cbn [andb].
  - subst key u. rewrite record_ply_weight.
    rewrite balanced_increment_counter. reflexivity.
  - rewrite book_weight_frame by congruence. lia.
  - rewrite book_weight_frame by congruence. lia.
Qed.

Lemma ingest_game_balanced_weight (g : Game) (st : Book * nat) (key : Z)
    (u : string) :
  book_weight key u (fst (ingest_game balanced_increment g st))
  = book_weight key u (fst st) + balanced_game_score key u g.
Proof.
  unfold ingest_game, balanced_game_score.
  destruct (variant_matches g); [| lia].
  rewrite play_from_score by (unfold MAX_PLY; lia). rewrite Z.sub_0_r.
  generalize (firstn (Z.to_nat MAX_PLY) (enumerate_from 0 (mainline_moves g))).
  intros ips. revert st.
  induction ips as [| [i p] ips IH]; intros st; cbn [fold_left fold_right];
    [lia |].
  rewrite IH. cbn [fst snd]. rewrite record_ply_balanced_weight. lia.
Qed.

Lemma ingest_balanced_weight (games : list Game) (st : Book * nat) (key : Z)
    (u : string) :
  book_weight key u (fst (ingest balanced_increment games st))
  = book_weight key u (fst st)
    + fold_right (fun g acc => balanced_game_score key u g + acc) 0 games.
Proof.
  unfold ingest. revert st.
  induction games as [| g games IH]; intros st; cbn [fold_left fold_right];
    [lia |].
  rewrite IH, ingest_game_balanced_weight. lia.
Qed.

(** X6: in balanced mode the weight a move accumulates is the sum of what
    each game adds on its own, whatever the book already holds: ingesting
    [l1 ++ l2] from the empty book gives every move the sum of its weights
    after [l1] alone and after [l2] alone. *)
Theorem balanced_ingest_merges (l1 l2 : list Game) (key : Z) (u : string) :
  book_weight key u (fst (ingest balanced_increment (l1 ++ l2) (new_Book, O)))
  = book_weight key u (fst (ingest balanced_increment l1 (new_Book, O)))
    + book_weight key u (fst (ingest balanced_increment l2 (new_Book, O))).
Proof.
  rewrite !ingest_balanced_weight. cbn [fst].
  rewrite fold_right_app.
  assert (forall l acc,
            fold_right (fun g a => balanced_game_score key u g + a) acc l
            = fold_right (fun g a => balanced_game_score key u g + a) 0 l + acc)
    as H.
  { induction l as [| g l IH]; intros acc; cbn [fold_right]; [lia |].
    rewrite IH. lia. }
  rewrite H. unfold book_weight, book_lookup. cbn. lia.
Qed.

(** X7: in balanced mode the accumulated weights do not depend on the
    order of the games. *)
Theorem balanced_ingest_order_independent (l l' : list Game) (key : Z)
    (u : string) :
  Permutation l l' ->
  book_weight key u (fst (ingest balanced_increment l (new_Book, O)))
  = book_weight key u (fst (ingest balanced_increment l' (new_Book, O))).
Proof.
  intros Hperm. rewrite !ingest_balanced_weight. f_equal.
  induction Hperm as [| g l l' _ IH | g g' l | l l' l'' _ IH1 _ IH2];
    cbn [fold_right]; lia.
Qed.

(** ** Ingestion: how much a game can add *)

Lemma position_sum_update (u : string) (inc : Z) (m : option Move)
    (pos : BookPosition) :
  position_sum
    (dict_setdefault_update String.eqb u new_BookMove
       (fun bm => mkBookMove (weight bm + inc) m) pos)
  = position_sum pos + inc.
Proof.
  unfold position_sum.
  induction pos as [| [u' bm] pos IH];
    cbn [dict_setdefault_update fold_right snd weight new_BookMove]; [lia |].
  destruct (String.eqb u u'); cbn [fold_right snd weight]; lia.
Qed.

Lemma book_total_update (key : Z) (inc : Z) (f : BookPosition -> BookPosition)
    (b : Book) :
  (forall pos, position_sum (f pos) = position_sum pos + inc) ->
  book_total (dict_setdefault_update Z.eqb key new_BookPosition f b)
  = book_total b + inc.
Proof.
  intros Hf. unfold book_total.
  induction b as [| [k pos] b IH]; cbn [dict_setdefault_update fold_right snd].
  - rewrite Hf. cbn. lia.
  - destruct (Z.eqb key k); cbn [fold_right snd]; [rewrite Hf |]; lia.
Qed.

Lemma record_ply_total (increment : Scoring) (result : string) (ply : Z)
    (p : Ply) (b : Book) (n : nat) :
  book_total (fst (record_ply increment result ply p (b, n)))
  = book_total b + fst (increment result (ply_turn p) (decay ply) n).
Proof.
  unfold record_ply, get_position, get_move.
  destruct (increment result (ply_turn p) (decay ply) n) as [inc n'].
  cbn [fst]. apply book_total_update. intros pos. apply position_sum_update.
Qed.

Lemma play_from_total (increment : Scoring) (result : string)
    (moves : list Ply) :
  bounded_scoring increment ->
  forall ply st, 0 <= ply <= MAX_PLY ->
  book_total (fst st)
  <= book_total (fst (play_from increment result ply moves st))
  <= book_total (fst st) + 6 * decay_sum (Z.to_nat (MAX_PLY - ply)).
Proof.
  intros Hb.
  assert (forall k, 0 <= decay_sum k) as Hds.
  { induction k as [| k IH]; cbn [decay_sum]; [lia |].
    pose proof (decay_pos (MAX_PLY - Z.of_nat (S k))). lia. }
  induction moves as [| p moves IH]; intros ply st Hply; cbn [play_from].
  - specialize (Hds (Z.to_nat (MAX_PLY - ply))). lia.
  - destruct (Z.geb_spec ply MAX_PLY) as [Hge | Hlt].
    + specialize (Hds (Z.to_nat (MAX_PLY - ply))). lia.
    + destruct st as [b n].
      specialize (IH (ply + 1) (record_ply increment result ply p (b, n))
                    ltac:(lia)).
      rewrite record_ply_total in IH.
      pose proof (Hb result (ply_turn p) (decay ply) n) as Hinc.
      pose proof (decay_pos ply).
      replace (Z.to_nat (MAX_PLY - ply))
        with (S (Z.to_nat (MAX_PLY - (ply + 1)))) by lia.
      cbn [decay_sum fst] in *.
      replace (MAX_PLY - Z.of_nat (S (Z.to_nat (MAX_PLY - (ply + 1)))))
        with ply by lia.
      lia.
Qed.

Lemma ingest_total (increment : Scoring) (games : list Game) :
  bounded_scoring increment ->
  forall st,
  book_total (fst st)
  <= book_total (fst (ingest increment games st))
  <= book_total (fst st) + 2076 * Z.of_nat (List.length games).
Proof.
  intros Hb. unfold ingest.
  induction games as [| g games IH]; intros st; cbn [fold_left List.length].
  - lia.
  - specialize (IH (ingest_game increment g st)).
    assert (book_total (fst st)
            <= book_total (fst (ingest_game increment g st))
            <= book_total (fst st) + 2076) as Hg.
    { unfold ingest_game. destruct (variant_matches g); [| lia].
      pose proof (play_from_total increment (result_header g)
                    (mainline_moves g) Hb 0 st ltac:(unfold MAX_PLY; lia)) as H.
      replace (6 * decay_sum (Z.to_nat (MAX_PLY - 0))) with 2076 in H
        by (vm_compute; reflexivity).
      exact H. }
    lia.
Qed.

Lemma balanced_increment_bounded : bounded_scoring balanced_increment.
Proof.
  intros result turn d n Hd. unfold balanced_increment.
  destruct (String.eqb result "1-0");
    [destruct (color_eqb turn WHITE); cbn [fst]; lia |].
  destruct (String.eqb result "0-1");
    [destruct (color_eqb turn BLACK); cbn [fst]; lia |].
  destruct (String.eqb result "1/2-1/2"); cbn [fst]; lia.
Qed.

Lemma win_only_increment_bounded (rng : nat -> Z) :
  bounded_scoring (win_only_increment rng).
Proof.
  intros result turn d n Hd. unfold win_only_increment.
  destruct (_ || _); [| cbn [fst]; lia].
  pose proof (randint_range rng 4 6 n ltac:(lia)) as Hr.
  destruct (randint rng 4 6 n) as [r n']. cbn [fst] in *. nia.
Qed.

Lemma record_ply_weights_nonneg (increment : Scoring) (result : string)
    (i : Z) (p : Ply) (st : Book * nat) :
  nonneg_scoring increment ->
  Forall (fun kp => Forall (fun ubm => 0 <= weight (snd ubm)) (snd kp)) (fst st) ->
  Forall (fun kp => Forall (fun ubm => 0 <= weight (snd ubm)) (snd kp))
    (fst (record_ply increment result i p st)).
Proof.
  intros Hnn Hall. destruct st as [b n].
  unfold record_ply, get_position, get_move.
  pose proof (Hnn result (ply_turn p) (decay i) n) as Hinc.
  destruct (increment result (ply_turn p) (decay i) n) as [inc n'].
  cbn [fst] in *. pose proof (decay_pos i).
  assert (forall pos,
            Forall (fun ubm => 0 <= weight (snd ubm)) pos ->
            Forall (fun ubm => 0 <= weight (snd ubm))
              (dict_setdefault_update String.eqb (uci (ply_move p))
                 new_BookMove
                 (fun bm => mkBookMove (weight bm + inc) (Some (ply_move p)))
                 pos)) as Hpos.
  { intros pos Hf.
    apply (dict_update_Forall String.eqb string_eqb_iff); [exact Hf | |];
      cbn [snd weight new_BookMove]; intros; lia. }
  apply (dict_update_Forall Z.eqb Z_eqb_iff); [exact Hall | |].
  - intros pos Hf. cbn [snd] in *. apply Hpos, Hf.
  - cbn [snd]. apply Hpos. constructor.
Qed.

Lemma position_sum_nonneg (pos : BookPosition) :
  Forall (fun ubm => 0 <= weight (snd ubm)) pos -> 0 <= position_sum pos.
Proof.
  unfold position_sum.
  induction 1 as [| x l Hx _ IH]; cbn [fold_right]; lia.
Qed.

Lemma book_total_cons (kp : Z * BookPosition) (b : Book) :
  book_total (kp :: b) = position_sum (snd kp) + book_total b.
Proof. reflexivity. Qed.

Lemma book_total_nonneg (b : Book) :
  Forall (fun kp => Forall (fun ubm => 0 <= weight (snd ubm)) (snd kp)) b ->
  0 <= book_total b.
Proof.
  induction 1 as [| [k p] b Hkp _ IH]; [unfold book_total; cbn; lia |].
  rewrite book_total_cons. cbn [snd] in *.
  pose proof (position_sum_nonneg _ Hkp). lia.
Qed.

Lemma position_sum_le_total (b : Book) (key : Z) (pos : BookPosition) :
  Forall (fun kp => Forall (fun ubm => 0 <= weight (snd ubm)) (snd kp)) b ->
  In (key, pos) b ->
  0 <= position_sum pos <= book_total b.
Proof.
  induction 1 as [| [k p] b Hkp Hb IH]; intros Hin; [destruct Hin |].
  rewrite book_total_cons. cbn [snd] in *.
  pose proof (position_sum_nonneg _ Hkp) as H1.
  pose proof (book_total_nonneg b Hb) as H2.
  destruct Hin as [Heq | Hin]; [injection Heq as -> ->; lia |].
  specialize (IH Hin). lia.
Qed.

(** X8: a game adds at most 6 * (12 + 5 * (11 + ... + 1) + 4) = 2076 to
    the weights of the book, so after ingestion the sum of all weights,
    and with it the score sum of every position, is at most 2076 times the
    number of games (both scoring policies). *)
Theorem ingest_weight_budget (rng : nat -> Z) (increment : Scoring)
    (games : list Game) (b : Book) (n : nat) :
  In increment [balanced_increment; win_only_increment rng] ->
  ingest increment games (new_Book, O) = (b, n) ->
  0 <= book_total b <= 2076 * Z.of_nat (List.length games)
  /\ forall key pos,
       In (key, pos) b ->
       0 <= position_sum pos <= 2076 * Z.of_nat (List.length games).
Proof.
  intros Hinc Hing.
  assert (bounded_scoring increment) as Hb.
  { destruct Hinc as [<- | [<- | []]];
      [apply balanced_increment_bounded | apply win_only_increment_bounded]. }
  pose proof (both_scripts_nonneg rng increment Hinc) as Hnn.
  pose proof (ingest_total increment games Hb (new_Book, O)) as Htot.
  rewrite Hing in Htot. cbn [fst] in Htot.
  change (book_total new_Book) with 0 in Htot.
  pose proof (ingest_invariant increment
                (fun b => Forall (fun kp =>
                   Forall (fun ubm => 0 <= weight (snd ubm)) (snd kp)) b)
                games
                (fun g i p st _ _ H =>
                   record_ply_weights_nonneg increment (result_header g) i p
                     st Hnn H)
                (new_Book, O) (Forall_nil _)) as Hpos.
  rewrite Hing in Hpos. cbn [fst] in Hpos.
  split; [lia |].
  intros key pos Hkp.
  pose proof (position_sum_le_total b key pos Hpos Hkp). lia.
Qed.

(** ** Normalisation: range and sum of the new weights *)

Section RescaleRange.
Local Open Scope Q_scope.

Lemma rescale_at_most_max (s w v : Z) :
  (0 <= w <= s)%Z -> (0 < s)%Z -> rescale s w = Some v ->
  (1 <= v <= MAX_BOOK_WEIGHT)%Z.
Proof.
  intros Hw Hs Hv.
  destruct (rescale_defined s w Hw Hs) as [Hy0 Hr].
  rewrite Hr in Hv. injection Hv as <-.
  split; [lia |]. apply Z.max_lub; [unfold MAX_BOOK_WEIGHT; lia |].
  set (x := round64 (inject_Z w / inject_Z s)) in *.
  set (y := round64 (x * inject_Z MAX_BOOK_WEIGHT)) in *.
  assert (2 ^ (-53) == 1 # 9007199254740992) as E53 by reflexivity.
  assert (2 ^ (-1075) <= 1 # 9007199254740992) as Htiny
    by (unfold Qle; vm_compute; discriminate).
  destruct (quotient_range w s Hw Hs) as [Hr0 Hr1].
  destruct (round64_range _ 1 Hr0 Hr1) as [Hx0 Hx1].
  fold x in Hx0, Hx1. rewrite E53 in Hx1.
  assert (0 <= x * inject_Z MAX_BOOK_WEIGHT) as Hz0.
  { apply Qmult_le_0_compat; [exact Hx0 | discriminate]. }
  assert (x * inject_Z MAX_BOOK_WEIGHT <= 2520 + (1 # 1000)) as Hz1.
  { change (inject_Z MAX_BOOK_WEIGHT) with 2520. lra. }
  destruct (round64_range _ _ Hz0 Hz1) as [_ Hy1].
  fold y in Hy1. rewrite E53 in Hy1.
  apply Z.lt_succ_r. rewrite Zlt_Qlt.
  eapply Qle_lt_trans; [apply Qfloor_le |].
  unfold MAX_BOOK_WEIGHT, Z.succ. rewrite inject_Z_plus.
  change (inject_Z 2520) with 2520. change (inject_Z 1) with 1. lra.
Qed.
End RescaleRange.

Lemma normalize_position_shape (pos pos' : BookPosition) :
  normalize_position pos = Some pos' ->
  map (fun ubm => (fst ubm, move (snd ubm))) pos'
  = map (fun ubm => (fst ubm, move (snd ubm))) pos.
Proof.
  unfold normalize_position.
  destruct (position_sum pos <=? 0); [intros [= <-]; reflexivity |].
  generalize (position_sum pos). intros s. revert pos'.
  induction pos as [| ubm pos IH]; intros pos' H; cbn [mapM] in H.
  - injection H as <-. reflexivity.
  - apply bind_Some in H as [ubm' [H1 H]].
    apply bind_Some in H as [rest [H2 [= <-]]].
    unfold rescale_move in H1. apply bind_Some in H1 as [w [_ [= <-]]].
    cbn [map fst snd move]. rewrite (IH rest H2). reflexivity.
Qed.

(** X9: in a position whose scores are non-negative with a positive sum,
    normalisation does not raise, keeps the keys, the stored moves and
    their order, and gives every move a weight between 1 and
    MAX_BOOK_WEIGHT: the cap of the jitter pass and of the encoder can only
    be reached through the jitter. *)
Theorem normalize_position_range (pos : BookPosition) :
  Forall (fun ubm => 0 <= weight (snd ubm)) pos ->
  0 < position_sum pos ->
  exists pos',
    normalize_position pos = Some pos'
    /\ map (fun ubm => (fst ubm, move (snd ubm))) pos'
       = map (fun ubm => (fst ubm, move (snd ubm))) pos
    /\ Forall (fun ubm => 1 <= weight (snd ubm) <= MAX_BOOK_WEIGHT) pos'.
Proof.
  intros Hnn Hs.
  destruct (normalize_position_related pos Hnn) as [pos' [Hn HF]].
  exists pos'. split; [exact Hn |].
  split; [apply normalize_position_shape, Hn |].
  assert ((position_sum pos <=? 0) = false) as E by (apply Z.leb_gt; lia).
  apply Forall_forall. intros ubm' Hin.
  destruct (Forall2_In_r _ _ _ _ HF Hin) as [ubm [Hu [_ [_ Hw]]]].
  rewrite E in Hw.
  apply (rescale_at_most_max (position_sum pos) (weight (snd ubm)));
    [apply weight_le_position_sum; assumption | exact Hs | exact Hw].
Qed.

Lemma normalize_position_near_exact (pos : BookPosition) :
  Forall (fun ubm => 0 <= weight (snd ubm)) pos ->
  0 < position_sum pos < 2 ^ 40 ->
  exists pos',
    normalize_position pos = Some pos'
    /\ Forall2
         (fun ubm ubm' =>
            exists v,
              weight (snd ubm') = Z.max 1 v
              /\ weight (snd ubm) * MAX_BOOK_WEIGHT / position_sum pos - 1
                 <= v
                 <= weight (snd ubm) * MAX_BOOK_WEIGHT / position_sum pos)
         pos pos'.
Proof.
  intros Hnn Hs. unfold normalize_position.
  assert ((position_sum pos <=? 0) = false) as -> by (apply Z.leb_gt; lia).
  apply Forall2_weaken_In. intros ubm Hin.
  pose proof (weight_le_position_sum pos ubm Hnn Hin) as Hw.
  destruct (rescale_near_exact (position_sum pos) (weight (snd ubm)) Hw Hs)
    as [v [Hv Hbounds]].
  exists (fst ubm, mkBookMove (Z.max 1 v) (move (snd ubm))).
  unfold rescale_move. rewrite Hv. cbn [bind fst snd weight].
  split; [reflexivity |]. exists v. auto.
Qed.

Lemma normalized_sum_bounds (s : Z) (l l' : BookPosition) :
  0 < s ->
  Forall (fun ubm => 0 <= weight (snd ubm)) l ->
  Forall2
    (fun ubm ubm' =>
       exists v,
         weight (snd ubm') = Z.max 1 v
         /\ weight (snd ubm) * MAX_BOOK_WEIGHT / s - 1 <= v
            <= weight (snd ubm) * MAX_BOOK_WEIGHT / s) l l' ->
  s * (position_sum l' - Z.of_nat (List.length l))
  <= MAX_BOOK_WEIGHT * position_sum l
  /\ MAX_BOOK_WEIGHT * position_sum l + Z.of_nat (List.length l)
     <= s * (position_sum l' + 2 * Z.of_nat (List.length l)).
Proof.
  intros Hs Hnn HF. revert Hnn.
  induction HF as [| [u bm] [u' bm'] l l' [v [Hw' Hv]] _ IH]; intros Hnn.
  - cbn. lia.
  - inversion Hnn as [| ? ? Hw Hnn']; subst. specialize (IH Hnn').
    cbn [snd] in *.
    unfold position_sum in *. cbn [fold_right List.length snd].
    rewrite Nat2Z.inj_succ.
    set (S' := fold_right (fun ubm acc => weight (snd ubm) + acc) 0 l') in *.
    set (S0 := fold_right (fun ubm acc => weight (snd ubm) + acc) 0 l) in *.
    set (n := Z.of_nat (List.length l)) in *.
    set (P := weight bm * MAX_BOOK_WEIGHT / s) in *.
    assert (0 <= P) as HP0
      by (apply Z.div_pos; unfold MAX_BOOK_WEIGHT; lia).
    pose proof (Z.mul_div_le (weight bm * MAX_BOOK_WEIGHT) s Hs) as Hlo.
    pose proof (Z.mul_succ_div_gt (weight bm * MAX_BOOK_WEIGHT) s Hs) as Hhi.
    fold P in Hlo, Hhi. unfold MAX_BOOK_WEIGHT in *.
    assert (weight bm' <= P + 1) as Hup by lia.
    assert (P - 1 <= weight bm') as Hdown by lia.
    split; nia.
Qed.

(** X10: in a position with non-negative scores and a sum S with
    0 < S < 2^40, the new weights add up to more than 2520 - 2n and to at
    most 2520 + n, where n is the number of moves of the position: the
    rounding and the floor of 1 move the total by a few units only. *)
Theorem normalize_position_sum (pos pos' : BookPosition) :
  Forall (fun ubm => 0 <= weight (snd ubm)) pos ->
  0 < position_sum pos < 2 ^ 40 ->
  normalize_position pos = Some pos' ->
  MAX_BOOK_WEIGHT - 2 * Z.of_nat (List.length pos) < position_sum pos'
  /\ position_sum pos' <= MAX_BOOK_WEIGHT + Z.of_nat (List.length pos).
Proof.
  intros Hnn Hs Hn.
  destruct (normalize_position_near_exact pos Hnn Hs) as [pos1 [Hn1 HF]].
  assert (pos1 = pos') as -> by congruence.
  destruct (normalized_sum_bounds (position_sum pos) pos pos' (proj1 Hs) Hnn HF)
    as [Hup Hdown].
  assert (0 < Z.of_nat (List.length pos)) as Hlen.
  { destruct pos; [cbn in Hs; lia | cbn [List.length]; lia]. }
  unfold MAX_BOOK_WEIGHT in *. split; nia.
Qed.

(** ** The jitter pass *)

Lemma combine_append {A B : Type} (l1 l2 : list A) (r1 r2 : list B) :
  List.length l1 = List.length r1 ->
  combine (l1 ++ l2) (r1 ++ r2) = combine l1 r1 ++ combine l2 r2.
Proof.
  revert r1. induction l1 as [| a l1 IH]; intros [| b r1] Hl;
    cbn in *; try discriminate; [reflexivity |].
  f_equal. apply IH. congruence.
Qed.

Section JitterExact.
Variable rng : nat -> Z.


Lemma jitter_position_exact (pos : BookPosition) (n : nat) :
  snd (jitter_position rng pos n) = (n + List.length pos)%nat
  /\ map (fun ubm => (fst ubm, move (snd ubm))) (fst (jitter_position rng pos n))
     = map (fun ubm => (fst ubm, move (snd ubm))) pos
  /\ map (fun ubm => weight (snd ubm)) (fst (jitter_position rng pos n))
     = map (fun iw => Z.min MAX_BOOK_WEIGHT (snd iw + rng (fst iw) mod 4))
         (combine (seq n (List.length pos))
            (map (fun ubm => weight (snd ubm)) pos)).
Proof.
  revert n. induction pos as [| ubm pos IH]; intros n;
    cbn [jitter_position].
  - cbn. repeat split. lia.
  - unfold jitter_move, randint.
    destruct (IH (S n)) as [Hn [Hk Hw]].
    destruct (jitter_position rng pos (S n)) as [pos' n'].
    cbn [fst snd] in *. subst n'.
    split; [cbn [List.length]; lia |].
    cbn [map seq combine List.length fst snd weight move].
    rewrite Hk, Hw. repeat split.
Qed.

Lemma jitter_exact (b : Book) (n : nat) :
  snd (jitter rng b n) = (n + List.length (book_moves b))%nat
  /\ map fst (fst (jitter rng b n)) = map fst b
  /\ map (fun kp => List.length (snd kp)) (fst (jitter rng b n))
     = map (fun kp => List.length (snd kp)) b
  /\ map (fun ubm => (fst ubm, move (snd ubm)))
       (book_moves (fst (jitter rng b n)))
     = map (fun ubm => (fst ubm, move (snd ubm))) (book_moves b)
  /\ map (fun ubm => weight (snd ubm)) (book_moves (fst (jitter rng b n)))
     = map (fun iw => Z.min MAX_BOOK_WEIGHT (snd iw + rng (fst iw) mod 4))
         (combine (seq n (List.length (book_moves b)))
            (map (fun ubm => weight (snd ubm)) (book_moves b))).
Proof.
  unfold book_moves. revert n.
  induction b as [| [key pos] b IH]; intros n; cbn [jitter].
  - cbn. repeat split. lia.
  - destruct (jitter_position_exact pos n) as [Hn1 [Hk1 Hw1]].
    destruct (jitter_position rng pos n) as [pos' n1].
    cbn [fst snd] in *. subst n1.
    destruct (IH (n + List.length pos)%nat) as [Hn2 [Hkeys [Hlen [Hk2 Hw2]]]].
    destruct (jitter rng b (n + List.length pos)) as [b' n2].
    cbn [fst snd map List.concat] in *. subst n2.
    assert (List.length pos' = List.length pos) as Hl.
    { rewrite <- (length_map (fun ubm => (fst ubm, move (snd ubm))) pos'),
        Hk1, length_map. reflexivity. }
    rewrite !map_app, !length_app, Hk1, Hk2, Hw1, Hw2, Hkeys, Hlen, Hl.
    split; [lia |]. split; [reflexivity |]. split; [reflexivity |].
    split; [reflexivity |].
    rewrite seq_app.
    rewrite (combine_append (seq n (List.length pos)))
      by (rewrite length_seq, length_map; reflexivity).
    rewrite map_app. reflexivity.
Qed.
End JitterExact.

(** X11: the jitter pass keeps the positions, the moves and their order,
    consumes one draw per move in iteration order, and turns the weight w
    of the move that gets the i-th draw r_i into min(MAX_BOOK_WEIGHT,
    w + r_i mod 4): the draws are independent per move, a weight of at
    most MAX_BOOK_WEIGHT never decreases, rises by at most 3 and never
    passes the cap. *)
Theorem jitter_draw_by_draw (rng : nat -> Z) (b : Book) (n : nat) :
  snd (jitter rng b n) = (n + List.length (book_moves b))%nat
  /\ map fst (fst (jitter rng b n)) = map fst b
  /\ map (fun kp => List.length (snd kp)) (fst (jitter rng b n))
     = map (fun kp => List.length (snd kp)) b
  /\ map (fun ubm => (fst ubm, move (snd ubm)))
       (book_moves (fst (jitter rng b n)))
     = map (fun ubm => (fst ubm, move (snd ubm))) (book_moves b)
  /\ map (fun ubm => weight (snd ubm)) (book_moves (fst (jitter rng b n)))
     = map (fun iw => Z.min MAX_BOOK_WEIGHT (snd iw + rng (fst iw) mod 4))
         (combine (seq n (List.length (book_moves b)))
            (map (fun ubm => weight (snd ubm)) (book_moves b)))
  /\ forall i w,
       w <= MAX_BOOK_WEIGHT ->
       w <= Z.min MAX_BOOK_WEIGHT (w + rng i mod 4) <= MAX_BOOK_WEIGHT
       /\ Z.min MAX_BOOK_WEIGHT (w + rng i mod 4) <= w + 3.
Proof.
  destruct (jitter_exact rng b n) as [H1 [H2 [H3 [H4 H5]]]].
  repeat (split; [assumption |]).
  intros i w Hw. pose proof (Z.mod_pos_bound (rng i) 4). lia.
Qed.

Lemma jitter_position_zero (rng : nat -> Z) (pos : BookPosition) (n : nat) :
  (forall i, rng i mod 4 = 0) ->
  Forall (fun ubm => weight (snd ubm) <= MAX_BOOK_WEIGHT) pos ->
  fst (jitter_position rng pos n) = pos.
Proof.
  intros Hz Hpos. revert n.
  induction Hpos as [| [u [w m]] pos Hw _ IH]; intros n; cbn [jitter_position];
    [reflexivity |].
  unfold jitter_move, randint. specialize (IH (S n)).
  destruct (jitter_position rng pos (S n)) as [pos' n'].
  cbn [fst snd weight move] in *. subst pos'.
  change (3 - 0 + 1) with 4. rewrite Hz.
  rewrite Z.min_r by lia. rewrite Z.add_0_r. reflexivity.
Qed.

Lemma jitter_zero (rng : nat -> Z) (b : Book) (n : nat) :
  (forall i, rng i mod 4 = 0) ->
  Forall (fun kp => Forall (fun ubm => weight (snd ubm) <= MAX_BOOK_WEIGHT)
                      (snd kp)) b ->
  fst (jitter rng b n) = b.
Proof.
  intros Hz Hb. revert n.
  induction Hb as [| [key pos] b Hpos _ IH]; intros n; cbn [jitter];
    [reflexivity |].
  pose proof (jitter_position_zero rng pos n Hz Hpos) as Hp.
  destruct (jitter_position rng pos n) as [pos' n1]. cbn [fst] in Hp. subst pos'.
  specialize (IH n1). destruct (jitter rng b n1) as [b' n2].
  cbn [fst] in *. subst b'. reflexivity.
Qed.

Lemma normalize_caps (b b1 : Book) :
  Forall (fun kp => Forall (fun ubm => 0 <= weight (snd ubm)) (snd kp)) b ->
  Forall2 position_normalized b b1 ->
  Forall (fun kp => Forall (fun ubm => weight (snd ubm) <= MAX_BOOK_WEIGHT)
                      (snd kp)) b1.
Proof.
  intros Hnn HF. apply Forall_forall. intros [key1 pos1] Hin. cbn [snd].
  destruct (Forall2_In_r _ _ _ _ HF Hin) as [[key pos] [Hkp [_ Hp]]].
  cbn [fst snd] in Hp.
  rewrite Forall_forall in Hnn. specialize (Hnn _ Hkp). cbn [snd] in Hnn.
  apply Forall_forall. intros ubm1 Hu1.
  destruct (Forall2_In_r _ _ _ _ Hp Hu1) as [ubm [Hu [_ [_ Hw]]]].
  pose proof (weight_le_position_sum pos ubm Hnn Hu) as Hle.
  destruct (Z.leb_spec (position_sum pos) 0) as [Hs | Hs].
  - rewrite Hw. unfold MAX_BOOK_WEIGHT. lia.
  - apply (rescale_at_most_max (position_sum pos) (weight (snd ubm)));
      assumption.
Qed.

(** X12: when every jitter draw is 0 the jitter pass changes nothing: the
    run writes the encoding of the normalised book, so in balanced mode
    two runs over the same games with such random sources write the same
    file. *)
Theorem zero_jitter_is_deterministic (rng : nat -> Z) (increment : Scoring)
    (games : list Game) :
  In increment [balanced_increment; win_only_increment rng] ->
  (forall i, rng i mod 4 = 0) ->
  build_book rng increment games
  = (normalized <- normalize (fst (ingest increment games (new_Book, O))) ;;
     save_polyglot normalized)
  /\ forall rng',
       (forall i, rng' i mod 4 = 0) ->
       FilterAndBuild.build_book_from_pgn rng games
       = FilterAndBuild.build_book_from_pgn rng' games.
Proof.
  intros Hinc Hz.
  assert (forall r inc, nonneg_scoring inc -> (forall i, r i mod 4 = 0) ->
            build_book r inc games
            = (normalized <- normalize (fst (ingest inc games (new_Book, O))) ;;
               save_polyglot normalized)) as H.
  { intros r inc Hnn Hr. unfold build_book.
    pose proof (ingest_invariant inc
                  (fun b => Forall (fun kp =>
                     Forall (fun ubm => 0 <= weight (snd ubm)) (snd kp)) b)
                  games
                  (fun g i p st _ _ H =>
                     record_ply_weights_nonneg inc (result_header g) i p
                       st Hnn H)
                  (new_Book, O) (Forall_nil _)) as Hpos.
    destruct (ingest inc games (new_Book, O)) as [b n]. cbn [fst] in *.
    destruct (normalize_related b Hpos) as [b1 [Hn HF]].
    rewrite Hn. cbn [bind].
    rewrite (jitter_zero r b1 n Hr (normalize_caps b b1 Hpos HF)).
    reflexivity. }
  split.
  - apply H; [exact (both_scripts_nonneg rng increment Hinc) | exact Hz].
  - intros rng' Hz'. unfold FilterAndBuild.build_book_from_pgn.
    rewrite (H rng balanced_increment balanced_increment_nonneg Hz).
    rewrite (H rng' balanced_increment balanced_increment_nonneg Hz').
    reflexivity.
Qed.

(** ** The move value determines the move *)

Lemma move_int_parts (m : Move) :
  valid_move m ->
  exists c,
    0 <= c <= 5
    /\ move_int m = to_square m + from_square m * 64 + c * 4096
    /\ c = match promotion m with
           | Some p => piece_type_value p - 1
           | None => 0
           end.
Proof.
  intros [Hf Ht]. unfold valid_square in *. unfold move_int.
  rewrite Z.shiftl_mul_pow2 by lia.
  destruct (promotion m) as [p |].
  - exists (piece_type_value p - 1). rewrite Z.shiftl_mul_pow2 by lia.
    split; [destruct p; cbn; lia |]. split; reflexivity.
  - exists 0. split; [lia |]. split; [lia | reflexivity].
Qed.

(** X13: the 16-bit move value determines the squares of a move and its
    promotion piece, except that a promotion to PAWN (piece value 1, so
    (1 - 1) << 12 = 0) is encoded as no promotion; two moves on squares
    0..63 have the same value exactly when they agree on both squares and
    their promotions are equal or are None and PAWN. *)
Theorem move_int_determines_move (m1 m2 : Move) :
  valid_move m1 -> valid_move m2 ->
  (move_int m1 = move_int m2 <->
   from_square m1 = from_square m2
   /\ to_square m1 = to_square m2
   /\ (promotion m1 = promotion m2
       \/ (promotion m1 = None /\ promotion m2 = Some PAWN)
       \/ (promotion m1 = Some PAWN /\ promotion m2 = None))).
Proof.
  intros H1 H2.
  destruct (move_int_parts m1 H1) as [c1 [Hc1 [E1 P1]]].
  destruct (move_int_parts m2 H2) as [c2 [Hc2 [E2 P2]]].
  destruct H1 as [Hf1 Ht1], H2 as [Hf2 Ht2]. unfold valid_square in *.
  rewrite E1, E2. split.
  - intros Heq.
    assert (to_square m1 = to_square m2 /\ from_square m1 = from_square m2
            /\ c1 = c2) as [Ht [Hf Hc]] by lia.
    split; [exact Hf |]. split; [exact Ht |].
    subst c1 c2.
    destruct (promotion m1) as [[] |], (promotion m2) as [[] |];
      cbn in Hc; try discriminate Hc; auto.
  - intros [Hf [Ht Hp]]. rewrite Hf, Ht.
    assert (c1 = c2) as ->; [| reflexivity].
    subst c1 c2.
    destruct Hp as [-> | [[-> ->] | [-> ->]]]; reflexivity.
Qed.

Lemma move_int_determines_move_witness :
  valid_move (mkMove 52 60 None)
  /\ (move_int (mkMove 52 60 None) = move_int (mkMove 52 60 (Some PAWN)) <->
      52 = 52 /\ 60 = 60
      /\ (@None PieceType = Some PAWN
          \/ (@None PieceType = None /\ Some PAWN = Some PAWN)
          \/ (@None PieceType = Some PAWN /\ Some PAWN = @None PieceType))).
Proof.
  assert (forall p, valid_move (mkMove 52 60 p)) as Hv
    by (intros p; unfold valid_move, valid_square; cbn; lia).
  split; [apply Hv |].
  exact (move_int_determines_move (mkMove 52 60 None)
           (mkMove 52 60 (Some PAWN)) (Hv None) (Hv (Some PAWN))).
Defined.

(** ** The sort keeps the order of collection among equal keys *)

Lemma bytes_compare_refl (a : list Z) : bytes_compare a a = Eq.
Proof.
  induction a as [| x a IH]; cbn [bytes_compare]; [reflexivity |].
  rewrite Z.compare_refl. exact IH.
Qed.

Lemma bytes_compare_Eq (a b : list Z) : bytes_compare a b = Eq -> a = b.
Proof.
  revert b. induction a as [| x a IH]; intros [| y b]; cbn [bytes_compare];
    try discriminate; [reflexivity |].
  destruct (Z.compare_spec x y) as [-> | |]; try discriminate.
  intros H. f_equal. apply IH, H.
Qed.

Lemma same_sort_key_iff (e0 e : Entry) :
  same_sort_key e0 e = true <-> sort_key e = sort_key e0.
Proof.
  unfold same_sort_key, key_compare. split.
  - destruct (bytes_compare (fst (sort_key e)) (fst (sort_key e0))) eqn:H1;
      try discriminate.
    destruct (bytes_compare (snd (sort_key e)) (snd (sort_key e0))) eqn:H2;
      try discriminate.
    intros _. apply bytes_compare_Eq in H1, H2.
    destruct (sort_key e), (sort_key e0). cbn [fst snd] in *. congruence.
  - intros ->. rewrite !bytes_compare_refl. reflexivity.
Qed.

Lemma insert_entry_stable (e0 e : Entry) (l : list Entry) :
  filter (same_sort_key e0) (insert_entry e l)
  = filter (same_sort_key e0) (e :: l).
Proof.
  induction l as [| e' l IH]; cbn [insert_entry]; [reflexivity |].
  destruct (entry_le e e') eqn:Hle; [reflexivity |].
  cbn [filter] in *. rewrite IH.
  destruct (same_sort_key e0 e) eqn:He; [| reflexivity].
  destruct (same_sort_key e0 e') eqn:He'; [| reflexivity].
  apply same_sort_key_iff in He, He'.
  exfalso. revert Hle. unfold entry_le, key_compare.
  rewrite He, He', !bytes_compare_refl. discriminate.
Qed.

Lemma sort_entries_stable (e0 : Entry) (l : list Entry) :
  filter (same_sort_key e0) (sort_entries l) = filter (same_sort_key e0) l.
Proof.
  induction l as [| e l IH]; cbn [sort_entries fold_right]; [reflexivity |].
  fold (sort_entries l). rewrite insert_entry_stable.
  cbn [filter]. rewrite IH. reflexivity.
Qed.

(** X14: the file is a rearrangement of the collected entries, nothing
    added or lost, and the sort is stable: the entries that share a sort
    key (the same hash bytes and the same weight bytes) stand in the
    output in the order in which the nested loops collected them. *)
Theorem save_polyglot_is_stable (b : Book) (es : list Entry) :
  save_polyglot b = Some es ->
  collect_entries b = Some (expected_entries b)
  /\ Permutation (expected_entries b) es
  /\ forall e0,
       filter (same_sort_key e0) es
       = filter (same_sort_key e0) (expected_entries b).
Proof.
  intros Hsave. pose proof Hsave as Hspec.
  apply save_polyglot_spec in Hspec as [_ Hes].
  unfold save_polyglot in Hsave.
  apply bind_Some in Hsave as [cs [Hcs [= Hsort]]].
  assert (cs = expected_entries b) as ->.
  { apply collect_entries_spec in Hcs as [_ ->]. reflexivity. }
  split; [exact Hcs |]. subst es. split.
  - apply Permutation_sym, sort_entries_perm.
  - intros e0. apply sort_entries_stable.
Qed.

Lemma save_polyglot_is_stable_witness :
  collect_entries sample_book = Some (expected_entries sample_book)
  /\ Permutation (expected_entries sample_book)
       (sort_entries (expected_entries sample_book))
  /\ forall e0,
       filter (same_sort_key e0) (sort_entries (expected_entries sample_book))
       = filter (same_sort_key e0) (expected_entries sample_book).
Proof.
  apply (save_polyglot_is_stable sample_book). vm_compute. reflexivity.
Defined.

(** ** Nothing in the output that no game played *)

Section OutputProvenance.
Variable rng : nat -> Z.
Variable increment : Scoring.
Hypothesis increment_nonneg : nonneg_scoring increment.

Lemma output_provenance (games : list Game) (es : list Entry) (e : Entry) :
  Forall valid_game games ->
  build_book rng increment games = Some es ->
  In e es ->
  List.length e = 16%nat
  /\ exists m,
       observed games (entry_hash e) m /\ entry_move e = move_int m.
Proof.
  intros Hgames Hbuild He.
  destruct (ingest increment games (new_Book, O)) as [b n] eqn:Hing.
  destruct (build_book_spec rng increment increment_nonneg games b n
              Hgames Hing) as [[_ Hok] [b2 [HF Hout]]].
  rewrite Hout in Hbuild. injection Hbuild as <-.
  apply (proj1 (sort_entries_In _ _)) in He.
  pose proof (finished_encodable b b2 HF Hok) as Henc.
  destruct (expected_entry_shape b2 e Henc He)
    as [key [pos2 [ubm2 [m [Hkp2 [Hu2 [Hm [_ [Hkey [Hmi ->]]]]]]]]]].
  split; [reflexivity |].
  rewrite entry_hash_make_entry by exact Hkey.
  rewrite entry_move_make_entry by exact Hmi.
  exists m. split; [| reflexivity].
  destruct (Forall2_In_r _ _ _ _ HF Hkp2) as [[key0 pos] [Hkp [Hk Hp]]].
  cbn [fst snd] in Hk, Hp. subst key0.
  destruct (Forall2_In_r _ _ _ _ Hp Hu2) as [ubm [Hu [_ [Hmove _]]]].
  pose proof (ingest_invariant increment
                (fun b => Forall (fun kp =>
                   Forall (fun ubm => exists m, move (snd ubm) = Some m
                                        /\ uci m = fst ubm
                                        /\ observed games (fst kp) m)
                     (snd kp)) b) games
                (fun g i p st Hg Hp H =>
                   record_ply_provenance increment games g i p st Hg Hp H)
                (new_Book, O) (Forall_nil _)) as Hinv.
  rewrite Hing in Hinv. cbn [fst] in Hinv.
  rewrite Forall_forall in Hinv. specialize (Hinv _ Hkp). cbn [fst snd] in Hinv.
  rewrite Forall_forall in Hinv. destruct (Hinv _ Hu) as [m' [Hm' [_ Hobs]]].
  rewrite Hmove, Hm' in Hm. injection Hm as ->. exact Hobs.
Qed.
End OutputProvenance.

(** X15: every entry either script writes comes from the games: it has
    16 bytes, its hash is the key of a position and its move value the
    code of a move that some game of the target variant played from that
    position within its first MAX_PLY plies. *)
Theorem output_holds_only_played_moves (rng : nat -> Z)
    (increment : Scoring) (games : list Game) (es : list Entry)
    (e : Entry) :
  In increment [balanced_increment; win_only_increment rng] ->
  Forall valid_game games ->
  build_book rng increment games = Some es ->
  In e es ->
  List.length e = 16%nat
  /\ exists m,
       observed games (entry_hash e) m /\ entry_move e = move_int m.
Proof.
  intros Hinc. apply output_provenance.
  exact (both_scripts_nonneg rng increment Hinc).
Qed.

(** ** Fetching: what the kept list holds *)

Section FetchFacts.
Variable remembers : string -> bool.
Variable rating_passes : GameJson -> bool.
Variable source : GameJson -> Prop.

Lemma existsb_eqb_In (s : string) (l : list string) :
  existsb (String.eqb s) l = false -> ~ In s l.
Proof.
  intros H Hin.
  assert (existsb (String.eqb s) l = true) as Ht.
  { apply existsb_exists. exists s. split; [exact Hin | apply String.eqb_refl]. }
  congruence.
Qed.

Lemma note_created_at_fields (c : option Z) (st : Fetch) :
  all_pgns (note_created_at c st) = all_pgns st
  /\ seen_ids (note_created_at c st) = seen_ids st
  /\ kept (note_created_at c st) = kept st
  /\ batch_count (note_created_at c st) = batch_count st
  /\ total_lines (note_created_at c st) = total_lines st.
Proof.
  unfold note_created_at.
  destruct c as [c |]; [| repeat split].
  destruct (earliest_ts st) as [e |]; [| repeat split].
  destruct (c <? e); repeat split.
Qed.

Lemma kept_games_seen (st st2 : Fetch) (gs : list GameJson) :
  all_pgns st2 = all_pgns st -> kept st2 = kept st ->
  (forall s, In s (seen_ids st) -> In s (seen_ids st2)) ->
  kept_games remembers rating_passes source st gs ->
  kept_games remembers rating_passes source st2 gs.
Proof.
  intros Hp Hk Hs [H1 [H2 [H3 [H4 H5]]]].
  unfold kept_games. rewrite Hp, Hk.
  repeat (split; [assumption |]). split; [| exact H5].
  eapply Forall_impl; [| exact H4]. cbn. intros g Hg Hr. apply Hs, Hg, Hr.
Qed.

Lemma filter_snoc {A : Type} (f : A -> bool) (l : list A) (a : A) :
  filter f (l ++ [a]) = filter f l ++ (if f a then [a] else []).
Proof.
  induction l as [| x l IH]; cbn [app filter]; [destruct (f a); reflexivity |].
  rewrite IH. destruct (f x); reflexivity.
Qed.

Lemma NoDup_snoc {A : Type} (l : list A) (a : A) :
  NoDup l -> ~ In a l -> NoDup (l ++ [a]).
Proof.
  intros Hl Ha. induction Hl as [| x l Hx Hl IH]; cbn [app].
  - constructor; [intros [] | constructor].
  - constructor.
    + rewrite in_app_iff. intros [H | [H | []]]; [exact (Hx H) |].
      apply Ha. left. symmetry. exact H.
    + apply IH. intros H. apply Ha. right. exact H.
Qed.

(** The body of the loop for a game whose id is new. *)
Lemma keep_pgn_kept_games (game : GameJson) (st : Fetch)
    (gs : list GameJson) :
  source game ->
  ~ In (json_id game) (seen_ids st) ->
  kept_games remembers rating_passes source st gs ->
  let st2 :=
    note_created_at (json_created_at game)
      (if remembers (json_id game) then add_seen (json_id game) st
       else st) in
  kept_games remembers rating_passes source st2 gs
  /\ (rating_passes game = true ->
      forall v, json_variant game = Some v -> variant_tag_matches v = true ->
      exists gs',
        kept_games remembers rating_passes source
          (keep_pgn (json_pgn game) st2) (gs ++ gs')
        /\ (List.length gs' <= 1)%nat).
Proof.
  intros Hsrc Hnew Hkept st2.
  destruct (note_created_at_fields (json_created_at game)
              (if remembers (json_id game) then add_seen (json_id game) st
               else st)) as [Hp [Hs [Hk _]]].
  fold st2 in Hp, Hs, Hk.
  assert (all_pgns st2 = all_pgns st) as Hp'
    by (rewrite Hp; destruct (remembers (json_id game)); reflexivity).
  assert (kept st2 = kept st) as Hk'
    by (rewrite Hk; destruct (remembers (json_id game)); reflexivity).
  assert (forall s, In s (seen_ids st) -> In s (seen_ids st2)) as Hs'.
  { intros s Hin. rewrite Hs. destruct (remembers (json_id game));
      [right |]; exact Hin. }
  pose proof (kept_games_seen st st2 gs Hp' Hk' Hs' Hkept) as Hkept2.
  split; [exact Hkept2 |].
  intros Hrate v Hv Hvar. unfold keep_pgn.
  destruct (String.eqb_spec (json_pgn game) "") as [Hempty | Hpgn].
  - exists []. rewrite app_nil_r. split; [exact Hkept2 | cbn; lia].
  - exists [game]. split; [| cbn; lia].
    destruct Hkept2 as [H1 [H2 [H3 [H4 H5]]]].
    unfold kept_games. cbn [all_pgns kept seen_ids].
    rewrite map_app, length_app, H1, H2. cbn [map List.length].
    split; [reflexivity |]. split; [lia |]. split.
    { apply Forall_app. split; [exact H3 |]. constructor; [| constructor].
      split; [exact Hsrc |]. split; [exact Hpgn |]. split; [exact Hrate |].
      exists v. split; assumption. }
    split.
    { apply Forall_app. split; [exact H4 |]. constructor; [| constructor].
      intros Hr. rewrite Hs, Hr. left. reflexivity. }
    rewrite map_app, filter_app. cbn [map filter].
    destruct (remembers (json_id game)) eqn:Hr;
      [| rewrite app_nil_r; exact H5].
    apply NoDup_snoc; [exact H5 |].
    intros Hin. apply filter_In in Hin as [Hin _].
    apply in_map_iff in Hin as [g [Hid Hg]].
    destruct Hkept as [_ [_ [_ [H4' _]]]].
    rewrite Forall_forall in H4'. specialize (H4' g Hg).
    rewrite Hid in H4'. exact (Hnew (H4' Hr)).
Qed.

Lemma count_line_kept_games (st : Fetch) (gs : list GameJson) :
  kept_games remembers rating_passes source st gs ->
  kept_games remembers rating_passes source (count_line st) gs.
Proof. apply kept_games_seen; auto. Qed.

Lemma kept_games_length (st : Fetch) (gs : list GameJson) :
  kept_games remembers rating_passes source st gs ->
  List.length (all_pgns st) = List.length gs.
Proof. intros [-> _]. apply length_map. Qed.

Lemma iter_lines_kept_games (lines : list Line) :
  (forall game, In (JsonLine game) lines -> source game) ->
  forall st st' gs,
    kept_games remembers rating_passes source st gs ->
    Z.of_nat (List.length gs) < MAX_GAMES ->
    iter_lines remembers rating_passes lines st = Some st' ->
    exists gs',
      kept_games remembers rating_passes source st' (gs ++ gs')
      /\ Z.of_nat (List.length (gs ++ gs')) <= MAX_GAMES.
Proof.
  induction lines as [| l lines IH]; intros Hsrc st st' gs Hkept Hlen Hrun.
  - cbn in Hrun. injection Hrun as <-. exists []. rewrite app_nil_r.
    split; [exact Hkept | lia].
  - assert (forall game, In (JsonLine game) lines -> source game) as Hsrc'
      by (intros game Hin; apply Hsrc; right; exact Hin).
    destruct l as [| | | game]; cbn [iter_lines] in Hrun.
    + exact (IH Hsrc' st st' gs Hkept Hlen Hrun).
    + exact (IH Hsrc' _ st' gs (count_line_kept_games st gs Hkept) Hlen Hrun).
    + discriminate Hrun.
    + pose proof (count_line_kept_games st gs Hkept) as Hkept1.
      destruct (existsb (String.eqb (json_id game)) (seen_ids (count_line st)))
        eqn:Hseen; [exact (IH Hsrc' _ st' gs Hkept1 Hlen Hrun) |].
      apply existsb_eqb_In in Hseen.
      destruct (keep_pgn_kept_games game (count_line st) gs
                  (Hsrc game (or_introl eq_refl)) Hseen Hkept1)
        as [Hkept2 Hkeep].
      destruct (rating_passes game);
        [| exact (IH Hsrc' _ st' gs Hkept2 Hlen Hrun)].
      cbn [negb] in Hrun.
      destruct (json_variant game) as [v |]; [| discriminate Hrun].
      destruct (variant_tag_matches v) eqn:Hvar;
        [| exact (IH Hsrc' _ st' gs Hkept2 Hlen Hrun)].
      cbn [negb] in Hrun.
      destruct (Hkeep eq_refl v eq_refl Hvar) as [gs1 [Hkept3 Hone]].
      match type of Hrun with
      | (if cap_reached ?s then _ else _) = _ =>
          destruct (cap_reached s) eqn:Hcap
      end.
      * injection Hrun as <-. exists gs1. split; [exact Hkept3 |].
        rewrite length_app. lia.
      * unfold cap_reached in Hcap.
        rewrite (kept_games_length _ _ Hkept3) in Hcap.
        apply Z.leb_gt in Hcap.
        destruct (IH Hsrc' _ st' (gs ++ gs1) Hkept3 Hcap Hrun)
          as [gs2 [Hkept4 Hlen4]].
        exists (gs1 ++ gs2). rewrite app_assoc. split; assumption.
Qed.

Lemma new_chunk_kept_games (st : Fetch) (gs : list GameJson) :
  kept_games remembers rating_passes source st gs ->
  kept_games remembers rating_passes source (new_chunk st) gs.
Proof. apply kept_games_seen; auto. Qed.
End FetchFacts.

Lemma request_loop_kept_games (remembers : string -> bool)
    (rating_passes : GameJson -> bool)
    (server : nat -> option Z -> option (list Line)) (fuel : nat) :
  forall i until_ts st gs pgns,
    kept_games remembers rating_passes (served server) st gs ->
    Z.of_nat (List.length gs) < MAX_GAMES ->
    request_loop remembers rating_passes fuel server i until_ts st
    = Returned pgns ->
    exists gs',
      pgns = map json_pgn gs'
      /\ Z.of_nat (List.length gs') <= MAX_GAMES
      /\ Forall (fun g => served server g /\ passes_filters rating_passes g)
           gs'
      /\ NoDup (filter remembers (map json_id gs')).
Proof.
  induction fuel as [| fuel IH]; intros i until_ts st gs pgns Hkept Hlen Hrun;
    cbn [request_loop] in Hrun; [discriminate Hrun |].
  destruct (server i until_ts) as [lines |] eqn:Hresp; [| discriminate Hrun].
  destruct (iter_lines remembers rating_passes lines (new_chunk st))
    as [st' |] eqn:Hiter; [| discriminate Hrun].
  destruct (iter_lines_kept_games remembers rating_passes (served server)
              lines
              (fun game Hin => ex_intro _ i (ex_intro _ until_ts
                 (ex_intro _ lines (conj Hresp Hin))))
              (new_chunk st) st' gs
              (new_chunk_kept_games _ _ _ st gs Hkept) Hlen Hiter)
    as [gs' [Hkept' Hlen']].
  assert (exists gs0,
            all_pgns st' = map json_pgn gs0
            /\ Z.of_nat (List.length gs0) <= MAX_GAMES
            /\ Forall (fun g => served server g
                                /\ passes_filters rating_passes g) gs0
            /\ NoDup (filter remembers (map json_id gs0))) as Hdone.
  { exists (gs ++ gs'). destruct Hkept' as [H1 [_ [H3 [_ H5]]]].
    repeat split; assumption. }
  destruct (earliest_ts st') as [e |].
  - destruct ((batch_count st' =? 0) || cap_reached st') eqn:Hstop.
    + injection Hrun as <-. exact Hdone.
    + apply orb_false_iff in Hstop as [_ Hcap].
      unfold cap_reached in Hcap.
      rewrite (kept_games_length _ _ _ _ _ Hkept') in Hcap.
      apply Z.leb_gt in Hcap.
      exact (IH _ _ _ _ _ Hkept' Hcap Hrun).
  - injection Hrun as <-. exact Hdone.
Qed.

Lemma new_Fetch_kept_games (remembers : string -> bool)
    (rating_passes : GameJson -> bool) (source : GameJson -> Prop) :
  kept_games remembers rating_passes source new_Fetch [].
Proof.
  unfold kept_games, new_Fetch. cbn.
  repeat split; constructor.
Qed.

Lemma fetch_all_games_kept (remembers : string -> bool)
    (rating_passes : GameJson -> bool)
    (server : nat -> option Z -> option (list Line)) (fuel : nat)
    (pgns : list string) :
  fetch_all_games remembers rating_passes fuel server = Returned pgns ->
  exists gs,
    pgns = map json_pgn gs
    /\ Z.of_nat (List.length gs) <= MAX_GAMES
    /\ Forall (fun g => served server g /\ passes_filters rating_passes g) gs
    /\ NoDup (filter remembers (map json_id gs)).
Proof.
  apply (request_loop_kept_games remembers rating_passes server fuel O None
           new_Fetch []).
  - apply new_Fetch_kept_games.
  - cbn. unfold MAX_GAMES. lia.
Qed.

(** X16: whatever the server sends, a call that returns hands back at
    most MAX_GAMES PGNs, none of them empty; and the counter [kept] that
    the messages print is the length of the list: one pass over a
    response that starts with [kept = len(all_pgns) < MAX_GAMES] ends
    with [kept = len(all_pgns) <= MAX_GAMES] (both scripts). *)
Theorem fetch_keeps_at_most_max_games (remembers : string -> bool)
    (rating_passes : GameJson -> bool) :
  (forall fuel server pgns,
     fetch_all_games remembers rating_passes fuel server = Returned pgns ->
     Z.of_nat (List.length pgns) <= MAX_GAMES
     /\ Forall (fun p => p <> EmptyString) pgns)
  /\ (forall lines st st',
        kept st = Z.of_nat (List.length (all_pgns st)) ->
        Z.of_nat (List.length (all_pgns st)) < MAX_GAMES ->
        iter_lines remembers rating_passes lines st = Some st' ->
        kept st' = Z.of_nat (List.length (all_pgns st'))
        /\ Z.of_nat (List.length (all_pgns st')) <= MAX_GAMES
        /\ exists added, all_pgns st' = all_pgns st ++ added).
Proof.
  split.
  - intros fuel server pgns Hrun.
    destruct (fetch_all_games_kept remembers rating_passes server fuel pgns
                Hrun) as [gs [-> [Hlen [Hall _]]]].
    rewrite length_map. split; [exact Hlen |].
    apply Forall_map. eapply Forall_impl; [| exact Hall].
    cbn. intros g [_ [Hp _]]. exact Hp.
  - intros lines. induction lines as [| l lines IH]; intros st st' Hk Hlen Hrun.
    + cbn in Hrun. injection Hrun as <-.
      split; [exact Hk |]. split; [lia |]. exists []. symmetry. apply app_nil_r.
    + destruct l as [| | | game]; cbn [iter_lines] in Hrun.
      * exact (IH st st' Hk Hlen Hrun).
      * exact (IH (count_line st) st' Hk Hlen Hrun).
      * discriminate Hrun.
      * destruct (existsb (String.eqb (json_id game))
                    (seen_ids (count_line st)));
          [exact (IH (count_line st) st' Hk Hlen Hrun) |].
        destruct (note_created_at_fields (json_created_at game)
                    (if remembers (json_id game)
                     then add_seen (json_id game) (count_line st)
                     else count_line st)) as [Hp [_ [Hkept _]]].
        match type of Hp with
        | all_pgns ?s = _ => set (st2 := s) in *
        end.
        assert (all_pgns st2 = all_pgns st) as Hp2
          by (rewrite Hp; destruct (remembers (json_id game)); reflexivity).
        assert (kept st2 = kept st) as Hk2
          by (rewrite Hkept; destruct (remembers (json_id game)); reflexivity).
        assert (forall st',
                  iter_lines remembers rating_passes lines st2 = Some st' ->
                  kept st' = Z.of_nat (List.length (all_pgns st'))
                  /\ Z.of_nat (List.length (all_pgns st')) <= MAX_GAMES
                  /\ exists added, all_pgns st' = all_pgns st ++ added)
          as Hskip.
        { intros s Hs. rewrite <- Hp2. apply IH; [| | exact Hs].
          - rewrite Hk2, Hp2. exact Hk.
          - rewrite Hp2. exact Hlen. }
        destruct (rating_passes game); [| exact (Hskip st' Hrun)].
        cbn [negb] in Hrun.
        destruct (json_variant game) as [v |]; [| discriminate Hrun].
        destruct (variant_tag_matches v); [| exact (Hskip st' Hrun)].
        cbn [negb] in Hrun.
        unfold keep_pgn in Hrun.
        destruct (String.eqb (json_pgn game) "").
        { destruct (cap_reached st2) eqn:Hcap; [| exact (Hskip st' Hrun)].
          injection Hrun as <-. rewrite Hk2, Hp2.
          split; [exact Hk |]. split; [lia |].
          exists []. symmetry. apply app_nil_r. }
        match type of Hrun with
        | (if cap_reached ?s then _ else _) = _ =>
            set (st3 := s) in *; destruct (cap_reached st3) eqn:Hcap
        end.
        { injection Hrun as <-. subst st3. cbn [kept all_pgns].
          rewrite Hk2, Hp2, length_app. cbn [List.length].
          split; [lia |]. split; [lia |]. exists [json_pgn game]. reflexivity. }
        unfold cap_reached in Hcap. apply Z.leb_gt in Hcap.
        destruct (IH st3 st') as [H1 [H2 [added H3]]]; [| exact Hcap | exact Hrun |].
        { subst st3. cbn [kept all_pgns]. rewrite Hk2, Hp2, length_app.
          cbn [List.length]. lia. }
        split; [exact H1 |]. split; [exact H2 |].
        exists ([json_pgn game] ++ added). rewrite H3. subst st3.
        cbn [all_pgns]. rewrite Hp2, <- app_assoc. reflexivity.
Qed.

(** X17: every PGN [filter_and_build.py] keeps was sent by the server in
    a JSON line whose two ratings could be read and are both at most
    MAX_ELO and whose variant tag, lowercased and without spaces, holds
    VARIANT; [weakest-book.py] keeps a PGN under the same conditions
    without the rating test. *)
Theorem fetch_keeps_only_filtered_games
    (server : nat -> option Z -> option (list Line)) (fuel : nat)
    (pgns : list string) (p : string) :
  In p pgns ->
  (FilterAndBuild.fetch_all_games_for_bot fuel server = Returned pgns ->
   exists game white_rating black_rating v,
     served server game /\ json_pgn game = p
     /\ json_ratings game = Some (white_rating, black_rating)
     /\ white_rating <= MAX_ELO /\ black_rating <= MAX_ELO
     /\ json_variant game = Some v
     /\ contains VARIANT (remove_spaces (lower v)) = true)
  /\ (WeakestBook.fetch_all_games_for_bot fuel server = Returned pgns ->
      exists game v,
        served server game /\ json_pgn game = p
        /\ json_variant game = Some v
        /\ contains VARIANT (remove_spaces (lower v)) = true).
Proof.
  intros Hp. split; intros Hrun;
    apply fetch_all_games_kept in Hrun as [gs [-> [_ [Hall _]]]];
    apply in_map_iff in Hp as [game [Hpgn Hg]];
    rewrite Forall_forall in Hall;
    destruct (Hall game Hg) as [Hsrv [_ [Hrate [v [Hv Hvar]]]]].
  - unfold FilterAndBuild.rating_passes in Hrate.
    destruct (json_ratings game) as [[w b] |] eqn:Hr; [| discriminate Hrate].
    exists game, w, b, v.
    apply negb_true_iff, Z.ltb_ge in Hrate.
    split; [exact Hsrv |]. split; [exact Hpgn |]. split; [exact Hr |].
    split; [lia |]. split; [lia |]. split; [exact Hv | exact Hvar].
  - exists game, v. repeat (split; [assumption |]). exact Hvar.
Qed.

(** X18: within one call no game is kept twice as far as ids tell:
    the games behind the list [filter_and_build.py] returns have pairwise
    different ids except for those without id, which are never taken for
    duplicates; in [weakest-book.py] all ids are pairwise different, the
    empty one included, so at most one game without id is kept. *)
Theorem fetch_drops_repeated_ids
    (server : nat -> option Z -> option (list Line)) (fuel : nat)
    (pgns : list string) :
  (FilterAndBuild.fetch_all_games_for_bot fuel server = Returned pgns ->
   exists gs,
     pgns = map json_pgn gs /\ Forall (served server) gs
     /\ NoDup (filter (fun gid => negb (String.eqb gid ""))
                 (map json_id gs)))
  /\ (WeakestBook.fetch_all_games_for_bot fuel server = Returned pgns ->
      exists gs,
        pgns = map json_pgn gs /\ Forall (served server) gs
        /\ NoDup (map json_id gs)
        /\ (List.length (filter (fun g => String.eqb (json_id g) "") gs)
            <= 1)%nat).
Proof.
  split; intros Hrun;
    apply fetch_all_games_kept in Hrun as [gs [-> [_ [Hall Hnd]]]];
    exists gs; (split; [reflexivity |]);
    (split; [eapply Forall_impl; [| exact Hall]; cbn; tauto |]).
  - exact Hnd.
  - assert (filter WeakestBook.remembers (map json_id gs) = map json_id gs)
      as Hf by (apply forallb_filter_id, forallb_forall; reflexivity).
    rewrite Hf in Hnd. split; [exact Hnd |].
    clear Hall Hf. induction gs as [| g gs IH]; cbn [filter List.length];
      [lia |].
    cbn [map] in Hnd. inversion Hnd as [| ? ? Hg Hnd']; subst.
    specialize (IH Hnd').
    destruct (String.eqb_spec (json_id g) "") as [He |]; [| exact IH].
    cbn [List.length].
    destruct (filter (fun g0 => String.eqb (json_id g0) "") gs)
      as [| g' rest] eqn:Hfil; [cbn; lia |].
    exfalso. apply Hg.
    assert (In g' (filter (fun g0 => String.eqb (json_id g0) "") gs)) as Hin
      by (rewrite Hfil; left; reflexivity).
    apply filter_In in Hin as [Hin Hid].
    apply String.eqb_eq in Hid. rewrite He, <- Hid.
    apply in_map. exact Hin.
Qed.

(** ** Fetching: the loop ends *)

Section FetchEnds.
Variable remembers : string -> bool.
Variable rating_passes : GameJson -> bool.

Lemma iter_lines_total (lines : list Line) :
  Forall line_readable lines ->
  forall st, exists st', iter_lines remembers rating_passes lines st = Some st'.
Proof.
  induction 1 as [| l lines Hl _ IH]; intros st; cbn [iter_lines];
    [eexists; reflexivity |].
  destruct l as [| | | game]; cbn [line_readable] in Hl;
    [apply IH | apply IH | destruct Hl |].
  destruct (existsb _ _); [apply IH |].
  destruct (rating_passes game); cbn [negb]; [| apply IH].
  destruct (json_variant game) as [v |]; [| congruence].
  destruct (variant_tag_matches v); cbn [negb]; [| apply IH].
  destruct (cap_reached _); [eexists; reflexivity | apply IH].
Qed.

Lemma note_created_at_earliest (c : option Z) (st : Fetch) (e : Z) :
  earliest_ts (note_created_at c st) = Some e ->
  earliest_ts st = Some e \/ c = Some e.
Proof.
  unfold note_created_at. destruct c as [c |]; [| auto].
  destruct (earliest_ts st) as [e0 |] eqn:He.
  - destruct (c <? e0); cbn [earliest_ts]; [| rewrite He]; intros [= <-]; auto.
  - cbn [earliest_ts]. intros [= <-]. auto.
Qed.

Lemma iter_lines_earliest (lines : list Line) :
  forall st st' e,
    iter_lines remembers rating_passes lines st = Some st' ->
    earliest_ts st' = Some e ->
    earliest_ts st = Some e
    \/ exists game, In (JsonLine game) lines /\ json_created_at game = Some e.
Proof.
  induction lines as [| l lines IH]; intros st st' e Hrun He.
  - cbn in Hrun. injection Hrun as <-. left. exact He.
  - assert (forall st0,
              iter_lines remembers rating_passes lines st0 = Some st' ->
              earliest_ts st0 = Some e
              \/ exists game, In (JsonLine game) (l :: lines)
                              /\ json_created_at game = Some e) as Hrest.
    { intros st0 H0. destruct (IH st0 st' e H0 He) as [H | [g [Hg Hc]]];
        [left; exact H | right; exists g; split; [right; exact Hg | exact Hc]]. }
    destruct l as [| | | game]; cbn [iter_lines] in Hrun.
    + exact (Hrest st Hrun).
    + exact (Hrest (count_line st) Hrun).
    + discriminate Hrun.
    + destruct (existsb _ _); [exact (Hrest (count_line st) Hrun) |].
      assert (forall st2,
                earliest_ts st2
                = earliest_ts
                    (note_created_at (json_created_at game)
                       (if remembers (json_id game)
                        then add_seen (json_id game) (count_line st)
                        else count_line st)) ->
                earliest_ts st2 = Some e ->
                earliest_ts st = Some e
                \/ exists game0, In (JsonLine game0) (JsonLine game :: lines)
                                 /\ json_created_at game0 = Some e) as Hnote.
      { intros st2 Heq H2. rewrite Heq in H2.
        apply note_created_at_earliest in H2 as [H2 | H2].
        - left. destruct (remembers (json_id game)); exact H2.
        - right. exists game. split; [left; reflexivity | exact H2]. }
      assert (forall st2,
                earliest_ts st2
                = earliest_ts
                    (note_created_at (json_created_at game)
                       (if remembers (json_id game)
                        then add_seen (json_id game) (count_line st)
                        else count_line st)) ->
                iter_lines remembers rating_passes lines st2 = Some st' ->
                earliest_ts st = Some e
                \/ exists game0, In (JsonLine game0) (JsonLine game :: lines)
                                 /\ json_created_at game0 = Some e) as Hgo.
      { intros st2 Heq H2. destruct (Hrest st2 H2) as [H | H];
          [exact (Hnote st2 Heq H) | right; exact H]. }
      destruct (rating_passes game); cbn [negb] in Hrun;
        [| exact (Hgo _ eq_refl Hrun)].
      destruct (json_variant game) as [v |]; [| discriminate Hrun].
      destruct (variant_tag_matches v); cbn [negb] in Hrun;
        [| exact (Hgo _ eq_refl Hrun)].
      match type of Hrun with
      | (if cap_reached ?s then _ else _) = _ =>
          assert (earliest_ts s
                  = earliest_ts
                      (note_created_at (json_created_at game)
                         (if remembers (json_id game)
                          then add_seen (json_id game) (count_line st)
                          else count_line st))) as Heq
            by (unfold keep_pgn; destruct (String.eqb _ _); reflexivity);
          destruct (cap_reached s)
      end.
      * injection Hrun as <-. exact (Hnote _ Heq He).
      * exact (Hgo _ Heq Hrun).
Qed.

Variable server : nat -> option Z -> option (list Line).
Hypothesis server_well_behaved : well_behaved server.

Lemma request_loop_ends (n : nat) :
  forall i t st,
    t < Z.of_nat n ->
    exists pgns,
      request_loop remembers rating_passes (S n) server i (Some t) st
      = Returned pgns.
Proof.
  induction n as [| n IH]; intros i t st Ht; cbn [request_loop];
    destruct (server_well_behaved i (Some t)) as [lines [-> [Hread Hdate]]];
    destruct (iter_lines_total lines Hread (new_chunk st)) as [st' Hrun];
    rewrite Hrun;
    destruct (earliest_ts st') as [e |] eqn:He;
    try (eexists; reflexivity);
    (destruct (iter_lines_earliest lines _ _ _ Hrun He)
       as [Habs | [game [Hg Hc]]]; [discriminate Habs |]);
    destruct (Hdate game e Hg Hc) as [H0 Hle]; specialize (Hle t eq_refl).
  - lia.
  - destruct ((batch_count st' =? 0) || cap_reached st');
      [eexists; reflexivity |].
    apply IH. lia.
Qed.

Lemma fetch_all_games_ends :
  exists fuel pgns,
    fetch_all_games remembers rating_passes fuel server = Returned pgns.
Proof.
  unfold fetch_all_games.
  destruct (server_well_behaved O None) as [lines [Hresp [Hread Hdate]]].
  destruct (iter_lines_total lines Hread (new_chunk new_Fetch))
    as [st' Hrun].
  destruct (earliest_ts st') as [e |] eqn:He.
  - destruct (iter_lines_earliest lines _ _ _ Hrun He)
      as [Habs | [game [Hg Hc]]]; [discriminate Habs |].
    destruct (Hdate game e Hg Hc) as [H0 _].
    destruct (request_loop_ends (Z.to_nat e) 1%nat (e - 1) st'
                ltac:(lia)) as [pgns Hloop].
    destruct ((batch_count st' =? 0) || cap_reached st') eqn:Hstop.
    + exists 1%nat, (all_pgns st'). cbn [request_loop].
      rewrite Hresp, Hrun, He, Hstop. reflexivity.
    + exists (S (S (Z.to_nat e))), pgns.
      change (request_loop remembers rating_passes (S (S (Z.to_nat e)))
                server 0 None new_Fetch)
        with (match server O None with
              | None => Raised
              | Some lines =>
                  match iter_lines remembers rating_passes lines
                          (new_chunk new_Fetch) with
                  | None => Raised
                  | Some st' =>
                      match earliest_ts st' with
                      | None => Returned (all_pgns st')
                      | Some e0 =>
                          if (batch_count st' =? 0) || cap_reached st'
                          then Returned (all_pgns st')
                          else request_loop remembers rating_passes
                                 (S (Z.to_nat e)) server 1
                                 (Some (e0 - 1)) st'
                      end
                  end
              end).
      rewrite Hresp, Hrun, He, Hstop. exact Hloop.
  - exists 1%nat, (all_pgns st'). cbn [request_loop].
    rewrite Hresp, Hrun, He. reflexivity.
Qed.
End FetchEnds.

Lemma request_loop_more_fuel (remembers : string -> bool)
    (rating_passes : GameJson -> bool)
    (server : nat -> option Z -> option (list Line)) (fuel : nat) :
  forall fuel' i until_ts st pgns,
    (fuel <= fuel')%nat ->
    request_loop remembers rating_passes fuel server i until_ts st
    = Returned pgns ->
    request_loop remembers rating_passes fuel' server i until_ts st
    = Returned pgns.
Proof.
  induction fuel as [| fuel IH]; intros fuel' i until_ts st pgns Hle Hrun;
    [discriminate Hrun |].
  destruct fuel' as [| fuel']; [lia |].
  cbn [request_loop] in *.
  destruct (server i until_ts) as [lines |]; [| discriminate Hrun].
  destruct (iter_lines remembers rating_passes lines (new_chunk st))
    as [st' |]; [| discriminate Hrun].
  destruct (earliest_ts st') as [e |]; [| exact Hrun].
  destruct ((batch_count st' =? 0) || cap_reached st'); [exact Hrun |].
  apply (IH fuel'); [lia | exact Hrun].
Qed.

(** X19: the loop ends when the server behaves: if every request is
    answered with lines the body can read, no game is dated before the
    epoch, and a request for the games until t brings none created after
    t, then after finitely many requests the call returns a list, and
    allowing more requests does not change the list (both scripts). *)
Theorem fetch_returns_from_a_well_behaved_server
    (remembers : string -> bool) (rating_passes : GameJson -> bool)
    (server : nat -> option Z -> option (list Line)) :
  well_behaved server ->
  exists fuel pgns,
    fetch_all_games remembers rating_passes fuel server = Returned pgns
    /\ forall fuel',
         (fuel <= fuel')%nat ->
         fetch_all_games remembers rating_passes fuel' server
         = Returned pgns.
Proof.
  intros Hwb.
  destruct (fetch_all_games_ends remembers rating_passes server Hwb)
    as [fuel [pgns Hrun]].
  exists fuel, pgns. split; [exact Hrun |].
  intros fuel' Hle.
  exact (request_loop_more_fuel remembers rating_passes server fuel fuel'
           O None new_Fetch pgns Hle Hrun).
Qed.

Lemma sample_server_well_behaved : well_behaved sample_server.
Proof.
  intros i until_ts. eexists. split; [reflexivity |]. split.
  - apply Forall_forall. intros l Hl. apply filter_In in Hl as [Hl _].
    cbn in Hl.
    repeat (destruct Hl as [<- | Hl]; [cbn; try exact I; discriminate |]).
    destruct Hl.
  - intros game c Hg Hc. apply filter_In in Hg as [Hg Hkeep].
    cbn in Hg.
    repeat (destruct Hg as [Hg | Hg];
            [first [discriminate Hg
                   | injection Hg as <-; cbn in Hc; injection Hc as <-;
                     split; [lia | intros t ->; cbn in Hkeep;
                                   apply Z.leb_le in Hkeep; exact Hkeep]] |]).
    destruct Hg.
Qed.

Lemma fetch_returns_from_a_well_behaved_server_witness :
  exists fuel pgns,
    FilterAndBuild.fetch_all_games_for_bot fuel sample_server = Returned pgns
    /\ forall fuel',
         (fuel <= fuel')%nat ->
         FilterAndBuild.fetch_all_games_for_bot fuel' sample_server
         = Returned pgns.
Proof.
  apply (fetch_returns_from_a_well_behaved_server
           FilterAndBuild.remembers FilterAndBuild.rating_passes
           sample_server).
  exact sample_server_well_behaved.
Defined.

(** ** Games of other variants *)

Lemma prefix_app (n h : string) :
  prefix n h = true <-> exists b, h = (n ++ b)%string.
Proof.
  revert h. induction n as [| c n IH]; intros h.
  - split; [intros _; exists h; reflexivity | intros _; destruct h; reflexivity].
  - destruct h as [| c' h]; cbn [prefix String.append].
    + split; [discriminate | intros [b Hb]; discriminate Hb].
    + destruct (ascii_dec c c') as [<- | Hne].
      * rewrite IH. split; intros [b Hb]; exists b; congruence.
      * split; [discriminate | intros [b Hb]; congruence].
Qed.

Lemma contains_substring (n h : string) :
  contains n h = true <-> exists a b, h = (a ++ n ++ b)%string.
Proof.
  split.
  - induction h as [| c h IH]; cbn [contains]; intros H;
      apply orb_true_iff in H as [H | H].
    + apply prefix_app in H as [b Hb]. exists EmptyString, b. exact Hb.
    + discriminate H.
    + apply prefix_app in H as [b Hb]. exists EmptyString, b. exact Hb.
    + destruct (IH H) as [a [b Hab]]. exists (String c a), b.
      cbn [String.append]. congruence.
  - intros [a [b ->]]. induction a as [| c a IH]; cbn [String.append].
    + assert (prefix n (n ++ b) = true) as Hp
        by (apply prefix_app; exists b; reflexivity).
      destruct (n ++ b)%string; cbn [contains]; rewrite Hp; reflexivity.
    + cbn [contains]. rewrite IH. apply orb_true_r.
Qed.

Lemma ingest_skips_other_variants (increment : Scoring) (games : list Game) :
  forall st,
    ingest increment games st
    = ingest increment (filter variant_matches games) st.
Proof.
  unfold ingest. induction games as [| g games IH]; intros st;
    cbn [filter fold_left]; [reflexivity |].
  destruct (variant_matches g) eqn:Hv; cbn [fold_left].
  - apply IH.
  - assert (ingest_game increment g st = st) as ->
      by (unfold ingest_game; rewrite Hv; reflexivity).
    apply IH.
Qed.

(** X20: a game is read only when its Variant header, lowercased and with
    its spaces removed, has VARIANT as a substring; every other game
    leaves no trace: ingestion and the whole run give the same result as
    on the list without these games (any scoring policy; in win-only mode
    a skipped game draws no random number either). *)
Theorem other_variants_leave_no_trace (rng : nat -> Z)
    (increment : Scoring) (games : list Game) :
  (forall st,
     ingest increment games st
     = ingest increment (filter variant_matches games) st)
  /\ build_book rng increment games
     = build_book rng increment (filter variant_matches games)
  /\ forall g,
       variant_matches g = true <->
       exists a b,
         remove_spaces (lower (variant_header g)) = (a ++ VARIANT ++ b)%string.
Proof.
  split; [apply ingest_skips_other_variants |]. split.
  - unfold build_book. rewrite <- ingest_skips_other_variants. reflexivity.
  - intros g. unfold variant_matches. apply contains_substring.
Qed.

(** ** One entry per position and move *)

Lemma move_int_no_pawn_inj (m1 m2 : Move) :
  valid_move m1 -> valid_move m2 ->
  promotion m1 <> Some PAWN -> promotion m2 <> Some PAWN ->
  move_int m1 = move_int m2 -> m1 = m2.
Proof.
  intros H1 H2 Hp1 Hp2 Heq.
  destruct (move_int_parts m1 H1) as [c1 [Hc1 [E1 P1]]].
  destruct (move_int_parts m2 H2) as [c2 [Hc2 [E2 P2]]].
  destruct H1 as [Hf1 Ht1], H2 as [Hf2 Ht2]. unfold valid_square in *.
  rewrite E1, E2 in Heq.
  assert (to_square m1 = to_square m2 /\ from_square m1 = from_square m2
          /\ c1 = c2) as [Ht [Hf Hc]] by lia.
  destruct m1 as [f1 t1 p1], m2 as [f2 t2 p2]. cbn in *. subst.
  f_equal.
  destruct p1 as [[] |], p2 as [[] |]; cbn in Hc; try discriminate Hc;
    try reflexivity; congruence.
Qed.

Lemma hash_and_move_entry_of (key : Z) (ubm : string * BookMove) :
  valid_key key -> filed_move ubm ->
  exists m,
    move (snd ubm) = Some m /\ uci m = fst ubm /\ valid_move m
    /\ promotion m <> Some PAWN
    /\ hash_and_move (entry_of key ubm) = (key, move_int m).
Proof.
  intros Hkey [m [Hm [Hu [Hv Hp]]]]. exists m.
  repeat (split; [assumption |]).
  unfold hash_and_move, entry_of. rewrite Hm.
  rewrite entry_hash_make_entry by exact Hkey.
  rewrite entry_move_make_entry by (apply move_int_range, Hv).
  reflexivity.
Qed.

Lemma position_entries_distinct (key : Z) (pos : BookPosition) :
  valid_key key -> NoDup (map fst pos) -> Forall filed_move pos ->
  NoDup (map hash_and_move (map (entry_of key) (filter emitted pos))).
Proof.
  intros Hkey. induction pos as [| ubm pos IH]; intros Hnd Hall;
    cbn [filter map]; [constructor |].
  cbn [map] in Hnd. inversion Hnd as [| ? ? Hnot Hnd']; subst.
  inversion Hall as [| ? ? Hubm Hall']; subst.
  specialize (IH Hnd' Hall').
  destruct (emitted ubm); [| exact IH].
  cbn [map]. constructor; [| exact IH].
  intros Hin. apply in_map_iff in Hin as [e [He Hin]].
  apply in_map_iff in Hin as [ubm' [<- Hin]].
  apply filter_In in Hin as [Hin _].
  rewrite Forall_forall in Hall'.
  destruct (hash_and_move_entry_of key ubm Hkey Hubm)
    as [m [_ [Hu [Hv [Hp Hhm]]]]].
  destruct (hash_and_move_entry_of key ubm' Hkey (Hall' _ Hin))
    as [m' [_ [Hu' [Hv' [Hp' Hhm']]]]].
  rewrite Hhm, Hhm' in He. injection He as He.
  apply (move_int_no_pawn_inj m' m Hv' Hv Hp' Hp) in He. subst m'.
  apply Hnot. rewrite <- Hu, Hu'. apply in_map. exact Hin.
Qed.

Lemma expected_entries_distinct (b : Book) :
  NoDup (map fst b) -> Forall position_distinct b ->
  NoDup (map hash_and_move (expected_entries b)).
Proof.
  unfold expected_entries.
  induction b as [| [key pos] b IH]; intros Hnd Hall; cbn [flat_map map];
    [constructor |].
  cbn [map fst] in Hnd. inversion Hnd as [| ? ? Hnot Hnd']; subst.
  inversion Hall as [| ? ? [Hkey [Hpos Hfiled]] Hall']; subst.
  cbn [fst snd] in *. rewrite map_app.
  apply NoDup_app.
  - apply position_entries_distinct; assumption.
  - apply IH; assumption.
  - intros hm H1 H2.
    apply in_map_iff in H1 as [e1 [<- H1]].
    apply in_map_iff in H1 as [ubm1 [<- H1]].
    apply filter_In in H1 as [H1 _].
    rewrite Forall_forall in Hfiled.
    destruct (hash_and_move_entry_of key ubm1 Hkey (Hfiled _ H1))
      as [m1 [_ [_ [_ [_ Hhm1]]]]].
    apply in_map_iff in H2 as [e2 [He2 H2]].
    apply in_flat_map in H2 as [[key2 pos2] [Hkp2 H2]]. cbn [fst snd] in H2.
    apply in_map_iff in H2 as [ubm2 [<- H2]].
    apply filter_In in H2 as [H2 _].
    rewrite Forall_forall in Hall'.
    destruct (Hall' _ Hkp2) as [Hkey2 [_ Hfiled2]]. cbn [fst snd] in *.
    rewrite Forall_forall in Hfiled2.
    destruct (hash_and_move_entry_of key2 ubm2 Hkey2 (Hfiled2 _ H2))
      as [m2 [_ [_ [_ [_ Hhm2]]]]].
    rewrite Hhm1, Hhm2 in He2. injection He2 as Hk _.
    apply Hnot. rewrite <- Hk. apply (in_map fst) in Hkp2. exact Hkp2.
Qed.

Lemma finished_distinct (b b2 : Book) :
  Forall2 position_finished b b2 ->
  Forall position_distinct b ->
  map fst b2 = map fst b /\ Forall position_distinct b2.
Proof.
  induction 1 as [| [key pos] [key2 pos2] b b2 [Hk Hp] _ IH]; intros Hall.
  - split; [reflexivity | constructor].
  - inversion Hall as [| ? ? [Hkey [Hnd Hfiled]] Hall']; subst.
    cbn [fst snd] in *. subst key2.
    destruct (IH Hall') as [Hkeys Hall2].
    split; [cbn [map fst]; rewrite Hkeys; reflexivity |].
    constructor; [| exact Hall2].
    split; [exact Hkey |]. cbn [snd].
    clear IH Hall Hall' Hall2 Hkeys.
    assert (map fst pos2 = map fst pos /\ Forall filed_move pos2) as [Hf Hm].
    { clear Hnd. revert Hfiled.
      induction Hp as [| ubm ubm2 l l2 [Hu [Hmv _]] _ IHp]; intros Hfiled.
      - split; [reflexivity | constructor].
      - apply Forall_cons_iff in Hfiled
          as [[m [Hm [Hum [Hv Hpp]]]] Hfiled'].
        destruct (IHp Hfiled') as [Hf' Hm'].
        split; [cbn [map]; rewrite Hu, Hf'; reflexivity |].
        constructor; [| exact Hm'].
        exists m. rewrite Hmv, Hu.
        split; [exact Hm |]. split; [exact Hum |]. split; assumption. }
    rewrite Hf. split; assumption.
Qed.

Lemma firstn_In {A : Type} (n : nat) (l : list A) (a : A) :
  In a (firstn n l) -> In a l.
Proof.
  revert l. induction n as [| n IH]; intros [| x l]; cbn [firstn In];
    try (intros Hnil; exact (False_ind _ Hnil)).
  intros [-> | Hin]; [left; reflexivity | right; exact (IH l Hin)].
Qed.

Lemma scored_plies_In (g : Game) (p : Ply) :
  In p (scored_plies g) -> In p (mainline_moves g).
Proof.
  unfold scored_plies. destruct (variant_matches g); [| intros []].
  apply firstn_In.
Qed.

Lemma record_ply_distinct (increment : Scoring) (result : string) (i : Z)
    (p : Ply) (st : Book * nat) :
  valid_ply p -> promotion (ply_move p) <> Some PAWN ->
  Forall position_distinct (fst st) ->
  Forall position_distinct (fst (record_ply increment result i p st)).
Proof.
  intros [Hkey Hmove] Hpawn Hall. destruct st as [b n].
  unfold record_ply.
  destruct (increment result (ply_turn p) (decay i) n) as [inc n'].
  cbn [fst] in *. unfold get_position.
  assert (forall pos,
            position_distinct (ply_key p, pos) ->
            position_distinct
              (ply_key p,
               get_move (uci (ply_move p))
                 (fun bm => mkBookMove (weight bm + inc) (Some (ply_move p)))
                 pos)) as Hstep.
  { intros pos [Hk [Hnd Hfiled]]. cbn [fst snd] in *.
    split; [exact Hk |]. unfold get_move. split.
    - apply (dict_update_keys String.eqb string_eqb_iff). exact Hnd.
    - apply (dict_update_Forall String.eqb string_eqb_iff);
        [exact Hfiled | |];
        try intros v _; exists (ply_move p); cbn [fst snd move];
        (split; [reflexivity |]); (split; [reflexivity |]);
        split; assumption. }
  apply (dict_update_Forall Z.eqb Z_eqb_iff); [exact Hall | |].
  - intros pos. apply Hstep.
  - apply Hstep. split; [exact Hkey |]. split; constructor.
Qed.

Section OneEntryPerMove.
Variable rng : nat -> Z.
Variable increment : Scoring.
Hypothesis increment_nonneg : nonneg_scoring increment.

Lemma output_distinct (games : list Game) (es : list Entry) :
  Forall valid_game games ->
  Forall no_pawn_promotion games ->
  build_book rng increment games = Some es ->
  NoDup (map hash_and_move es).
Proof.
  intros Hgames Hpawn Hbuild.
  destruct (ingest increment games (new_Book, O)) as [b n] eqn:Hing.
  destruct (build_book_spec rng increment increment_nonneg games b n
              Hgames Hing) as [[Hnd _] [b2 [HF Hout]]].
  rewrite Hout in Hbuild. injection Hbuild as <-.
  pose proof (ingest_invariant increment (Forall position_distinct) games)
    as Hinv.
  assert (Forall position_distinct b) as Hdist.
  { specialize (Hinv
      (fun g i p st Hg Hp H =>
         record_ply_distinct increment (result_header g) i p st
           (proj1 (Forall_forall _ _)
              (proj1 (Forall_forall _ _) Hgames g Hg) p
              (scored_plies_In g p Hp))
           (proj1 (Forall_forall _ _)
              (proj1 (Forall_forall _ _) Hpawn g Hg) p
              (scored_plies_In g p Hp))
           H)
      (new_Book, O) (Forall_nil _)).
    rewrite Hing in Hinv. exact Hinv. }
  destruct (finished_distinct b b2 HF Hdist) as [Hkeys Hdist2].
  apply (Permutation_NoDup
           (l := map hash_and_move (expected_entries b2))).
  - apply Permutation_map, Permutation_sym, sort_entries_perm.
  - apply expected_entries_distinct; [rewrite Hkeys; exact Hnd | exact Hdist2].
Qed.
End OneEntryPerMove.

(** X21: the book written from decoded games has at most one entry for a
    position and a move: no two entries of the output share both the hash
    and the move value, however often the move was played and in however
    many games (both scripts; the games hold no promotion to a pawn, as
    no legal move is one). *)
Theorem output_has_one_entry_per_move (rng : nat -> Z)
    (increment : Scoring) (games : list Game) (es : list Entry) :
  In increment [balanced_increment; win_only_increment rng] ->
  Forall valid_game games ->
  Forall no_pawn_promotion games ->
  build_book rng increment games = Some es ->
  NoDup (map hash_and_move es).
Proof.
  intros Hinc. apply output_distinct.
  exact (both_scripts_nonneg rng increment Hinc).
Qed.

(** ** The properties at concrete inputs *)

Lemma key_hex_injective_witness :
  String.length (key_hex start_key) = 16%nat
  /\ (key_hex start_key = key_hex 0x1111111111111111 ->
      start_key = 0x1111111111111111).
Proof.
  apply (key_hex_injective start_key 0x1111111111111111);
    unfold valid_key, start_key; lia.
Defined.

Lemma ingest_never_shrinks_witness :
  exists bm',
    book_lookup start_key "e2e4"
      (fst (ingest balanced_increment three_games
              ([(start_key, [("e2e4"%string, mkBookMove 72 (Some e2e4))])],
               O)))
    = Some bm'
    /\ 72 <= weight bm'.
Proof.
  apply (ingest_never_shrinks (constant_rng 3) balanced_increment three_games
           ([(start_key, [("e2e4"%string, mkBookMove 72 (Some e2e4))])], O)
           start_key "e2e4" (mkBookMove 72 (Some e2e4)));
    [left; reflexivity | reflexivity].
Defined.

Lemma book_holds_observed_moves_witness :
  (forall key pos u bm,
     In (key, pos)
       [(start_key, [("e2e4"%string, mkBookMove 72 (Some e2e4));
                     ("d2d4"%string, mkBookMove 144 (Some d2d4))])] ->
     In (u, bm) pos ->
     exists m, move bm = Some m /\ uci m = u /\ observed three_games key m)
  /\ (forall key m,
        observed three_games key m ->
        exists bm,
          book_lookup key (uci m)
            [(start_key, [("e2e4"%string, mkBookMove 72 (Some e2e4));
                          ("d2d4"%string, mkBookMove 144 (Some d2d4))])]
          = Some bm).
Proof.
  exact (book_holds_observed_moves (constant_rng 3) balanced_increment
           three_games
           [(start_key, [("e2e4"%string, mkBookMove 72 (Some e2e4));
                         ("d2d4"%string, mkBookMove 144 (Some d2d4))])] O
           (or_introl eq_refl) eq_refl).
Defined.

Lemma balanced_ingest_order_independent_witness :
  book_weight start_key "e2e4"
    (fst (ingest balanced_increment
            [game_e4_white_wins; game_d4_white_wins] (new_Book, O)))
  = book_weight start_key "e2e4"
      (fst (ingest balanced_increment
              [game_d4_white_wins; game_e4_white_wins] (new_Book, O))).
Proof.
  apply (balanced_ingest_order_independent
           [game_e4_white_wins; game_d4_white_wins]
           [game_d4_white_wins; game_e4_white_wins] start_key "e2e4").
  apply perm_swap.
Defined.

Lemma ingest_weight_budget_witness :
  0 <= book_total
         [(start_key, [("e2e4"%string, mkBookMove 72 (Some e2e4));
                       ("d2d4"%string, mkBookMove 144 (Some d2d4))])]
    <= 2076 * Z.of_nat (List.length three_games)
  /\ forall key pos,
       In (key, pos)
         [(start_key, [("e2e4"%string, mkBookMove 72 (Some e2e4));
                       ("d2d4"%string, mkBookMove 144 (Some d2d4))])] ->
       0 <= position_sum pos <= 2076 * Z.of_nat (List.length three_games).
Proof.
  exact (ingest_weight_budget (constant_rng 3) balanced_increment three_games
           [(start_key, [("e2e4"%string, mkBookMove 72 (Some e2e4));
                         ("d2d4"%string, mkBookMove 144 (Some d2d4))])] O
           (or_introl eq_refl) eq_refl).
Defined.

Lemma uneven_position_nonneg :
  Forall (fun ubm => 0 <= weight (snd ubm)) uneven_position.
Proof.
  unfold uneven_position.
  apply Forall_cons; [cbn; lia |]. apply Forall_cons; [cbn; lia |].
  apply Forall_nil.
Qed.

Lemma normalize_position_range_witness :
  exists pos',
    normalize_position uneven_position = Some pos'
    /\ map (fun ubm => (fst ubm, move (snd ubm))) pos'
       = map (fun ubm => (fst ubm, move (snd ubm))) uneven_position
    /\ Forall (fun ubm => 1 <= weight (snd ubm) <= MAX_BOOK_WEIGHT) pos'.
Proof.
  apply (normalize_position_range uneven_position);
    [exact uneven_position_nonneg | vm_compute; reflexivity].
Defined.

Lemma normalize_position_sum_witness :
  exists pos',
    normalize_position uneven_position = Some pos'
    /\ MAX_BOOK_WEIGHT - 2 * 2 < position_sum pos'
    /\ position_sum pos' <= MAX_BOOK_WEIGHT + 2.
Proof.
  eexists. split; [vm_compute; reflexivity |].
  apply (normalize_position_sum uneven_position);
    [exact uneven_position_nonneg
    | split; vm_compute; reflexivity
    | vm_compute; reflexivity].
Defined.

Lemma zero_jitter_is_deterministic_witness :
  build_book (constant_rng 0) balanced_increment three_games
  = (normalized <-
       normalize (fst (ingest balanced_increment three_games (new_Book, O))) ;;
     save_polyglot normalized)
  /\ forall rng',
       (forall i, rng' i mod 4 = 0) ->
       FilterAndBuild.build_book_from_pgn (constant_rng 0) three_games
       = FilterAndBuild.build_book_from_pgn rng' three_games.
Proof.
  apply (zero_jitter_is_deterministic (constant_rng 0) balanced_increment
           three_games); [left; reflexivity | intros i; reflexivity].
Defined.

Lemma output_holds_only_played_moves_witness :
  exists es e,
    build_book (constant_rng 3) balanced_increment three_games = Some es
    /\ In e es
    /\ List.length e = 16%nat
    /\ exists m,
         observed three_games (entry_hash e) m /\ entry_move e = move_int m.
Proof.
  assert (exists es e,
            build_book (constant_rng 3) balanced_increment three_games
            = Some es /\ In e es) as [es [e [Hes He]]]
    by (eexists; eexists; split; [vm_compute; reflexivity | left; reflexivity]).
  exists es, e. split; [exact Hes |]. split; [exact He |].
  exact (output_holds_only_played_moves (constant_rng 3) balanced_increment
           three_games es e (or_introl eq_refl) three_games_valid Hes He).
Defined.

Lemma three_games_no_pawn_promotion : Forall no_pawn_promotion three_games.
Proof.
  unfold three_games, no_pawn_promotion.
  repeat (apply Forall_cons;
          [apply Forall_cons; [cbn; discriminate | apply Forall_nil] |]).
  apply Forall_nil.
Qed.

Lemma output_has_one_entry_per_move_witness :
  exists es,
    build_book (constant_rng 3) balanced_increment three_games = Some es
    /\ NoDup (map hash_and_move es).
Proof.
  assert (exists es,
            build_book (constant_rng 3) balanced_increment three_games
            = Some es) as [es Hes]
    by (eexists; vm_compute; reflexivity).
  exists es. split; [exact Hes |].
  exact (output_has_one_entry_per_move (constant_rng 3) balanced_increment
           three_games es (or_introl eq_refl) three_games_valid
           three_games_no_pawn_promotion Hes).
Defined.

Lemma sample_server_fetched :
  FilterAndBuild.fetch_all_games_for_bot 2 sample_server
  = Returned ["1. e4 e5"%string; "1. e4 e5"%string]
  /\ WeakestBook.fetch_all_games_for_bot 2 sample_server
     = Returned ["1. e4 e5"%string; "1. e4 e5"%string; "1. e4 e5"%string].
Proof. split; vm_compute; reflexivity. Qed.

Lemma fetch_keeps_at_most_max_games_witness :
  Z.of_nat (List.length ["1. e4 e5"%string; "1. e4 e5"%string]) <= MAX_GAMES
  /\ Forall (fun p => p <> EmptyString) ["1. e4 e5"%string; "1. e4 e5"%string].
Proof.
  exact (proj1 (fetch_keeps_at_most_max_games FilterAndBuild.remembers
                  FilterAndBuild.rating_passes)
           2%nat sample_server _ (proj1 sample_server_fetched)).
Defined.

Lemma fetch_keeps_only_filtered_games_witness :
  exists game white_rating black_rating v,
    served sample_server game /\ json_pgn game = "1. e4 e5"%string
    /\ json_ratings game = Some (white_rating, black_rating)
    /\ white_rating <= MAX_ELO /\ black_rating <= MAX_ELO
    /\ json_variant game = Some v
    /\ contains VARIANT (remove_spaces (lower v)) = true.
Proof.
  exact (proj1 (fetch_keeps_only_filtered_games sample_server 2%nat
                  ["1. e4 e5"%string; "1. e4 e5"%string] "1. e4 e5"
                  (or_introl eq_refl))
           (proj1 sample_server_fetched)).
Defined.

Lemma fetch_drops_repeated_ids_witness :
  exists gs,
    ["1. e4 e5"%string; "1. e4 e5"%string] = map json_pgn gs
    /\ Forall (served sample_server) gs
    /\ NoDup (filter (fun gid => negb (String.eqb gid ""))
                (map json_id gs)).
Proof.
  exact (proj1 (fetch_drops_repeated_ids sample_server 2%nat
                  ["1. e4 e5"%string; "1. e4 e5"%string])
           (proj1 sample_server_fetched)).
Defined.
